(** * ChordPro to FreeShow processor: a shallow embedding

    The development follows [online_chrodpro_processor.py]:
    - Python [str] values are lists of Unicode code points;
    - the [re] patterns of the program are terms of a small regular
      expression language run by a backtracking matcher, and
      [re.match], [re.search], [re.finditer] and [re.sub] are
      functions over it;
    - the loops over lines and sections are folds over an explicit state;
    - [hashlib.md5], [str.lower], [str.title] and the Unicode decimal
      digit test belong to the Python runtime and are taken as
      parameters. *)

From Stdlib Require Import String Ascii NArith ZArith List Lia DecimalString.
From stdpp Require Import base option list gmap.
Import ListNotations.

Local Open Scope N_scope.
Local Open Scope nat_scope.

(** ** Python strings *)

Definition char := N.
Definition str := list char.

(** ASCII literals of the program text. *)
Definition lit (s : string) : str := map N_of_ascii (list_ascii_of_string s).
Arguments lit : simpl never.

(** [str.isspace] of one code point, which is also the class [\s] of
    [re] on [str] patterns (CPython's [Py_UNICODE_ISSPACE]). *)
Definition isspace (c : char) : bool :=
  ((9 <=? c) && (c <=? 13) || (28 <=? c) && (c <=? 32) ||
   (c =? 133) || (c =? 160) || (c =? 5760) ||
   (8192 <=? c) && (c <=? 8202) ||
   (c =? 8232) || (c =? 8233) || (c =? 8239) || (c =? 8287) ||
   (c =? 12288))%N.

Fixpoint drop_while (p : char -> bool) (s : str) : str :=
  match s with
  | c :: s' => if p c then drop_while p s' else s
  | [] => []
  end.

Fixpoint take_while (p : char -> bool) (s : str) : str :=
  match s with
  | c :: s' => if p c then c :: take_while p s' else []
  | [] => []
  end.

(** [s.lstrip()], [s.rstrip()] and [s.strip()]. *)
Definition lstrip (s : str) : str := drop_while isspace s.
Definition rstrip (s : str) : str := rev (drop_while isspace (rev s)).
Definition strip (s : str) : str := rstrip (lstrip s).

(** [s.startswith(p)]. *)
Fixpoint startswith (s p : str) : bool :=
  match p, s with
  | [], _ => true
  | a :: p', c :: s' => (a =? c)%N && startswith s' p'
  | _ :: _, [] => false
  end.

(** [p in s] for strings. *)
Fixpoint contains (p s : str) : bool :=
  startswith s p ||
  match s with
  | [] => false
  | _ :: s' => contains p s'
  end.

(** [sep.join(l)]. *)
Fixpoint join (sep : str) (l : list str) : str :=
  match l with
  | [] => []
  | [x] => x
  | x :: l' => x ++ sep ++ join sep l'
  end.

Definition NL : char := 10%N.

(** [s.split('\n')]. *)
Fixpoint split_lines (s : str) : list str :=
  match s with
  | [] => [[]]
  | c :: s' =>
      if (c =? NL)%N then [] :: split_lines s'
      else match split_lines s' with
           | l :: ls => (c :: l) :: ls
           | [] => [[c]]
           end
  end.

(** [s[a:-1]] for a literal start [a]. *)
Definition slice_to_last (a : nat) (s : str) : str := removelast (drop a s).

(** [str(n)] for a non-negative integer. *)
Definition str_of_nat (n : nat) : str :=
  lit (NilEmpty.string_of_uint (Nat.to_uint n)).

(** ** The [re] module *)

Module Re.

Inductive regex : Type :=
| Eps
| Cls (p : char -> bool)
| Star (p : char -> bool)
| Cat (r1 r2 : regex)
| Alt (r1 r2 : regex)
| Grp (i : nat) (r : regex)
| Bos
| Eos.

Definition Chr (c : char) : regex := Cls (N.eqb c).
Definition Plus (p : char -> bool) : regex := Cat (Cls p) (Star p).
Definition Opt (r : regex) : regex := Alt r Eps.

Record rmatch : Type := Match {
  m_start : nat;
  m_end : nat;
  m_groups : gmap nat str
}.

(** [m.group(i)], with [None] for a group that took no part. *)
Definition group (m : rmatch) (i : nat) : option str := m_groups m !! i.

(** A group in a replacement template; one that took no part is empty. *)
Definition group_text (m : rmatch) (i : nat) : str := default [] (group m i).

Section Matcher.
Context {A : Type}.

(** Greedy [p*]: the longest run first, then shorter ones. *)
Fixpoint star_loop (p : char -> bool) (k : str -> nat -> option A)
    (s : str) (pos : nat) : option A :=
  match s with
  | c :: s' =>
      if p c then
        match star_loop p k s' (S pos) with
        | Some x => Some x
        | None => k s pos
        end
      else k s pos
  | [] => k s pos
  end.

(** The backtracking matcher, in continuation-passing style: [s] is
    the text from offset [pos] on. *)
Fixpoint run (r : regex) (s : str) (pos : nat) (g : gmap nat str)
    (k : str -> nat -> gmap nat str -> option A) : option A :=
  match r with
  | Eps => k s pos g
  | Cls p =>
      match s with
      | c :: s' => if p c then k s' (S pos) g else None
      | [] => None
      end
  | Star p => star_loop p (fun s1 p1 => k s1 p1 g) s pos
  | Cat r1 r2 => run r1 s pos g (fun s1 p1 g1 => run r2 s1 p1 g1 k)
  | Alt r1 r2 =>
      match run r1 s pos g k with
      | Some x => Some x
      | None => run r2 s pos g k
      end
  | Grp i r1 =>
      run r1 s pos g
        (fun s1 p1 g1 => k s1 p1 (<[i := take (p1 - pos) s]> g1))
  | Bos => match pos with O => k s pos g | S _ => None end
  | Eos =>
      match s with
      | [] => k s pos g
      | [c] => if (c =? NL)%N then k s pos g else None
      | _ => None
      end
  end.
End Matcher.

(** A match of [r] that starts at offset [pos], where [s] is the text
    from [pos] on. *)
Definition match_at (r : regex) (s : str) (pos : nat) : option rmatch :=
  run r s pos ∅ (fun _ e g => Some (Match pos e g)).

(** [re.match(r, s)]. *)
Definition re_match (r : regex) (s : str) : option rmatch := match_at r s 0.

(** [re.search(r, s)]: the leftmost match. *)
Fixpoint search_from (r : regex) (s : str) (pos : nat) : option rmatch :=
  match match_at r s pos with
  | Some m => Some m
  | None =>
      match s with
      | [] => None
      | _ :: s' => search_from r s' (S pos)
      end
  end.

Definition re_search (r : regex) (s : str) : option rmatch :=
  search_from r s 0.

(** [r.finditer(s)]: the successive non-overlapping matches, left to
    right. [skip] counts the characters still covered by the last
    match. Every pattern of the program consumes at least one
    character; an empty match is treated as covering one. *)
Fixpoint finditer_from (r : regex) (s : str) (pos skip : nat) : list rmatch :=
  match s with
  | [] => []
  | _ :: s' =>
      match skip with
      | S n => finditer_from r s' (S pos) n
      | O =>
          match match_at r s pos with
          | Some m => m :: finditer_from r s' (S pos) (m_end m - pos - 1)
          | None => finditer_from r s' (S pos) 0
          end
      end
  end.

Definition finditer (r : regex) (s : str) : list rmatch :=
  finditer_from r s 0 0.

(** [r.sub(repl, s)]: the same scan, copying the text between matches
    and writing [repl m] for each match [m]. *)
Fixpoint sub_from (r : regex) (repl : rmatch -> str) (s : str)
    (pos skip : nat) : str :=
  match s with
  | [] => []
  | c :: s' =>
      match skip with
      | S n => sub_from r repl s' (S pos) n
      | O =>
          match match_at r s pos with
          | Some m => repl m ++ sub_from r repl s' (S pos) (m_end m - pos - 1)
          | None => c :: sub_from r repl s' (S pos) 0
          end
      end
  end.

Definition sub (r : regex) (repl : rmatch -> str) (s : str) : str :=
  sub_from r repl s 0 0.

(** The least number of characters a match of [r] covers. *)
Fixpoint min_len (r : regex) : nat :=
  match r with
  | Eps | Star _ | Bos | Eos => 0
  | Cls _ => 1
  | Cat r1 r2 => min_len r1 + min_len r2
  | Alt r1 r2 => Nat.min (min_len r1) (min_len r2)
  | Grp _ r1 => min_len r1
  end.

End Re.

(** ** FrenchPunctuationHandler *)

Module FrenchPunctuationHandler.
Import Re.

(** Non-breaking space, U+00A0. *)
Definition NBSP : char := 160%N.
(** The guillemets, U+00AB and U+00BB. *)
Definition LAQUO : char := 171%N.
Definition RAQUO : char := 187%N.

(** The class [[;:!?»]]. *)
Definition double_punct (c : char) : bool :=
  ((c =? 59) || (c =? 58) || (c =? 33) || (c =? 63) || (c =? RAQUO))%N.

(** [\s*([;:!?»])] *)
Definition DOUBLE_PUNCT_PATTERN : regex :=
  Cat (Star isspace) (Grp 1 (Cls double_punct)).

(** [(«)\s*] *)
Definition OPENING_GUILLEMETS_PATTERN : regex :=
  Cat (Grp 1 (Chr LAQUO)) (Star isspace).

(** The replacement templates [rf'{cls.NBSP}\1'] and [rf'\1{cls.NBSP}']. *)
Definition punct_template (m : rmatch) : str := NBSP :: group_text m 1.
Definition guillemet_template (m : rmatch) : str := group_text m 1 ++ [NBSP].

(** [fix_french_punctuation] on a string; [not text] is the test for the
    empty string. *)
Definition fix_french_punctuation (text : str) : str :=
  match text with
  | [] => text
  | _ =>
      let text := sub DOUBLE_PUNCT_PATTERN punct_template text in
      let text := sub OPENING_GUILLEMETS_PATTERN guillemet_template text in
      text
  end.

(** An argument of any type: a string or another Python object. *)
Inductive pyobj : Type :=
| PyStr (s : str)
| PyNone
| PyInt (z : Z)
| PyBool (b : bool).

(** The whole function, with its guard
    [if not text or not isinstance(text, str): return text]. *)
Definition fix_french_punctuation_obj (text : pyobj) : pyobj :=
  match text with
  | PyStr s => PyStr (fix_french_punctuation s)
  | other => other
  end.

End FrenchPunctuationHandler.

(** ** The Python runtime

    [str.lower], [str.title] and the class [\d] depend on the Unicode
    tables of the interpreter, and [hashlib.md5] is a library function;
    the program is modelled over any choice of them. The texts handled
    are decoded from UTF-8 files, so [s.encode('utf-8')] cannot fail and
    is folded into the digest. *)

Class PyRuntime : Type := {
  (** [s.lower()] *)
  str_lower : str -> str;
  (** [s.title()] *)
  str_title : str -> str;
  (** the class [\d] of [re] *)
  isdecimal : char -> bool;
  (** [hashlib.md5(s.encode('utf-8')).hexdigest()] *)
  md5_hexdigest : str -> str
}.

(** The class [[a-zA-Z]]. *)
Definition ascii_letter (c : char) : bool :=
  ((65 <=? c) && (c <=? 90) || (97 <=? c) && (c <=? 122))%N.

(** ** Data classes *)

Module SongMetadata.
Record t : Type := Make {
  number : str;
  title : str;
  title2 : str;
  original_title : str;
  composer : str;
  author : str;
  key : str;
  format : str;
  copyright : str;
  reference : str;
  theme : str;
  tune_of : str;
  volume : str;
  supplement : str;
  f1 : str;
  link : str
}.
End SongMetadata.

Module ChordProSection.
Record t : Type := Make {
  name : str;
  type : str;
  number : option str;
  content : list str;
  raw_content : str
}.
End ChordProSection.

(** ** ChordProProcessor.parse_chordpro_file *)

Module Parser.
Import Re.

Record section_info : Type := Info {
  info_name : str;
  info_type : str;
  info_number : option str
}.

(** The local variables of the loop over the lines. *)
Record state : Type := State {
  metadata : gmap str str;
  sections : list ChordProSection.t;
  current_section_label : option str;
  current_section_content : list str;
  current_section_info : option section_info;
  in_section : bool
}.

Definition initial : state := State ∅ [] None [] None false.

(** The dictionary [label_to_type_map], in declaration order. *)
Definition label_to_type_map : list (str * str) :=
  [ (lit "refrain", lit "chorus");
    (lit "chorus", lit "chorus");
    (lit "strophe", lit "verse");
    (lit "verse", lit "verse");
    (lit "pont", lit "bridge");
    (lit "bridge", lit "bridge");
    (lit "introduction", lit "intro");
    (lit "intro", lit "intro");
    (lit "fin", lit "outro");
    (lit "outro", lit "outro") ].

(** The loop [for key, value in label_to_type_map.items()] with its
    [break]: the value of the first key contained in [type_part]. *)
Fixpoint lookup_type (table : list (str * str)) (type_part : str) : option str :=
  match table with
  | [] => None
  | (key, value) :: table' =>
      if contains key type_part then Some value
      else lookup_type table' type_part
  end.

(** The directive pattern of [re.match] on a brace line: an opening
    brace, group 1 [[^:]+], then optionally a colon and group 2, the
    greedy run of [.] (any character but a newline), then a closing
    brace. *)
Definition DIRECTIVE_PATTERN : regex :=
  Cat (Chr 123%N)
    (Cat (Grp 1 (Plus (fun c => negb (c =? 58)%N)))
       (Cat (Opt (Cat (Chr 58%N) (Grp 2 (Star (fun c => negb (c =? NL)%N)))))
          (Chr 125%N))).

(** The [sections.append(ChordProSection(...))] of both branches. *)
Definition emit (st : state) : list ChordProSection.t :=
  match current_section_info st with
  | Some info =>
      sections st ++
        [ ChordProSection.Make (info_name info) (info_type info)
            (info_number info) (current_section_content st)
            (join [NL] (current_section_content st)) ]
  | None => sections st
  end.

Definition is_comment (stripped_line : str) : bool :=
  startswith stripped_line (lit "{c:").
Definition is_start (stripped_line : str) : bool :=
  startswith stripped_line (lit "{start_of_").
Definition is_end (stripped_line : str) : bool :=
  startswith stripped_line (lit "{end_of_").

Section WithRuntime.
Context `{PyRuntime}.

(** [([a-zA-Z\s]+)\s*(\d+|[a-zA-Z])$] *)
Definition LABEL_PATTERN : regex :=
  Cat (Grp 1 (Plus (fun c => ascii_letter c || isspace c)))
    (Cat (Star isspace)
       (Cat (Grp 2 (Alt (Plus isdecimal) (Cls ascii_letter))) Eos)).

(** The name, type and number chosen at a start marker. *)
Definition open_info (label : option str) (block_type : str) : section_info :=
  match label with
  | Some ((_ :: _) as current_section_label) =>
      let label_lower := str_lower current_section_label in
      let mt := re_match LABEL_PATTERN label_lower in
      let type_part :=
        match mt with
        | Some m => strip (group_text m 1)
        | None => label_lower
        end in
      let section_number :=
        match mt with
        | Some m => group m 2
        | None => None
        end in
      let section_type :=
        match lookup_type label_to_type_map type_part with
        | Some value => value
        | None => block_type
        end in
      Info current_section_label section_type section_number
  | _ => Info (str_title block_type) block_type None
  end.

(** One iteration of [for line in lines]. *)
Definition step (st : state) (line : str) : state :=
  let stripped_line := strip line in
  if is_comment stripped_line then
    State (metadata st) (sections st)
      (Some (strip (slice_to_last 3 stripped_line)))
      (if in_section st then current_section_content st ++ [line]
       else current_section_content st)
      (current_section_info st) (in_section st)
  else if is_start stripped_line then
    let block_type := strip (slice_to_last 10 stripped_line) in
    State (metadata st)
      (if in_section st then emit st else sections st)
      (match current_section_label st with
       | Some (_ :: _) => None
       | other => other
       end)
      []
      (Some (open_info (current_section_label st) block_type))
      true
  else if is_end stripped_line then
    if in_section st then
      State (metadata st) (emit st) (current_section_label st) [] None false
    else st
  else if startswith stripped_line (lit "{") then
    State
      (match re_match DIRECTIVE_PATTERN stripped_line with
       | Some directive_match =>
           let key := strip (group_text directive_match 1) in
           let value :=
             match group directive_match 2 with
             | Some ((_ :: _) as v) => strip v
             | _ => []
             end in
           <[key := value]> (metadata st)
       | None => metadata st
       end)
      (sections st) (current_section_label st)
      (if in_section st then current_section_content st ++ [line]
       else current_section_content st)
      (current_section_info st) (in_section st)
  else if in_section st then
    State (metadata st) (sections st) (current_section_label st)
      (current_section_content st ++ [line])
      (current_section_info st) (in_section st)
  else st.

(** The state after the loop over [lines]. *)
Definition run_lines (lines : list str) : state :=
  fold_left step lines initial.

(** [parse_chordpro_file], from the text read from the file. *)
Definition parse_chordpro_file (content : str)
    : gmap str str * list ChordProSection.t :=
  let st := run_lines (split_lines content) in
  (metadata st, sections st).
End WithRuntime.

End Parser.

(** ** ChordProProcessor.deduplicate_sections *)

Module Dedup.

(** The local variables of the loop over the sections. *)
Record state : Type := State {
  unique_sections : list ChordProSection.t;
  section_map : gmap str nat;
  index_map : list nat
}.

Definition initial : state := State [] ∅ [].

(** The test of the comprehension: [not line.strip().startswith('{c:')]. *)
Definition not_comment (line : str) : bool :=
  negb (startswith (strip line) (lit "{c:")).

Definition content_lines (section : ChordProSection.t) : list str :=
  List.filter not_comment (ChordProSection.content section).

(** The text that is hashed. *)
Definition content_text (section : ChordProSection.t) : str :=
  join [NL] (content_lines section).

Section WithRuntime.
Context `{PyRuntime}.

Definition content_hash (section : ChordProSection.t) : str :=
  md5_hexdigest (content_text section).

(** One iteration of [for section in sections]. *)
Definition step (st : state) (section : ChordProSection.t) : state :=
  let h := content_hash section in
  match section_map st !! h with
  | Some unique_index =>
      State (unique_sections st) (section_map st)
        (index_map st ++ [unique_index])
  | None =>
      let unique_index := length (unique_sections st) in
      State (unique_sections st ++ [section])
        (<[h := unique_index]> (section_map st))
        (index_map st ++ [unique_index])
  end.

Definition run_sections (sections : list ChordProSection.t) : state :=
  fold_left step sections initial.

Definition deduplicate_sections (sections : list ChordProSection.t)
    : list ChordProSection.t * list nat :=
  let st := run_sections sections in
  (unique_sections st, index_map st).
End WithRuntime.

End Dedup.

(** ** ChordProProcessor.enhance_chordpro *)

Module Enhance.
Import Re FrenchPunctuationHandler.

Section WithRuntime.
Context `{PyRuntime}.

(** [(\d{4})] *)
Definition YEAR_PATTERN : regex :=
  Grp 1 (Cat (Cls isdecimal) (Cat (Cls isdecimal)
           (Cat (Cls isdecimal) (Cls isdecimal)))).

(** A header line [{name: value}]. *)
Definition directive (name value : str) : str :=
  lit "{" ++ name ++ lit ": " ++ value ++ lit "}".

(** The lines appended under [if csv_metadata:]. *)
Definition csv_header (csv_metadata : SongMetadata.t) : list str :=
  [ directive (lit "number") (SongMetadata.number csv_metadata);
    directive (lit "title")
      (fix_french_punctuation (SongMetadata.title csv_metadata)) ]
  ++ (match SongMetadata.author csv_metadata with
      | [] => []
      | _ => [ directive (lit "lyricist")
                 (fix_french_punctuation (SongMetadata.author csv_metadata)) ]
      end)
  ++ (match SongMetadata.composer csv_metadata with
      | [] => []
      | _ => [ directive (lit "composer")
                 (fix_french_punctuation (SongMetadata.composer csv_metadata)) ]
      end)
  ++ (match SongMetadata.copyright csv_metadata with
      | [] => []
      | _ =>
          directive (lit "copyright")
            (fix_french_punctuation (SongMetadata.copyright csv_metadata))
          :: match re_search YEAR_PATTERN (SongMetadata.copyright csv_metadata) with
             | Some year_match =>
                 [ directive (lit "year") (group_text year_match 1) ]
             | None => []
             end
      end).

(** The header block: everything appended before the blank line. *)
Definition header_lines (table : gmap str SongMetadata.t)
    (file_metadata : gmap str str) (filename : str) : list str :=
  let lookup_key := str_lower filename in
  (match table !! lookup_key with
   | Some csv_metadata => csv_header csv_metadata
   | None => []
   end)
  ++ (match file_metadata !! lit "key" with
      | Some k => [ directive (lit "key") k ]
      | None => []
      end).

(** The lines of one section in the loop [for section in sections]. *)
Definition section_lines (section : ChordProSection.t) : list str :=
  (lit "{start_of_" ++ ChordProSection.type section ++ lit "}")
  :: map (fun line =>
            if negb (startswith (strip line) (lit "{"))
            then fix_french_punctuation line else line)
       (ChordProSection.content section)
  ++ [ lit "{end_of_" ++ ChordProSection.type section ++ lit "}"; [] ].

Definition output_lines (table : gmap str SongMetadata.t)
    (content filename : str) : list str :=
  let '(file_metadata, sections) := Parser.parse_chordpro_file content in
  header_lines table file_metadata filename
  ++ [[]]
  ++ concat (map section_lines sections).

(** [enhance_chordpro]: the text written to the enhanced file, for a
    source text [content] whose file name has stem [filename]. *)
Definition enhance_chordpro (table : gmap str SongMetadata.t)
    (content filename : str) : str :=
  join [NL] (output_lines table content filename).
End WithRuntime.

End Enhance.

(** ** ChordProProcessor.parse_chord_line *)

Module Chords.
Import Re.

Record chord_t : Type := Chord {
  id : str;
  pos : Z;
  key : str;
  chord : str;
  original_pos : nat
}.

(** [\[([^\]]+)\]] *)
Definition chord_pattern : regex :=
  Cat (Chr 91%N) (Cat (Grp 1 (Plus (fun c => negb (c =? 93)%N))) (Chr 93%N)).

(** [len(f"[{prev_chord['chord']}]")] *)
Definition markup_len (c : chord_t) : nat :=
  length (lit "[" ++ chord c ++ lit "]").

(** The inner loop [for prev_chord in chords]. *)
Definition adjust (chords : list chord_t) (pos : nat) : Z :=
  fold_left
    (fun adjusted_pos prev_chord =>
       if original_pos prev_chord <? pos
       then (adjusted_pos - Z.of_nat (markup_len prev_chord))%Z
       else adjusted_pos)
    chords (Z.of_nat pos).

Section WithRuntime.
Context `{PyRuntime}.

(** One iteration of [for match in self.chord_pattern.finditer(line)]. *)
Definition step (chords : list chord_t) (m : rmatch) : list chord_t :=
  let chord := group_text m 1 in
  let pos := m_start m in
  let adjusted_pos := adjust chords pos in
  chords ++
    [ Chord (take 5 (md5_hexdigest (chord ++ str_of_nat pos)))
        (Z.max 0 adjusted_pos) chord chord pos ].

Definition parse_chord_line (line : str) : list chord_t * str :=
  let chords := fold_left step (finditer chord_pattern line) [] in
  let clean_text := sub chord_pattern (fun _ => []) line in
  (chords, clean_text).
End WithRuntime.

End Chords.

(** ** ChordProProcessor.create_freeshow_slide and generate_freeshow_file *)

Module FreeShow.
Import Re FrenchPunctuationHandler.

(** One element of ["text"]. *)
Record text_item : Type := TextItem { value : str; text_style : str }.

(** One element of ["lines"]. *)
Record line_data : Type := LineData {
  line_align : str;
  text : list text_item;
  chords : list Chords.chord_t
}.

(** The single element of ["items"]. *)
Record item : Type := Item {
  lines : list line_data;
  style : str;
  align : str;
  auto : bool;
  chords_enabled : bool
}.

(** [slide_data]; ["settings"] is the empty dictionary and
    ["globalGroup"] is an optional key. *)
Record slide_data : Type := Slide {
  group : str;
  color : str;
  notes : str;
  items : list item;
  globalGroup : option str
}.

(** [d.get(k, '')] on a literal dictionary. *)
Fixpoint assoc (d : list (str * str)) (k : str) : option str :=
  match d with
  | [] => None
  | (k', v) :: d' => if decide (k' = k) then Some v else assoc d' k
  end.

Definition section_colors : list (str * str) :=
  [ (lit "verse", lit "");
    (lit "chorus", lit "#f525d2");
    (lit "bridge", lit "#f52598");
    (lit "pre_chorus", lit "#25d2f5");
    (lit "tag", lit "#f5d225");
    (lit "intro", lit "");
    (lit "outro", lit "") ].

Definition global_groups : list (str * str) :=
  [ (lit "chorus", lit "chorus");
    (lit "bridge", lit "bridge");
    (lit "pre_chorus", lit "pre_chorus") ].

(** A layout entry [{"id": slide_id}]. *)
Record slide_ref : Type := Ref { ref_id : str }.

Record layout : Type := Layout {
  layout_name : str;
  layout_notes : str;
  layout_slides : list slide_ref
}.

Record meta : Type := Meta {
  meta_number : str;
  meta_title : str;
  meta_author : str;
  meta_composer : str;
  meta_copyright : str;
  meta_year : str;
  meta_key : str
}.

(** [freeshow_data]: the identifier and the show object; ["media"] is
    the empty dictionary and ["template"] is [None]. *)
Record show : Type := Show {
  show_id : str;
  show_name : str;
  origin : str;
  private : bool;
  category : str;
  activeLayout : str;
  quickAccess_number : str;
  show_meta : meta;
  slides : gmap str slide_data;
  layouts : gmap str layout
}.

Section WithRuntime.
Context `{PyRuntime}.

(** [^\d+\.\s*] *)
Definition ENUM_PATTERN : regex :=
  Cat Bos (Cat (Plus isdecimal) (Cat (Chr 46%N) (Star isspace))).

(** The [line_data] built for one content line. *)
Definition render_line (line : str) : line_data :=
  let '(chords, clean_text) := Chords.parse_chord_line line in
  let clean_text := sub ENUM_PATTERN (fun _ => []) clean_text in
  let clean_text := fix_french_punctuation clean_text in
  LineData (lit "") [ TextItem clean_text (lit "font-size: 100px;") ] chords.

(** One iteration of [for line in section.content]. *)
Definition line_step (lines_data : list line_data) (line : str)
    : list line_data :=
  if startswith line (lit "{c:") then lines_data
  else
    match strip line with
    | [] => lines_data
    | _ => lines_data ++ [ render_line line ]
    end.

Definition slide_lines (content : list str) : list line_data :=
  fold_left line_step content [].

Definition create_freeshow_slide (section : ChordProSection.t)
    (slide_id : str) (colors : list (str * str)) : slide_data :=
  Slide (ChordProSection.name section)
    (default (lit "") (assoc section_colors (ChordProSection.type section)))
    (lit "")
    [ Item (slide_lines (ChordProSection.content section))
        (lit "top:120px;left:50px;height:840px;width:1820px;")
        (lit "") false false ]
    (assoc global_groups (ChordProSection.type section)).

(** The identifier of the slide of the unique section of index [i]. *)
Definition slide_id_of (i : nat) (section : ChordProSection.t) : str :=
  take 11
    (md5_hexdigest
       (ChordProSection.type section ++ str_of_nat i
        ++ ChordProSection.raw_content section)).

(** The loop [for i, section in enumerate(unique_sections)], from
    index [i] on. *)
Fixpoint build_slides (i : nat) (unique_sections : list ChordProSection.t)
    (acc : gmap str slide_data * list str) : gmap str slide_data * list str :=
  match unique_sections with
  | [] => acc
  | section :: rest =>
      let slide_id := slide_id_of i section in
      build_slides (S i) rest
        (<[slide_id := create_freeshow_slide section slide_id
                         [ (lit "verse", lit "");
                           (lit "chorus", lit "#f525d2");
                           (lit "bridge", lit "#f52598") ]]> (fst acc),
         snd acc ++ [slide_id])
  end.

(** The loop [for unique_index in index_map]; [unique_slide_ids[i]]
    raises for an index out of range. *)
Definition build_layout (unique_slide_ids : list str) (index_map : list nat)
    : option (list slide_ref) :=
  mapM (fun unique_index => Ref <$> unique_slide_ids !! unique_index)
    index_map.

Definition get (d : gmap str str) (k : str) (dflt : str) : str :=
  default dflt (d !! k).

(** [generate_freeshow_file]: the show written to the [.show] file,
    for a text [content] whose file name has stem [filename];
    [None] stands for an exception. *)
Definition generate_freeshow_file (content filename : str) : option show :=
  let '(file_metadata, sections) := Parser.parse_chordpro_file content in
  let song_number := get file_metadata (lit "number") (lit "") in
  let title := get file_metadata (lit "title") filename in
  let title := fix_french_punctuation title in
  let show_id := take 11 (md5_hexdigest filename) in
  let '(unique_sections, index_map) := Dedup.deduplicate_sections sections in
  let '(slides, unique_slide_ids) := build_slides 0 unique_sections (∅, []) in
  let layout_id := take 11 (md5_hexdigest (lit "layout" ++ filename)) in
  layout_slides ← build_layout unique_slide_ids index_map;
  let author := fix_french_punctuation (get file_metadata (lit "lyricist") (lit "")) in
  let composer := fix_french_punctuation (get file_metadata (lit "composer") (lit "")) in
  let copyright_text := fix_french_punctuation (get file_metadata (lit "copyright") (lit "")) in
  let category :=
    if startswith filename (lit "jem") then
      if contains (lit "jemk") (str_lower filename) then lit "JEM Kids"
      else lit "JEM"
    else lit "song" in
  Some (Show show_id title (lit "jemaf") false category layout_id song_number
          (Meta song_number title author composer copyright_text
             (get file_metadata (lit "year") (lit ""))
             (get file_metadata (lit "key") (lit "")))
          slides
          {[ layout_id := Layout (lit "Default") (lit "1 voix") layout_slides ]}).
End WithRuntime.

End FreeShow.

(** ** OnlineResourceManager.normalize_filename *)

Module OnlineResourceManager.
Import Re.

(** The pattern that matches the characters of [s], one after the other. *)
Fixpoint literal (s : str) : regex :=
  match s with
  | [] => Eps
  | c :: s' => Cat (Chr c) (literal s')
  end.

(** [_0\.chordpro$] *)
Definition SUFFIX_PATTERN : regex := Cat (literal (lit "_0.chordpro")) Eos.

(** [s.zfill(width)]: zeros on the left up to [width] characters, put
    after a leading sign. *)
Definition zfill (width : nat) (s : str) : str :=
  let fill := replicate (width - length s) 48%N in
  match s with
  | c :: s' =>
      if ((c =? 43) || (c =? 45))%N then c :: fill ++ s' else fill ++ s
  | [] => fill
  end.

Section WithRuntime.
Context `{PyRuntime}.

(** [jem(\d+)] *)
Definition JEM_PATTERN : regex :=
  Cat (literal (lit "jem")) (Grp 1 (Plus isdecimal)).

Definition normalize_filename (filename : str) : str :=
  let filename := sub SUFFIX_PATTERN (fun _ => lit ".chordpro") filename in
  match re_match JEM_PATTERN filename with
  | Some m =>
      let number := group_text m 1 in
      lit "jem" ++ zfill 3 number ++ lit ".chordpro"
  | None => filename
  end.
End WithRuntime.

End OnlineResourceManager.

(** ** A runtime for ASCII texts

    On texts made of ASCII characters [ascii_lower], [ascii_title] and
    [ascii_digit] are Python's [lower], [title] and [\d]. The digest is
    the text itself: a digest without collisions. *)

Module Ascii_runtime.

Definition is_upper (c : char) : bool := ((65 <=? c) && (c <=? 90))%N.
Definition is_lower (c : char) : bool := ((97 <=? c) && (c <=? 122))%N.
Definition to_lower (c : char) : char := if is_upper c then (c + 32)%N else c.
Definition to_upper (c : char) : char := if is_lower c then (c - 32)%N else c.

Definition ascii_lower (s : str) : str := map to_lower s.

(** [previous_is_cased] is the flag of CPython's title-casing loop. *)
Fixpoint title_from (previous_is_cased : bool) (s : str) : str :=
  match s with
  | [] => []
  | c :: s' =>
      (if previous_is_cased then to_lower c else to_upper c)
      :: title_from (is_upper c || is_lower c) s'
  end.

Definition ascii_title (s : str) : str := title_from false s.

Definition ascii_digit (c : char) : bool := ((48 <=? c) && (c <=? 57))%N.

Definition runtime : PyRuntime :=
  {| str_lower := ascii_lower;
     str_title := ascii_title;
     isdecimal := ascii_digit;
     md5_hexdigest := fun s => s |}.

End Ascii_runtime.


(** * Specifications

    The vocabulary of the properties proved below. *)

(** [r] is empty or starts with a character outside the class [p]. *)
Definition stops (p : char -> bool) (r : str) : Prop :=
  match r with
  | c :: _ => p c = false
  | [] => True
  end.

(** All characters of [w] are in the class [p]. *)
Definition all_of (p : char -> bool) (w : str) : Prop :=
  Forall (fun c => p c = true) w.

(** ** Typography *)

Module Typography_spec.
Import Re FrenchPunctuationHandler.

(** The normalizer in one pass. Each maximal run of whitespace, the
    empty run included, that follows [«] or precedes one of [; : ! ? »]
    becomes one non-breaking space; every other character is copied.
    [run] is the whitespace read since the last visible character and
    [after_laquo] tells whether that character was [«]. *)
Fixpoint normalize_from (after_laquo : bool) (run : str) (s : str) : str :=
  match s with
  | [] => if after_laquo then [NBSP] else run
  | c :: s' =>
      if isspace c then normalize_from after_laquo (run ++ [c]) s'
      else
        (if after_laquo || double_punct c then [NBSP] else run)
        ++ c :: normalize_from (c =? LAQUO)%N [] s'
  end.

Definition normalize_spec (s : str) : str := normalize_from false [] s.

(** One of the six characters the rules are about. *)
Definition special (c : char) : bool := double_punct c || (c =? LAQUO)%N.

Definition visible (c : char) : bool := negb (isspace c).

(** No whitespace stands right before one of [; : ! ? »] or right after
    [«]. *)
Fixpoint no_space_adjoins (s : str) : bool :=
  match s with
  | a :: (b :: _) as s' =>
      negb (isspace a && double_punct b)
      && negb ((a =? LAQUO)%N && isspace b)
      && no_space_adjoins s'
  | _ => true
  end.

(** The two substitutions of [fix_french_punctuation], from an offset. *)
Definition punct_pass (s : str) (pos : nat) : str :=
  sub_from DOUBLE_PUNCT_PATTERN punct_template s pos 0.
Definition laquo_pass (s : str) (pos : nat) : str :=
  sub_from OPENING_GUILLEMETS_PATTERN guillemet_template s pos 0.

End Typography_spec.

(** ** Chord lines *)

Module Chord_spec.

(** The markup [f"[{chord}]"] of a chord. *)
Definition markup (ch : str) : str := lit "[" ++ ch ++ lit "]".
Arguments markup : simpl never.

(** A line seen as plain text interleaved with bracketed chords:
    [(t, ch)] stands for the text [t] followed by the markup of [ch]. *)
Fixpoint weave (pieces : list (str * str)) (tail : str) : str :=
  match pieces with
  | [] => tail
  | (t, ch) :: ps => t ++ markup ch ++ weave ps tail
  end.

(** The same line without the markup. *)
Fixpoint plain (pieces : list (str * str)) (tail : str) : str :=
  match pieces with
  | [] => tail
  | (t, ch) :: ps => t ++ plain ps tail
  end.

(** The matches of the chords of [weave pieces tail], when the text
    starts at offset [pos]. *)
Fixpoint matches_of (pos : nat) (pieces : list (str * str)) : list Re.rmatch :=
  match pieces with
  | [] => []
  | (t, ch) :: ps =>
      Re.Match (pos + length t) (pos + length (t ++ markup ch)) {[ 1 := ch ]}
      :: matches_of (pos + length (t ++ markup ch)) ps
  end.

(** Sum of [len(f"[{chord}]")] over a list of chords. *)
Definition total_markup (chords : list Chords.chord_t) : Z :=
  fold_right (fun c acc => (Z.of_nat (Chords.markup_len c) + acc)%Z) 0%Z chords.

(** What is expected of the chord of index [k] of a line: its offset is
    the bracket offset minus the markup found earlier, with zero as a
    floor; the bracket offset is where its markup stands in the line;
    the chords found earlier stand to its left. *)
Definition anchored (line : str) (chords : list Chords.chord_t) : Prop :=
  forall k c, chords !! k = Some c ->
    Chords.pos c
    = Z.max 0 (Z.of_nat (Chords.original_pos c) - total_markup (take k chords))
    /\ take (Chords.markup_len c) (drop (Chords.original_pos c) line)
       = markup (Chords.chord c)
    /\ Forall (fun c' => Chords.original_pos c' < Chords.original_pos c)
         (take k chords).

End Chord_spec.

Module Chord_scan_spec.
Import Chord_spec.

(** The text starts with a chord annotation: an opening bracket, a
    symbol that is not empty and holds no closing bracket, and a
    closing bracket. *)
Definition annotated (s : str) : Prop :=
  exists ch rest, s = markup ch ++ rest /\ ch <> [] /\ (93%N ∉ ch).

(** A chord annotation of a line: the offset of its bracket in the
    line, the offset of the same place in the line without markup, and
    its symbol. *)
Record annotation : Type := Annotation {
  raw_offset : nat;
  clean_offset : nat;
  symbol : str
}.

(** Sum of [len("[" + chord + "]")] over annotations. *)
Definition markup_total (anns : list annotation) : Z :=
  fold_right (fun a acc => (Z.of_nat (length (markup (symbol a))) + acc)%Z)
    0%Z anns.

(** A text read from left to right, from the offset [pos] of the line
    and the offset [cpos] of the line without markup: where an
    annotation starts it is recorded and its markup is left out, and
    any other character is copied. [scan pos cpos s anns clean] gives
    the annotations of [s] and [s] without their markup. *)
Inductive scan : nat -> nat -> str -> list annotation -> str -> Prop :=
| scan_end (pos cpos : nat) : scan pos cpos [] [] []
| scan_text (pos cpos : nat) (c : char) (s : str)
    (anns : list annotation) (clean : str) :
    ~ annotated (c :: s) ->
    scan (S pos) (S cpos) s anns clean ->
    scan pos cpos (c :: s) anns (c :: clean)
| scan_chord (pos cpos : nat) (s ch rest : str)
    (anns : list annotation) (clean : str) :
    s = markup ch ++ rest -> ch <> [] -> (93%N ∉ ch) ->
    scan (pos + length (markup ch)) cpos rest anns clean ->
    scan pos cpos s (Annotation pos cpos ch :: anns) clean.

(** The match of an annotation. *)
Definition match_of (a : annotation) : Re.rmatch :=
  Re.Match (raw_offset a) (raw_offset a + length (markup (symbol a)))
    {[ 1 := symbol a ]}.

End Chord_scan_spec.

(** ** Parsed sections *)

Module Parser_spec.
Import Parser.

Definition start_marker (line : str) : bool := is_start (strip line).
Definition end_marker (line : str) : bool := is_end (strip line).
Definition boundary (line : str) : bool := start_marker line || end_marker line.

(** The block-type token of a start marker: [stripped_line[10:-1].strip()]. *)
Definition block_type_of (line : str) : str :=
  strip (slice_to_last 10 (strip line)).

(** The types a section opened at [start] can get: the block-type token
    or a value of [label_to_type_map]. *)
Definition type_from (start : str) (ty : str) : Prop :=
  ty = block_type_of start \/ In ty (map snd label_to_type_map).

(** [sec] is the block of [lines] that opens at a start marker and runs
    to the next boundary marker. *)
Definition block_of (lines : list str) (sec : ChordProSection.t) : Prop :=
  exists pre start body stop post,
    lines = pre ++ start :: body ++ stop :: post /\
    start_marker start = true /\
    Forall (fun l => boundary l = false) body /\
    boundary stop = true /\
    ChordProSection.content sec = body /\
    ChordProSection.raw_content sec = join [NL] body /\
    type_from start (ChordProSection.type sec).

(** What the loop has seen of an open section. *)
Definition open_block (lines : list str) (st : state) : Prop :=
  in_section st = true ->
  exists pre start info,
    lines = pre ++ start :: current_section_content st /\
    start_marker start = true /\
    Forall (fun l => boundary l = false) (current_section_content st) /\
    current_section_info st = Some info /\
    type_from start (info_type info).

(** A section with a start marker without block type. *)
Definition untyped_document : str :=
  lit "{start_of_}" ++ [NL] ++ lit "Alleluia" ++ [NL] ++ lit "{end_of_}".

(** A chorus left open by a verse, and a last verse left open. *)
Definition open_document : str :=
  lit "{start_of_chorus}" ++ [NL] ++ lit "Alleluia" ++ [NL]
  ++ lit "{start_of_verse}" ++ [NL] ++ lit "Dieu est amour".

End Parser_spec.

(** ** Deduplication *)

Module Dedup_spec.
Import Dedup.

Section WithRuntime.
Context `{PyRuntime}.

(** The state of the loop after the sections [secs]. *)
Record consistent (secs : list ChordProSection.t) (st : state) : Prop := {
  index_length : length (index_map st) = length secs;
  map_sound : forall h i, section_map st !! h = Some i ->
    exists u, unique_sections st !! i = Some u /\ content_hash u = h;
  map_complete : forall i u, unique_sections st !! i = Some u ->
    section_map st !! content_hash u = Some i;
  index_sound : forall k s, secs !! k = Some s ->
    exists i, index_map st !! k = Some i /\
              section_map st !! content_hash s = Some i;
  unique_from : forall u, In u (unique_sections st) -> In u secs
}.

(** Two sections get the same index exactly when their lines without
    the comment lines are the same, line for line. *)
Definition index_iff_lines (sections : list ChordProSection.t) : Prop :=
  forall i j si sj vi vj,
    sections !! i = Some si -> sections !! j = Some sj ->
    snd (deduplicate_sections sections) !! i = Some vi ->
    snd (deduplicate_sections sections) !! j = Some vj ->
    (vi = vj <-> content_lines si = content_lines sj).

End WithRuntime.

(** An empty verse and a verse of one empty line. *)
Definition blank_document : str :=
  lit "{start_of_verse}" ++ [NL] ++ lit "{end_of_verse}" ++ [NL]
  ++ lit "{start_of_verse}" ++ [NL] ++ [NL] ++ lit "{end_of_verse}".

(** Two identical chorus blocks with a verse between them. *)
Definition chorus_verse_chorus : str :=
  lit "{start_of_chorus}" ++ [NL] ++ lit "[C]Alle[G]luia" ++ [NL]
  ++ lit "{end_of_chorus}" ++ [NL]
  ++ lit "{start_of_verse}" ++ [NL] ++ lit "Dieu [C]est [G]amour" ++ [NL]
  ++ lit "{end_of_verse}" ++ [NL]
  ++ lit "{start_of_chorus}" ++ [NL] ++ lit "[C]Alle[G]luia" ++ [NL]
  ++ lit "{end_of_chorus}".

End Dedup_spec.

(** ** Header enrichment *)

Module Enhance_spec.

(** The names of the header lines written from a metadata record. *)
Definition enrichment_names : list str :=
  [ lit "number"; lit "title"; lit "lyricist"; lit "composer";
    lit "copyright"; lit "year" ].

(** A song with a key and one verse. *)
Definition keyed_document : str :=
  lit "{key: G}" ++ [NL]
  ++ lit "{start_of_verse}" ++ [NL] ++ lit "Dieu est amour" ++ [NL]
  ++ lit "{end_of_verse}".

End Enhance_spec.

(** ** Lines and markers *)

(** A text without newline. *)
Definition nl_free (s : str) : Prop := Forall (fun c => c <> NL) s.

(** The start markers of a list of lines. *)
Definition start_markers (lines : list str) : list str :=
  List.filter Parser_spec.start_marker lines.

(** ** Slides *)

Module FreeShow_spec.

(** The content lines the slide builder renders: those that neither
    start with [{c:] nor are blank. *)
Definition shown (line : str) : bool :=
  negb (startswith line (lit "{c:"))
  && match strip line with [] => false | _ => true end.

End FreeShow_spec.

(** ** The enhanced text, parsed again *)

Module Pipeline_spec.
Import FrenchPunctuationHandler.

(** What the enhancer writes for a content line. *)
Definition written (line : str) : str :=
  if negb (startswith (strip line) (lit "{"))
  then fix_french_punctuation line else line.

(** A section as it is read back from the enhanced text: its name is
    made from its type and it has no number. *)
Definition read_back `{PyRuntime} (sec : ChordProSection.t) : ChordProSection.t :=
  let content := map written (ChordProSection.content sec) in
  ChordProSection.Make (str_title (ChordProSection.type sec))
    (ChordProSection.type sec) None content (join [NL] content).

(** The fields of a metadata row that the enhancer writes hold no
    newline. *)
Definition plain_row (m : SongMetadata.t) : Prop :=
  nl_free (SongMetadata.number m) /\ nl_free (SongMetadata.title m)
  /\ nl_free (SongMetadata.author m) /\ nl_free (SongMetadata.composer m)
  /\ nl_free (SongMetadata.copyright m).

(** A line that is neither a section marker nor a comment line. *)
Definition plain_line (line : str) : Prop :=
  Parser_spec.boundary line = false /\ Parser.is_comment (strip line) = false.

(** No content line of the section is a comment line. *)
Definition comment_free (sec : ChordProSection.t) : Prop :=
  Forall (fun line => Parser.is_comment (strip line) = false)
    (ChordProSection.content sec).

End Pipeline_spec.


(** * Properties *)

Ltac list_norm :=
  repeat (rewrite <- app_assoc || rewrite <- app_comm_cons); simpl app.

(** ** The matcher and the scan *)

Module Re_facts.
Import Re.

Lemma take_drop_while p s : take_while p s ++ drop_while p s = s.
Proof.
  induction s as [|c s IH]; simpl; [done|].
  destruct (p c); simpl; [by rewrite IH | done].
Qed.

Lemma take_while_all p s : all_of p (take_while p s).
Proof.
  induction s as [|c s IH]; simpl; [constructor|].
  destruct (p c) eqn:E; by constructor.
Qed.

Lemma drop_while_stops p s : stops p (drop_while p s).
Proof.
  induction s as [|c s IH]; simpl; [done|].
  by destruct (p c) eqn:E.
Qed.

Lemma drop_while_app p w r :
  all_of p w -> stops p r -> drop_while p (w ++ r) = r.
Proof.
  induction 1 as [|c w Hc _ IH]; simpl; intros Hr.
  - destruct r; simpl in *; [done | by rewrite Hr].
  - rewrite Hc. auto.
Qed.

Lemma take_while_app p w r :
  all_of p w -> stops p r -> take_while p (w ++ r) = w.
Proof.
  induction 1 as [|c w Hc _ IH]; simpl; intros Hr.
  - destruct r; simpl in *; [done | by rewrite Hr].
  - rewrite Hc. f_equal. auto.
Qed.

(** Every text is a run of [p] followed by a text that [p] stops at. *)
Lemma run_split p s : exists w r, s = w ++ r /\ all_of p w /\ stops p r.
Proof.
  exists (take_while p s), (drop_while p s).
  split; [by rewrite take_drop_while|].
  split; [apply take_while_all | apply drop_while_stops].
Qed.

Section Star.
Context {A : Type}.
Implicit Types k : str -> nat -> option A.

Lemma star_loop_longest p k w r pos x :
  all_of p w -> stops p r ->
  k r (pos + length w) = Some x ->
  star_loop p k (w ++ r) pos = Some x.
Proof.
  intros Hw. revert pos.
  induction Hw as [|c w Hc _ IH]; simpl; intros pos Hr Hk.
  - rewrite Nat.add_0_r in Hk. destruct r as [|c r]; simpl in *; [done|].
    by rewrite Hr.
  - rewrite Hc. rewrite (IH (S pos)); [done|done|].
    by replace (S pos + length w) with (pos + S (length w)) by lia.
Qed.

Lemma star_loop_only_longest p k w r pos :
  all_of p w -> stops p r ->
  (forall c s q, p c = true -> k (c :: s) q = None) ->
  star_loop p k (w ++ r) pos = k r (pos + length w).
Proof.
  intros Hw. revert pos.
  induction Hw as [|c w Hc _ IH]; simpl; intros pos Hr Hk.
  - rewrite Nat.add_0_r. destruct r as [|c r]; simpl in *; [done|].
    by rewrite Hr.
  - rewrite Hc. rewrite (IH (S pos)) by done.
    replace (S pos + length w) with (pos + S (length w)) by lia.
    destruct (k r _) eqn:E; [done|].
    by apply Hk.
Qed.

(** A success of [p*] followed by [k] is a success of [k] after
    some run of [p]. *)
Lemma star_loop_some p k s pos x :
  star_loop p k s pos = Some x ->
  exists n, n <= length (take_while p s) /\ k (drop n s) (pos + n) = Some x.
Proof.
  revert pos. induction s as [|c s IH]; simpl; intros pos Hx.
  - exists 0. rewrite Nat.add_0_r. split; [simpl; lia | done].
  - destruct (p c) eqn:Hc.
    + destruct (star_loop p k s (S pos)) as [y|] eqn:E.
      * injection Hx as <-. destruct (IH _ E) as (n & Hn & Hk).
        exists (S n). simpl. split; [lia|].
        by replace (pos + S n) with (S pos + n) by lia.
      * exists 0. rewrite Nat.add_0_r. split; [simpl; lia | done].
    + exists 0. rewrite Nat.add_0_r. split; [simpl; lia | done].
Qed.
End Star.

(** The scan of [finditer] and [sub] in big steps. *)
Section Scan.
Variable r : regex.
Variable repl : rmatch -> str.

Lemma finditer_from_skip l s pos :
  finditer_from r (l ++ s) pos (length l) = finditer_from r s (pos + length l) 0.
Proof.
  revert pos. induction l as [|c l IH]; simpl; intros pos.
  - rewrite Nat.add_0_r. by destruct s.
  - rewrite IH. f_equal. lia.
Qed.

Lemma sub_from_skip l s pos :
  sub_from r repl (l ++ s) pos (length l) = sub_from r repl s (pos + length l) 0.
Proof.
  revert pos. induction l as [|c l IH]; simpl; intros pos.
  - rewrite Nat.add_0_r. by destruct s.
  - rewrite IH. f_equal. lia.
Qed.

Lemma finditer_from_hit w s pos m :
  w <> [] -> match_at r (w ++ s) pos = Some m ->
  m_end m = pos + length w ->
  finditer_from r (w ++ s) pos 0 = m :: finditer_from r s (pos + length w) 0.
Proof.
  intros Hw Hm He. destruct w as [|c w]; [done|].
  simpl in *. rewrite Hm. f_equal.
  replace (m_end m - pos - 1) with (length w) by lia.
  rewrite finditer_from_skip. f_equal. lia.
Qed.

Lemma sub_from_hit w s pos m :
  w <> [] -> match_at r (w ++ s) pos = Some m ->
  m_end m = pos + length w ->
  sub_from r repl (w ++ s) pos 0 = repl m ++ sub_from r repl s (pos + length w) 0.
Proof.
  intros Hw Hm He. destruct w as [|c w]; [done|].
  simpl in *. rewrite Hm. f_equal.
  replace (m_end m - pos - 1) with (length w) by lia.
  rewrite sub_from_skip. f_equal. lia.
Qed.

Lemma finditer_from_miss c s pos :
  match_at r (c :: s) pos = None ->
  finditer_from r (c :: s) pos 0 = finditer_from r s (S pos) 0.
Proof. intros Hm. simpl. by rewrite Hm. Qed.

Lemma sub_from_miss c s pos :
  match_at r (c :: s) pos = None ->
  sub_from r repl (c :: s) pos 0 = c :: sub_from r repl s (S pos) 0.
Proof. intros Hm. simpl. by rewrite Hm. Qed.
End Scan.

(** A match covers a piece of the text at hand, of at least [min_len]
    characters, and the rest of the pattern goes on right after it. *)
Lemma run_consumes {A : Type} (r : regex) :
  forall (s : str) (pos : nat) (g : gmap nat str)
         (k : str -> nat -> gmap nat str -> option A) (x : A),
    run r s pos g k = Some x ->
    exists n g', min_len r <= n /\ n <= length s /\
                 k (drop n s) (pos + n) g' = Some x.
Proof.
  induction r as [|p|p|r1 IH1 r2 IH2|r1 IH1 r2 IH2|i r1 IH1| |];
    intros s pos g k x Hx; simpl in *.
  - exists 0, g. rewrite Nat.add_0_r. split; [lia|]. split; [lia|done].
  - destruct s as [|c s]; [done|]. destruct (p c); [|done].
    exists 1, g. simpl. rewrite drop_0, Nat.add_1_r.
    split; [lia|]. split; [lia|done].
  - apply star_loop_some in Hx as (n & Hn & Hk). exists n, g.
    split; [lia|]. split; [|done]. etrans; [exact Hn|].
    rewrite <- (take_drop_while p s) at 2. rewrite length_app. lia.
  - apply IH1 in Hx as (n1 & g1 & Hmin1 & Hle1 & Hx).
    apply IH2 in Hx as (n2 & g2 & Hmin2 & Hle2 & Hx).
    rewrite length_drop in Hle2. exists (n1 + n2), g2.
    rewrite drop_drop in Hx. rewrite Nat.add_assoc.
    split; [lia|]. split; [lia|done].
  - destruct (run r1 s pos g k) as [y|] eqn:E.
    + injection Hx as ->. apply IH1 in E as (n & g' & Hmin & Hle & Hk).
      exists n, g'. split; [lia|]. by split.
    + apply IH2 in Hx as (n & g' & Hmin & Hle & Hk).
      exists n, g'. split; [lia|]. by split.
  - apply IH1 in Hx as (n & g' & Hmin & Hle & Hk). eauto.
  - destruct pos; [|done]. exists 0, g. split; [lia|]. split; [lia|done].
  - exists 0, g. rewrite Nat.add_0_r, drop_0. split; [lia|]. split; [lia|].
    destruct s as [|c [|d s]]; [done| |done]. by destruct (c =? NL)%N.
Qed.

Lemma match_at_span (r : regex) (s : str) (pos : nat) (m : rmatch) :
  match_at r s pos = Some m ->
  m_start m = pos /\ pos + min_len r <= m_end m /\ m_end m <= pos + length s.
Proof.
  intros Hm. apply run_consumes in Hm as (n & g' & Hmin & Hle & Hk).
  injection Hk as <-. simpl. lia.
Qed.

(** The patterns given to [sub] and [finditer] never match the empty
    text, so the scan never meets an empty match. *)
Lemma scanned_patterns_consume `{PyRuntime} :
  Forall (fun r => 1 <= min_len r)
    [ FrenchPunctuationHandler.DOUBLE_PUNCT_PATTERN;
      FrenchPunctuationHandler.OPENING_GUILLEMETS_PATTERN;
      Chords.chord_pattern;
      FreeShow.ENUM_PATTERN ].
Proof. repeat constructor; simpl; lia. Qed.

End Re_facts.

(** ** The typography normalizer *)

Module Typography_facts.
Import Re Re_facts FrenchPunctuationHandler Typography_spec.

Lemma punct_not_space c : double_punct c = true -> isspace c = false.
Proof.
  unfold double_punct. rewrite !orb_true_iff, !N.eqb_eq.
  intros [[[[->| ->]| ->]| ->]| ->]; reflexivity.
Qed.

Lemma space_not_punct c : isspace c = true -> double_punct c = false.
Proof.
  intros Hc. destruct (double_punct c) eqn:E; [|done].
  apply punct_not_space in E. congruence.
Qed.

Lemma punct_not_laquo c : double_punct c = true -> (c =? LAQUO)%N = false.
Proof.
  unfold double_punct. rewrite !orb_true_iff, !N.eqb_eq.
  intros [[[[->| ->]| ->]| ->]| ->]; reflexivity.
Qed.

Lemma space_not_laquo c : isspace c = true -> (LAQUO =? c)%N = false.
Proof.
  intros Hc. destruct (N.eqb_spec LAQUO c) as [<-|]; [|done].
  by vm_compute in Hc.
Qed.

Lemma match_punct w c s pos :
  all_of isspace w -> double_punct c = true ->
  match_at DOUBLE_PUNCT_PATTERN (w ++ c :: s) pos
  = Some (Match pos (pos + length (w ++ [c])) {[ 1 := [c] ]}).
Proof.
  intros Hw Hc. unfold match_at, DOUBLE_PUNCT_PATTERN. cbn [run Chr].
  apply star_loop_longest; [done | simpl; by apply punct_not_space |].
  rewrite Hc. rewrite length_app. simpl.
  replace (S (pos + length w) - (pos + length w)) with 1 by lia.
  simpl. rewrite insert_empty. do 2 f_equal. lia.
Qed.

Lemma no_match_punct w r pos :
  all_of isspace w -> stops isspace r -> stops double_punct r ->
  match_at DOUBLE_PUNCT_PATTERN (w ++ r) pos = None.
Proof.
  intros Hw Hr Hp. unfold match_at, DOUBLE_PUNCT_PATTERN. cbn [run Chr].
  rewrite star_loop_only_longest; [|done|done|].
  - destruct r as [|c r]; [done|]. simpl in Hp. by rewrite Hp.
  - intros c s q Hc. by rewrite (space_not_punct c Hc).
Qed.

Lemma match_laquo w r pos :
  all_of isspace w -> stops isspace r ->
  match_at OPENING_GUILLEMETS_PATTERN (LAQUO :: w ++ r) pos
  = Some (Match pos (pos + length (LAQUO :: w)) {[ 1 := [LAQUO] ]}).
Proof.
  intros Hw Hr. unfold match_at, OPENING_GUILLEMETS_PATTERN. cbn [run Chr].
  rewrite N.eqb_refl.
  erewrite star_loop_longest; cycle 1.
  { done. }
  { done. }
  { reflexivity. }
  replace (S pos - pos) with 1 by lia. simpl.
  rewrite insert_empty. do 2 f_equal. lia.
Qed.

Lemma no_match_laquo c s pos :
  (LAQUO =? c)%N = false ->
  match_at OPENING_GUILLEMETS_PATTERN (c :: s) pos = None.
Proof.
  intros Hc. unfold match_at, OPENING_GUILLEMETS_PATTERN. cbn [run Chr].
  by rewrite Hc.
Qed.

Lemma punct_pass_hit w c s pos :
  all_of isspace w -> double_punct c = true ->
  punct_pass (w ++ c :: s) pos = NBSP :: c :: punct_pass s (pos + length (w ++ [c])).
Proof.
  intros Hw Hc. unfold punct_pass.
  replace (w ++ c :: s) with ((w ++ [c]) ++ s) by (by rewrite <- app_assoc).
  erewrite sub_from_hit; cycle 1.
  { by destruct w. }
  { rewrite <- app_assoc. by apply match_punct. }
  { done. }
  reflexivity.
Qed.

Lemma punct_pass_run w r pos :
  all_of isspace w -> stops isspace r -> stops double_punct r ->
  punct_pass (w ++ r) pos = w ++ punct_pass r (pos + length w).
Proof.
  intros Hw. revert pos.
  induction Hw as [|c w Hc Hw IH]; simpl; intros pos Hr Hp.
  - by rewrite Nat.add_0_r.
  - unfold punct_pass. rewrite sub_from_miss.
    + f_equal. fold (punct_pass (w ++ r) (S pos)). rewrite IH by done.
      by replace (S pos + length w) with (pos + S (length w)) by lia.
    + apply (no_match_punct (c :: w)); [by constructor|done|done].
Qed.

Lemma punct_pass_other c s pos :
  isspace c = false -> double_punct c = false ->
  punct_pass (c :: s) pos = c :: punct_pass s (S pos).
Proof.
  intros Hs Hp. unfold punct_pass. rewrite sub_from_miss; [done|].
  by apply (no_match_punct []); [constructor| |].
Qed.

Lemma laquo_pass_hit w r pos :
  all_of isspace w -> stops isspace r ->
  laquo_pass (LAQUO :: w ++ r) pos = LAQUO :: NBSP :: laquo_pass r (pos + length (LAQUO :: w)).
Proof.
  intros Hw Hr. unfold laquo_pass.
  change (LAQUO :: w ++ r) with ((LAQUO :: w) ++ r).
  erewrite sub_from_hit; cycle 1.
  { done. }
  { by apply match_laquo. }
  { done. }
  reflexivity.
Qed.

Lemma laquo_pass_miss c s pos :
  (LAQUO =? c)%N = false -> laquo_pass (c :: s) pos = c :: laquo_pass s (S pos).
Proof.
  intros Hc. unfold laquo_pass. rewrite sub_from_miss; [done|].
  by apply no_match_laquo.
Qed.

Lemma laquo_pass_run w r pos :
  all_of isspace w -> laquo_pass (w ++ r) pos = w ++ laquo_pass r (pos + length w).
Proof.
  intros Hw. revert pos.
  induction Hw as [|c w Hc Hw IH]; simpl; intros pos.
  - by rewrite Nat.add_0_r.
  - rewrite laquo_pass_miss by (by apply space_not_laquo). rewrite IH.
    by replace (S pos + length w) with (pos + S (length w)) by lia.
Qed.

Lemma normalize_from_run b u w r :
  all_of isspace w -> normalize_from b u (w ++ r) = normalize_from b (u ++ w) r.
Proof.
  intros Hw. revert u.
  induction Hw as [|c w Hc Hw IH]; simpl; intros u.
  - by rewrite app_nil_r.
  - rewrite Hc, IH. by rewrite <- app_assoc.
Qed.

Lemma eqb_laquo_sym c : (c =? LAQUO)%N = (LAQUO =? c)%N.
Proof. apply N.eqb_sym. Qed.

Lemma punct_pass_spaces w pos : all_of isspace w -> punct_pass w pos = w.
Proof.
  intros Hw. rewrite <- (app_nil_r w) at 1.
  rewrite punct_pass_run; [|done|exact I|exact I]. simpl. by rewrite app_nil_r.
Qed.

Lemma laquo_pass_spaces w pos : all_of isspace w -> laquo_pass w pos = w.
Proof.
  intros Hw. rewrite <- (app_nil_r w) at 1.
  rewrite laquo_pass_run by done. simpl. by rewrite app_nil_r.
Qed.

(** The two passes against the one-pass description. *)
Lemma passes_spec n :
  forall s, length s <= n ->
    (forall pos pos', laquo_pass (punct_pass s pos) pos' = normalize_from false [] s) /\
    (forall c pos pos', isspace c = false ->
       laquo_pass (c :: punct_pass s pos) pos' = c :: normalize_from (c =? LAQUO)%N [] s).
Proof.
  induction n as [|n IH]; intros s Hn.
  { destruct s; [|simpl in Hn; lia]. split; [done|].
    intros c pos pos' Hc. destruct (N.eqb_spec c LAQUO) as [->|Hne].
    - apply (laquo_pass_hit [] []); [constructor|exact I].
    - rewrite laquo_pass_miss; [done|]. rewrite <- eqb_laquo_sym. by apply N.eqb_neq. }
  destruct (run_split isspace s) as (w & r & -> & Hw & Hr).
  rewrite length_app in Hn.
  destruct r as [|d s''].
  { (* only whitespace *)
    rewrite app_nil_r.
    assert (H1 : forall pos pos', laquo_pass (punct_pass w pos) pos' = normalize_from false [] w).
    { intros pos pos'. rewrite punct_pass_spaces, laquo_pass_spaces by done.
      rewrite <- (app_nil_r w) at 2. by rewrite normalize_from_run. }
    split; [exact H1|].
    intros c pos pos' Hc. destruct (N.eqb_spec c LAQUO) as [->|Hne].
    - rewrite punct_pass_spaces by done.
      rewrite <- (app_nil_r w) at 1. rewrite laquo_pass_hit; [|done|exact I].
      rewrite <- (app_nil_r w) at 2. by rewrite normalize_from_run.
    - rewrite laquo_pass_miss by (rewrite <- eqb_laquo_sym; by apply N.eqb_neq).
      by rewrite H1. }
  simpl in Hr, Hn.
  assert (Hrec : forall pos pos',
    laquo_pass (d :: punct_pass s'' pos) pos' = d :: normalize_from (d =? LAQUO)%N [] s'').
  { intros pos pos'. apply IH; [lia | exact Hr]. }
  assert (Hspec : forall b, normalize_from b [] (w ++ d :: s'')
    = (if b || double_punct d then [NBSP] else w)
      ++ d :: normalize_from (d =? LAQUO)%N [] s'').
  { intros b. rewrite normalize_from_run by done. simpl. by rewrite Hr. }
  assert (H1 : forall pos pos',
    laquo_pass (punct_pass (w ++ d :: s'') pos) pos' = normalize_from false [] (w ++ d :: s'')).
  { intros pos pos'. rewrite Hspec. simpl.
    destruct (double_punct d) eqn:Hp.
    - rewrite punct_pass_hit by done.
      rewrite (laquo_pass_miss NBSP) by done.
      by rewrite Hrec.
    - rewrite punct_pass_run; [|done|exact Hr|exact Hp]. rewrite punct_pass_other by done.
      rewrite laquo_pass_run by done. by rewrite Hrec. }
  split; [exact H1|].
  intros c pos pos' Hc. destruct (N.eqb_spec c LAQUO) as [->|Hne].
  - rewrite Hspec. simpl.
    destruct (double_punct d) eqn:Hp.
    + rewrite punct_pass_hit by done.
      etrans; [apply (laquo_pass_hit [NBSP]); [by repeat constructor|exact Hr]|].
      by rewrite Hrec.
    + rewrite punct_pass_run; [|done|exact Hr|exact Hp]. rewrite punct_pass_other by done.
      rewrite laquo_pass_hit; [|done|exact Hr]. by rewrite Hrec.
  - rewrite laquo_pass_miss by (rewrite <- eqb_laquo_sym; by apply N.eqb_neq).
    by rewrite H1.
Qed.

Lemma fix_is_normalize s : fix_french_punctuation s = normalize_spec s.
Proof.
  destruct s as [|c s]; [done|].
  unfold fix_french_punctuation, sub.
  apply (passes_spec (length (c :: s)) (c :: s)). done.
Qed.

Lemma normalize_from_stop b u c s :
  isspace c = false ->
  normalize_from b u (c :: s)
  = (if b || double_punct c then [NBSP] else u)
    ++ c :: normalize_from (c =? LAQUO)%N [] s.
Proof. intros Hc. simpl. by rewrite Hc. Qed.

Lemma normalize_from_spaces b u w :
  all_of isspace w ->
  normalize_from b u w = if b then [NBSP] else u ++ w.
Proof.
  intros Hw. rewrite <- (app_nil_r w) at 1.
  by rewrite normalize_from_run.
Qed.

Lemma normalize_from_idem n :
  forall s b, length s <= n ->
    normalize_from b [] (normalize_from b [] s) = normalize_from b [] s.
Proof.
  induction n as [|n IH]; intros s b Hn.
  { destruct s; [|simpl in Hn; lia]. by destruct b. }
  destruct (run_split isspace s) as (w & r & -> & Hw & Hr).
  rewrite length_app in Hn. destruct r as [|d s''].
  - rewrite app_nil_r. rewrite (normalize_from_spaces b [] w) by done.
    destruct b; [done|]. simpl. by rewrite normalize_from_spaces.
  - simpl in Hr, Hn. rewrite (normalize_from_run b [] w) by done. simpl app.
    rewrite (normalize_from_stop b w d) by done.
    destruct (b || double_punct d) eqn:E.
    + change ([NBSP] ++ ?x) with (NBSP :: x). simpl.
      rewrite Hr. rewrite E. simpl. f_equal. f_equal. apply IH. lia.
    + rewrite normalize_from_run by done. simpl app.
      rewrite normalize_from_stop by done. rewrite E.
      f_equal. f_equal. apply IH. lia.
Qed.

Lemma normalize_from_plain u s :
  Forall (fun c => special c = false) s ->
  normalize_from false u s = u ++ s.
Proof.
  intros Hs. revert u.
  induction Hs as [|c s Hc _ IH]; simpl; intros u; [by rewrite app_nil_r|].
  unfold special in Hc. apply orb_false_iff in Hc as [Hp Hl].
  rewrite Hp, Hl. destruct (isspace c).
  - rewrite IH. by rewrite <- app_assoc.
  - by rewrite IH.
Qed.

Lemma normalize_from_visible b u s :
  all_of isspace u ->
  List.filter visible (normalize_from b u s) = List.filter visible s.
Proof.
  assert (Hws : forall w, all_of isspace w -> List.filter visible w = []).
  { induction 1 as [|c w Hc _ IH]; simpl; [done|].
    unfold visible at 1. by rewrite Hc. }
  revert b u.
  induction s as [|c s IH]; simpl; intros b u Hu.
  - destruct b; [done|]. by apply Hws.
  - unfold visible at 2. destruct (isspace c) eqn:Hc; simpl.
    + apply IH. apply Forall_app. split; [done|]. by repeat constructor.
    + rewrite List.filter_app. simpl. unfold visible at 2. rewrite Hc. simpl.
      rewrite IH by constructor.
      rewrite Hws; [done|].
      destruct (b || double_punct c); [by repeat constructor|done].
Qed.
Lemma spaces_lookup (w : str) (i : nat) (c : char) :
  all_of isspace w -> w !! i = Some c -> isspace c = true.
Proof.
  intros Hw Hi. unfold all_of in Hw. rewrite List.Forall_forall in Hw.
  apply Hw. apply list_elem_of_In. by eapply list_elem_of_lookup_2.
Qed.

Lemma normalize_from_after_laquo u s :
  exists t, normalize_from true u s = NBSP :: t.
Proof.
  revert u. induction s as [|c s IH]; intros u; simpl; [eauto|].
  destruct (isspace c); [apply IH|]. simpl. eauto.
Qed.

(** In the result every one of [; : ! ? »] stands right after a
    non-breaking space and every [«] right before one. *)
Lemma normalize_from_spaced s :
  forall b u, all_of isspace u ->
    (forall i c, normalize_from b u s !! i = Some c -> double_punct c = true ->
       exists j, i = S j /\ normalize_from b u s !! j = Some NBSP)
    /\ (forall i, normalize_from b u s !! i = Some LAQUO ->
          normalize_from b u s !! S i = Some NBSP).
Proof.
  induction s as [|c s IH]; intros b u Hu.
  { assert (Hout : all_of isspace (normalize_from b u [])).
    { simpl. destruct b; [by repeat constructor|done]. }
    split.
    - intros i d Hi Hp. apply (spaces_lookup _ _ _ Hout) in Hi.
      apply punct_not_space in Hp. congruence.
    - intros i Hi. by apply (spaces_lookup _ _ _ Hout) in Hi. }
  simpl. destruct (isspace c) eqn:Hc.
  { apply IH. apply Forall_app. split; [done|]. by repeat constructor. }
  set (X := if b || double_punct c then [NBSP] else u).
  set (T := normalize_from (c =? LAQUO)%N [] s).
  assert (HX : all_of isspace X).
  { unfold X. destruct (b || double_punct c); [by repeat constructor|done]. }
  destruct (IH (c =? LAQUO)%N [] ltac:(constructor)) as [IHp IHl]. fold T in IHp, IHl.
  assert (Hat : forall i d, (X ++ c :: T) !! i = Some d ->
    (i < length X /\ X !! i = Some d)
    \/ (i = length X /\ d = c)
    \/ (exists i', i = length X + S i' /\ T !! i' = Some d)).
  { intros i d Hi. destruct (decide (i < length X)) as [Hlt|Hge].
    - left. by rewrite lookup_app_l in Hi.
    - rewrite lookup_app_r in Hi by lia.
      destruct (i - length X) as [|i'] eqn:Hd; simpl in Hi.
      + right. left. split; [lia|congruence].
      + right. right. exists i'. split; [lia|done]. }
  assert (Hin : forall i' d, T !! i' = Some d ->
    (X ++ c :: T) !! (length X + S i') = Some d).
  { intros i' d Hd. rewrite lookup_app_r by lia.
    by replace (length X + S i' - length X) with (S i') by lia. }
  split.
  - intros i d Hi Hp. destruct (Hat i d Hi) as [[_ Hx]|[[-> ->]|(i' & -> & Hd)]].
    + apply (spaces_lookup _ _ _ HX) in Hx.
      apply punct_not_space in Hp. congruence.
    + unfold X. rewrite Hp, orb_true_r. by exists 0.
    + destruct (IHp i' d Hd Hp) as (j & -> & Hj).
      exists (length X + S j). split; [lia|]. by apply Hin.
  - intros i Hi. destruct (Hat i LAQUO Hi) as [[_ Hx]|[[-> Hl]|(i' & -> & Hd)]].
    + by apply (spaces_lookup _ _ _ HX) in Hx.
    + replace (S (length X)) with (length X + 1) by lia. apply (Hin 0).
      unfold T. rewrite <- Hl, N.eqb_refl.
      by destruct (normalize_from_after_laquo [] s) as [t ->].
    + replace (S (length X + S i')) with (length X + S (S i')) by lia.
      by apply Hin, IHl.
Qed.

End Typography_facts.

(** ** The chord extractor *)

Module Chord_facts.
Import Re Re_facts Chords Chord_spec.

Lemma group_text_single a b i x : group_text (Match a b {[ i := x ]}) i = x.
Proof. unfold group_text, group. simpl. by rewrite lookup_singleton_eq. Qed.

Lemma markup_cons ch : markup ch = 91%N :: ch ++ [93%N].
Proof. reflexivity. Qed.

Lemma markup_length ch : length (markup ch) = length ch + 2.
Proof. rewrite markup_cons. simpl. rewrite length_app. simpl. lia. Qed.

Lemma match_chord_shape s pos m :
  match_at chord_pattern s pos = Some m ->
  exists ch rest,
    s = markup ch ++ rest /\ ch <> [] /\
    m = Match pos (pos + length (markup ch)) {[ 1 := ch ]}.
Proof.
  unfold match_at, chord_pattern. cbn [run Chr Plus].
  destruct s as [|c s1]; [done|].
  destruct (N.eqb_spec 91 c) as [<-|]; [|done].
  destruct s1 as [|c1 s1]; [done|].
  destruct (negb (c1 =? 93)%N) eqn:Hc1; [|done].
  intros Hm. apply star_loop_some in Hm as (n & Hn & Hk).
  destruct (drop n s1) as [|c3 s4] eqn:Hd; [done|].
  destruct (N.eqb_spec 93 c3) as [<-|]; [|done].
  injection Hk as <-.
  assert (Hlen : n <= length s1).
  { etrans; [exact Hn|]. rewrite <- (take_drop_while (fun c => negb (c =? 93)%N) s1) at 2.
    rewrite length_app. lia. }
  exists (c1 :: take n s1), s4. split; [|split; [done|]].
  - unfold markup. simpl. do 2 f_equal. rewrite <- app_assoc.
    transitivity (take n s1 ++ drop n s1); [by rewrite take_drop | by rewrite Hd].
  - f_equal.
    + unfold markup. simpl. rewrite length_app, length_take. simpl. lia.
    + replace (S (pos + n) - pos) with (S n) by lia. simpl.
      by rewrite insert_empty.
Qed.

Lemma weave_cons_text c t ch ps tail :
  c :: weave ((t, ch) :: ps) tail = weave ((c :: t, ch) :: ps) tail.
Proof. done. Qed.

(** The scan of a line by [chord_pattern]: the line is a weave whose
    chords are the matches and whose plain text is the result of the
    substitution. *)
Lemma chord_scan n :
  forall s pos, length s <= n ->
    exists pieces tail,
      s = weave pieces tail /\
      sub_from chord_pattern (fun _ => []) s pos 0 = plain pieces tail /\
      finditer_from chord_pattern s pos 0 = matches_of pos pieces.
Proof.
  induction n as [|n IH]; intros s pos Hn.
  { destruct s; [|simpl in Hn; lia]. by exists [], []. }
  destruct s as [|c s]; [by exists [], []|].
  destruct (match_at chord_pattern (c :: s) pos) as [m|] eqn:Hm.
  - destruct (match_chord_shape _ _ _ Hm) as (ch & rest & Hs & Hch & ->).
    rewrite Hs in *.
    assert (Hlen : length rest <= n).
    { rewrite length_app, markup_length in Hn. lia. }
    destruct (IH rest (pos + length (markup ch)) Hlen) as (ps & tail & Hr & Hsub & Hfind).
    assert (Hne : markup ch <> []) by (by rewrite markup_cons).
    exists (([], ch) :: ps), tail. split; [simpl; by rewrite <- Hr|].
    split.
    + rewrite (sub_from_hit _ _ (markup ch) rest pos _ Hne Hm eq_refl).
      by rewrite Hsub.
    + rewrite (finditer_from_hit _ (markup ch) rest pos _ Hne Hm eq_refl).
      rewrite Hfind. simpl. by rewrite Nat.add_0_r.
  - simpl in Hn.
    destruct (IH s (S pos)) as (ps & tail & Hr & Hsub & Hfind); [lia|].
    rewrite sub_from_miss, finditer_from_miss by done.
    rewrite Hsub, Hfind. destruct ps as [|[t ch] ps].
    + exists [], (c :: tail). simpl in *. by rewrite Hr.
    + exists ((c :: t, ch) :: ps), tail. rewrite Hr. split; [done|].
      split; [done|]. simpl.
      by rewrite <- !Nat.add_succ_r.
Qed.

Section WithRuntime.
Context `{PyRuntime}.

Lemma adjust_from acc chords p :
  Forall (fun c => original_pos c < p) chords ->
  fold_left
    (fun adjusted_pos prev_chord =>
       if original_pos prev_chord <? p
       then (adjusted_pos - Z.of_nat (markup_len prev_chord))%Z
       else adjusted_pos)
    chords acc
  = (acc - total_markup chords)%Z.
Proof.
  intros Hc. revert acc.
  induction Hc as [|c chords Hlt _ IH]; simpl; intros acc; [lia|].
  apply Nat.ltb_lt in Hlt. rewrite Hlt, IH. lia.
Qed.

Lemma adjust_all_before chords p :
  Forall (fun c => original_pos c < p) chords ->
  adjust chords p = (Z.of_nat p - total_markup chords)%Z.
Proof. apply adjust_from. Qed.

Lemma total_markup_app l1 l2 :
  total_markup (l1 ++ l2) = (total_markup l1 + total_markup l2)%Z.
Proof.
  induction l1 as [|c l1 IH]; simpl; [done|].
  unfold total_markup in *. simpl. rewrite IH. lia.
Qed.

Lemma fold_step_chords ms acc :
  map chord (fold_left step ms acc)
  = map chord acc ++ map (fun m => group_text m 1) ms.
Proof.
  revert acc. induction ms as [|m ms IH]; simpl; intros acc.
  - by rewrite app_nil_r.
  - rewrite IH. unfold step. rewrite map_app. simpl.
    by rewrite <- app_assoc.
Qed.

Lemma matches_of_groups pos pieces :
  map (fun m => group_text m 1) (matches_of pos pieces) = map snd pieces.
Proof.
  revert pos. induction pieces as [|[t ch] ps IH]; intros pos; [done|].
  cbn [matches_of map snd]. by rewrite IH, group_text_single.
Qed.

Lemma total_markup_chords chords :
  total_markup chords
  = fold_right (fun ch acc => (Z.of_nat (length (markup ch)) + acc)%Z) 0%Z
      (map chord chords).
Proof.
  induction chords as [|c chords IH]; simpl; [done|].
  unfold total_markup in *. simpl. by rewrite IH.
Qed.

Lemma weave_length pieces tail :
  Z.of_nat (length (weave pieces tail))
  = (Z.of_nat (length (plain pieces tail))
     + fold_right (fun ch acc => (Z.of_nat (length (markup ch)) + acc)%Z) 0%Z
         (map snd pieces))%Z.
Proof.
  induction pieces as [|[t ch] ps IH]; [simpl; lia|].
  cbn [weave plain map snd fold_right].
  rewrite !length_app, !Nat2Z.inj_add, IH. lia.
Qed.

Lemma anchored_fold line pieces :
  forall p pre tail acc,
    line = pre ++ weave pieces tail -> length pre = p ->
    anchored line acc ->
    Forall (fun c => original_pos c < p) acc ->
    anchored line (fold_left step (matches_of p pieces) acc).
Proof.
  induction pieces as [|[t ch] ps IH]; intros p pre tail acc Hl Hp Hacc Hlt;
    [done|].
  cbn [matches_of fold_left weave] in *.
  apply (IH _ (pre ++ t ++ markup ch) tail).
  - rewrite Hl. by rewrite <- !app_assoc.
  - rewrite !length_app in *. lia.
  - intros k c Hk. unfold step in Hk |- *.
    destruct (decide (k < length acc)) as [Hin|Hout].
    + rewrite lookup_app_l in Hk by done.
      rewrite take_app_le by lia. by apply Hacc.
    + rewrite lookup_app_r in Hk by lia.
      destruct (k - length acc) as [|j] eqn:Hj; [|by destruct j].
      assert (k = length acc) as -> by lia.
      injection Hk as <-. cbn [pos original_pos chord m_start].
      rewrite take_app_length.
      assert (Hlt' : Forall (fun c => original_pos c < p + length t) acc).
      { eapply Forall_impl; [exact Hlt|]. simpl. intros; lia. }
      split; [by rewrite (adjust_all_before acc _ Hlt')|].
      split; [|done].
      rewrite Hl. rewrite app_assoc.
      rewrite drop_app_length' by (rewrite length_app; lia).
      unfold markup_len. cbn [chord]. rewrite group_text_single.
      change (lit "[" ++ ch ++ lit "]") with (markup ch).
      by rewrite take_app_length.
  - unfold step. apply Forall_app. split.
    + eapply Forall_impl; [exact Hlt|]. simpl. intros.
      rewrite length_app. lia.
    + repeat constructor. cbn [original_pos m_start].
      rewrite length_app, markup_length. lia.
Qed.

Lemma parse_chord_line_scan line :
  exists pieces tail,
    line = weave pieces tail /\
    snd (parse_chord_line line) = plain pieces tail /\
    fst (parse_chord_line line) = fold_left step (matches_of 0 pieces) [].
Proof.
  destruct (chord_scan (length line) line 0) as (ps & tail & Hl & Hs & Hf);
    [done|].
  exists ps, tail. unfold parse_chord_line, finditer, sub. simpl.
  by rewrite Hs, Hf.
Qed.
End WithRuntime.
End Chord_facts.

(** ** The annotations of a line *)

Module Chord_scan_facts.
Import Re Re_facts Chords Chord_spec Chord_facts Chord_scan_spec.

Lemma not_annotated_other (c : char) (s : str) :
  c <> 91%N -> ~ annotated (c :: s).
Proof.
  intros Hc (ch & rest & Hs & _). rewrite markup_cons in Hs.
  simpl in Hs. congruence.
Qed.

(** An annotation is what the chord pattern matches. *)
Lemma annotated_match (ch rest : str) (pos : nat) :
  ch <> [] -> (93%N ∉ ch) ->
  match_at chord_pattern (markup ch ++ rest) pos
  = Some (Match pos (pos + length (markup ch)) {[ 1 := ch ]}).
Proof.
  intros Hne Hno. destruct ch as [|c1 ch]; [done|].
  assert (Hc1 : negb (c1 =? 93)%N = true).
  { destruct (N.eqb_spec c1 93) as [->|]; [|done]. exfalso. apply Hno. by left. }
  assert (Hall : all_of (fun c => negb (c =? 93)%N) ch).
  { apply Forall_forall. intros c Hc.
    destruct (N.eqb_spec c 93) as [->|]; [|done]. exfalso. apply Hno. by right. }
  rewrite markup_cons. unfold match_at, chord_pattern, Chr, Plus.
  cbn [run app]. rewrite N.eqb_refl, Hc1. rewrite <- app_assoc.
  erewrite star_loop_longest; cycle 1.
  { exact Hall. }
  { done. }
  { cbv beta iota. cbn [app]. rewrite N.eqb_refl. reflexivity. }
  f_equal. f_equal.
  - simpl. rewrite length_app. simpl. lia.
  - rewrite insert_empty. f_equal.
    replace (S (S pos) + length ch - S pos) with (length (c1 :: ch))
      by (simpl; lia).
    apply (take_app_length (c1 :: ch)).
Qed.

Lemma match_annotated (s : str) (pos : nat) (m : rmatch) :
  match_at chord_pattern s pos = Some m ->
  exists ch rest,
    s = markup ch ++ rest /\ ch <> [] /\ (93%N ∉ ch)
    /\ m = Match pos (pos + length (markup ch)) {[ 1 := ch ]}.
Proof.
  unfold match_at, chord_pattern. cbn [run Chr Plus].
  destruct s as [|c s1]; [done|].
  destruct (N.eqb_spec 91 c) as [<-|]; [|done].
  destruct s1 as [|c1 s1]; [done|].
  destruct (negb (c1 =? 93)%N) eqn:Hc1; [|done].
  intros Hm. apply star_loop_some in Hm as (n & Hn & Hk).
  destruct (drop n s1) as [|c3 s4] eqn:Hd; [done|].
  destruct (N.eqb_spec 93 c3) as [<-|]; [|done].
  injection Hk as <-.
  assert (Hlen : n <= length s1).
  { etrans; [exact Hn|].
    rewrite <- (take_drop_while (fun c => negb (c =? 93)%N) s1) at 2.
    rewrite length_app. lia. }
  exists (c1 :: take n s1), s4. split; [|split; [done|split]].
  - unfold markup. simpl. do 2 f_equal. rewrite <- app_assoc.
    transitivity (take n s1 ++ drop n s1); [by rewrite take_drop | by rewrite Hd].
  - intros Hin. apply elem_of_cons in Hin as [<-|Hin]; [done|].
    pose proof (take_while_all (fun c => negb (c =? 93)%N) s1) as Hall.
    assert (Hsub : take n s1
                   = take n (take_while (fun c => negb (c =? 93)%N) s1)).
    { rewrite <- (take_drop_while (fun c => negb (c =? 93)%N) s1) at 1.
      by rewrite take_app_le. }
    rewrite Hsub in Hin. apply elem_of_take in Hin as (i & Hi & _).
    unfold all_of in Hall. rewrite Forall_lookup in Hall.
    specialize (Hall i _ Hi). simpl in Hall. done.
  - f_equal.
    + unfold markup. simpl. rewrite length_app, length_take. simpl. lia.
    + replace (S (pos + n) - pos) with (S n) by lia. simpl.
      by rewrite insert_empty.
Qed.

Lemma annotated_iff_match (s : str) (pos : nat) :
  annotated s <-> is_Some (match_at chord_pattern s pos).
Proof.
  split.
  - intros (ch & rest & -> & Hne & Hno). rewrite annotated_match by done. eauto.
  - intros [m Hm]. apply match_annotated in Hm as (ch & rest & Hs & Hne & Hno & _).
    by exists ch, rest.
Qed.

(** A text starts with at most one annotation. *)
Lemma markup_inj (ch ch' rest rest' : str) :
  (93%N ∉ ch) -> (93%N ∉ ch') ->
  markup ch ++ rest = markup ch' ++ rest' -> ch = ch' /\ rest = rest'.
Proof.
  rewrite !markup_cons. cbn [app]. intros Hno Hno' Heq.
  injection Heq as Heq. rewrite <- !app_assoc in Heq. cbn [app] in Heq.
  revert ch' Hno' Heq. induction ch as [|c ch IH]; intros [|c' ch'] Hno' Heq;
    cbn [app] in Heq.
  - injection Heq as ->. done.
  - injection Heq as <- _. exfalso. apply Hno'. by left.
  - injection Heq as -> _. exfalso. apply Hno. by left.
  - injection Heq as -> Heq.
    destruct (IH (fun H => Hno (list_elem_of_further _ _ _ H)) ch'
                (fun H => Hno' (list_elem_of_further _ _ _ H)) Heq) as [-> ->].
    done.
Qed.

(** The scan is a function of the text. *)
Lemma scan_deterministic (pos cpos : nat) (s : str)
    (anns : list annotation) (clean : str) :
  scan pos cpos s anns clean ->
  forall anns' clean',
    scan pos cpos s anns' clean' -> anns' = anns /\ clean' = clean.
Proof.
  induction 1 as [pos cpos|pos cpos c s anns clean Hna _ IH
                 |pos cpos s ch rest anns clean Hs Hne Hno _ IH];
    intros anns' clean' H'.
  - inversion H'; subst; [done|].
    match goal with
    | Hx : [] = markup _ ++ _ |- _ => rewrite markup_cons in Hx; discriminate Hx
    end.
  - inversion H'; subst.
    + match goal with
      | Hx : scan (S pos) (S cpos) s _ _ |- _ =>
          destruct (IH _ _ Hx) as [-> ->]
      end.
      done.
    + exfalso. apply Hna.
      match goal with
      | Hx : c :: s = markup ?ch' ++ ?rest' |- _ => exists ch', rest'
      end.
      done.
  - inversion H'; subst.
    + match goal with
      | Hx : [] = markup _ ++ _ |- _ =>
          rewrite markup_cons in Hx; discriminate Hx
      end.
    + exfalso.
      match goal with
      | Hx : ~ annotated _, Hy : _ = markup ch ++ rest |- _ =>
          apply Hx; rewrite Hy; by exists ch, rest
      end.
    + match goal with
      | Hy : markup ch ++ rest = markup ?ch' ++ ?rest',
        Hn : 93%N ∉ ?ch' |- _ =>
          destruct (markup_inj ch ch' rest rest' Hno Hn Hy) as [<- <-]
      end.
      match goal with
      | Hx : scan (pos + length (markup ch)) cpos rest _ _ |- _ =>
          destruct (IH _ _ Hx) as [-> ->]
      end.
      done.
Qed.

(** Every text has a scan. *)
Lemma scan_total (n : nat) :
  forall (s : str) (pos cpos : nat),
    length s <= n -> exists anns clean, scan pos cpos s anns clean.
Proof.
  induction n as [|n IH]; intros s pos cpos Hn.
  { destruct s; [|simpl in Hn; lia]. exists [], []. constructor. }
  destruct s as [|c s]; [exists [], []; constructor|].
  destruct (match_at chord_pattern (c :: s) pos) as [m|] eqn:Hm.
  - apply match_annotated in Hm as (ch & rest & Hs & Hne & Hno & _).
    assert (Hlen : length rest <= n).
    { apply (f_equal length) in Hs. rewrite length_app, markup_length in Hs.
      simpl in Hs, Hn. lia. }
    destruct (IH rest (pos + length (markup ch)) cpos Hlen) as (anns & clean & Hscan).
    eexists _, _. by eapply scan_chord.
  - simpl in Hn. destruct (IH s (S pos) (S cpos)) as (anns & clean & Hscan); [lia|].
    exists anns, (c :: clean). apply scan_text; [|done].
    intros Ha. apply (annotated_iff_match _ pos) in Ha as [m' Hm']. congruence.
Qed.

(** The scan of the program, by [finditer] and [sub], is the scan of
    the text. *)
Lemma scan_program (pos cpos : nat) (s : str)
    (anns : list annotation) (clean : str) :
  scan pos cpos s anns clean ->
  finditer_from chord_pattern s pos 0 = map match_of anns
  /\ sub_from chord_pattern (fun _ => []) s pos 0 = clean.
Proof.
  induction 1 as [pos cpos|pos cpos c s anns clean Hna _ [IHf IHs]
                 |pos cpos s ch rest anns clean Hs Hne Hno _ [IHf IHs]].
  - done.
  - assert (Hm : match_at chord_pattern (c :: s) pos = None).
    { destruct (match_at chord_pattern (c :: s) pos) as [m|] eqn:Hm; [|done].
      exfalso. apply Hna. apply (annotated_iff_match _ pos). eauto. }
    rewrite finditer_from_miss, sub_from_miss by done. by rewrite IHf, IHs.
  - subst s. pose proof (annotated_match ch rest pos Hne Hno) as Hm.
    assert (Hmk : markup ch <> []) by (by rewrite markup_cons).
    rewrite (finditer_from_hit _ (markup ch) rest pos _ Hmk Hm eq_refl).
    rewrite (sub_from_hit _ _ (markup ch) rest pos _ Hmk Hm eq_refl).
    by rewrite IHf, IHs.
Qed.

(** Where the annotations of a scan stand. *)
Lemma scan_offsets (pos cpos : nat) (s : str)
    (anns : list annotation) (clean : str) :
  scan pos cpos s anns clean ->
  length s = (length clean + Z.to_nat (markup_total anns))%nat
  /\ forall k a, anns !! k = Some a ->
       pos <= raw_offset a /\ cpos <= clean_offset a
       /\ (Z.of_nat (clean_offset a)
           = Z.of_nat (raw_offset a) - (Z.of_nat pos - Z.of_nat cpos)
             - markup_total (take k anns))%Z
       /\ clean_offset a <= cpos + length clean
       /\ (exists rest, drop (raw_offset a - pos) s = markup (symbol a) ++ rest)
       /\ symbol a <> [] /\ (93%N ∉ symbol a)
       /\ (forall k' a', k' < k -> anns !! k' = Some a' ->
             raw_offset a' + length (markup (symbol a')) <= raw_offset a
             /\ clean_offset a' <= clean_offset a).
Proof.
  assert (Hpos : forall l, (0 <= markup_total l)%Z).
  { induction l as [|x l IHl]; [done|].
    change (markup_total (x :: l))
      with (Z.of_nat (length (markup (symbol x))) + markup_total l)%Z.
    lia. }
  induction 1 as [pos cpos|pos cpos c s anns clean Hna _ [IHl IH]
                 |pos cpos s ch rest anns clean Hs Hne Hno _ [IHl IH]].
  - split; [done|]. intros k a Hk. done.
  - split; [simpl; lia|]. intros k a Hk.
    destruct (IH k a Hk)
      as (Hle & Hcle & Hc & Hb & (r & Hr) & Hsym & Hcl & Hearlier).
    split; [lia|]. split; [lia|]. split; [lia|]. split; [simpl; lia|].
    split.
    { exists r. replace (raw_offset a - pos) with (S (raw_offset a - S pos)) by lia.
      exact Hr. }
    split; [done|]. split; [done|]. exact Hearlier.
  - subst s. split.
    { rewrite length_app, IHl.
      change (markup_total (Annotation pos cpos ch :: anns))
        with (Z.of_nat (length (markup ch)) + markup_total anns)%Z.
      specialize (Hpos anns). lia. }
    intros k a Hk. destruct k as [|k].
    + injection Hk as <-. cbn [raw_offset clean_offset symbol take].
      split; [lia|]. split; [lia|].
      split; [change (markup_total []) with 0%Z; lia|].
      split; [lia|]. split.
      { exists rest. by rewrite Nat.sub_diag. }
      split; [done|]. split; [done|]. intros k' a' Hk'. lia.
    + cbn [lookup list_lookup] in Hk.
      destruct (IH k a Hk)
        as (Hle & Hcle & Hc & Hb & (r & Hr) & Hsym & Hcl & Hearlier).
      split; [lia|]. split; [lia|]. split.
      { cbn [take].
        change (markup_total (Annotation pos cpos ch :: take k anns))
          with (Z.of_nat (length (markup ch)) + markup_total (take k anns))%Z.
        lia. }
      split; [lia|]. split.
      { exists r.
        replace (raw_offset a - pos)
          with (length (markup ch) + (raw_offset a - (pos + length (markup ch))))
          by lia.
        rewrite <- drop_drop. by rewrite drop_app_length. }
      split; [done|]. split; [done|].
      intros k' a' Hlt Hk'. destruct k' as [|k'].
      * injection Hk' as <-. cbn [raw_offset clean_offset symbol].
        split; lia.
      * cbn [lookup list_lookup] in Hk'. apply (Hearlier k' a'); [lia|done].
Qed.

(** The part of a line before one of its annotations: its scan is the
    scan of the line up to that annotation. *)
Lemma scan_prefix (pos cpos : nat) (s : str)
    (anns : list annotation) (clean : str) :
  scan pos cpos s anns clean ->
  forall k a, anns !! k = Some a ->
    scan pos cpos (take (raw_offset a - pos) s) (take k anns)
      (take (clean_offset a - cpos) clean).
Proof.
  intros Hscan. pose proof (scan_offsets _ _ _ _ _ Hscan) as [_ Hoff].
  induction Hscan as [pos cpos|pos cpos c s anns clean Hna Hscan IH
                     |pos cpos s ch rest anns clean Hs Hne Hno Hscan IH];
    intros k a Hk.
  - done.
  - destruct (scan_offsets _ _ _ _ _ Hscan) as [_ Hoff'].
    destruct (Hoff' k a Hk) as (Hle & Hcle & _).
    replace (raw_offset a - pos) with (S (raw_offset a - S pos)) by lia.
    replace (clean_offset a - cpos) with (S (clean_offset a - S cpos)) by lia.
    cbn [take]. apply scan_text; [|by apply IH; [apply Hoff'|]].
    intros (ch & rest & Heq & Hne & Hno). apply Hna. exists ch, (rest ++ drop (raw_offset a - S pos) s).
    split; [|done]. rewrite app_assoc, <- Heq. cbn [app].
    by rewrite take_drop.
  - subst s. destruct (scan_offsets _ _ _ _ _ Hscan) as [_ Hoff'].
    destruct k as [|k].
    + injection Hk as <-. cbn [raw_offset clean_offset take].
      rewrite !Nat.sub_diag. cbn [take]. constructor.
    + cbn [lookup list_lookup] in Hk.
      destruct (Hoff' k a Hk) as (Hle & Hcle & _).
      cbn [take]. eapply scan_chord; [|done|done|by apply IH; [apply Hoff'|]].
      rewrite take_app_ge by lia. f_equal. f_equal. lia.
Qed.

Lemma group_text_match_of (a : annotation) :
  group_text (match_of a) 1 = symbol a.
Proof. unfold match_of. apply group_text_single. Qed.

Section WithRuntime.
Context `{PyRuntime}.

Lemma fold_step_positions (ms : list rmatch) (acc : list chord_t) :
  map original_pos (fold_left step ms acc)
  = map original_pos acc ++ map m_start ms.
Proof.
  revert acc. induction ms as [|m ms IH]; simpl; intros acc.
  - by rewrite app_nil_r.
  - rewrite IH. unfold step. rewrite map_app. simpl.
    by rewrite <- app_assoc.
Qed.

Lemma step_snoc (chords : list chord_t) (m : rmatch) :
  step chords m
  = chords ++
      [ Chord (take 5 (md5_hexdigest
                         (group_text m 1 ++ str_of_nat (m_start m))))
          (Z.max 0 (adjust chords (m_start m)))
          (group_text m 1) (group_text m 1) (m_start m) ].
Proof. reflexivity. Qed.

(** The chord made from the match of index [k]. *)
Lemma fold_step_lookup (ms : list rmatch) :
  length (fold_left step ms []) = length ms
  /\ forall k m, ms !! k = Some m ->
       fold_left step ms [] !! k
       = Some (Chord (take 5 (md5_hexdigest
                                (group_text m 1 ++ str_of_nat (m_start m))))
                 (Z.max 0 (adjust (fold_left step (take k ms) []) (m_start m)))
                 (group_text m 1) (group_text m 1) (m_start m)).
Proof.
  induction ms as [|m ms [IHl IH]] using rev_ind; [done|].
  rewrite fold_left_app. cbn [fold_left]. rewrite step_snoc.
  split; [rewrite !length_app, IHl; simpl; lia|].
  intros k m' Hk.
  destruct (decide (k < length ms)) as [Hlt|Hge].
  - rewrite lookup_app_l in Hk by done.
    rewrite lookup_app_l by lia. rewrite take_app_le by lia. by apply IH.
  - rewrite lookup_app_r in Hk by lia.
    destruct (k - length ms) as [|j] eqn:Hj; [|by destruct j].
    injection Hk as <-. assert (k = length ms) as -> by lia.
    rewrite lookup_app_r by lia. rewrite IHl, Nat.sub_diag.
    by rewrite take_app_length.
Qed.

(** The chords returned for a line are its annotations: one chord for
    each, in order, at the offset of the annotation without the markup
    found before it. *)
Lemma chords_of_scan (line : str) (anns : list annotation) (clean : str) :
  scan 0 0 line anns clean ->
  snd (parse_chord_line line) = clean
  /\ length (fst (parse_chord_line line)) = length anns
  /\ forall k a, anns !! k = Some a ->
       exists c,
         fst (parse_chord_line line) !! k = Some c
         /\ chord c = symbol a /\ key c = symbol a
         /\ original_pos c = raw_offset a
         /\ pos c = Z.max 0 (Z.of_nat (raw_offset a) - markup_total (take k anns))
         /\ pos c = Z.of_nat (clean_offset a).
Proof.
  intros Hscan. destruct (scan_program _ _ _ _ _ Hscan) as [Hf Hs].
  destruct (scan_offsets _ _ _ _ _ Hscan) as [_ Hoff].
  unfold parse_chord_line, finditer, sub. cbn [fst snd]. rewrite Hf, Hs.
  destruct (fold_step_lookup (map match_of anns)) as [Hlen Hlook].
  split; [done|]. split; [by rewrite Hlen, length_map|].
  intros k a Hk.
  assert (Hm : map match_of anns !! k = Some (match_of a))
    by (by rewrite list_lookup_fmap, Hk).
  rewrite (Hlook k _ Hm). rewrite group_text_match_of.
  change (m_start (match_of a)) with (raw_offset a).
  eexists. split; [reflexivity|]. cbn [chord key original_pos pos].
  repeat (split; [done|]).
  destruct (Hoff k a Hk) as (_ & _ & Hc & _ & _ & _ & _ & Hearlier).
  assert (Hadj : adjust (fold_left step (take k (map match_of anns)) [])
                   (raw_offset a)
                 = (Z.of_nat (raw_offset a) - markup_total (take k anns))%Z).
  { rewrite adjust_all_before.
    - f_equal. rewrite total_markup_chords, fold_step_chords. cbn [map app].
      rewrite firstn_map, map_map. clear.
      induction (take k anns) as [|x l IHl]; [reflexivity|].
      cbn [map fold_right]. rewrite IHl, group_text_match_of. reflexivity.
    - apply Forall_forall. intros c Hc'.
      apply list_elem_of_lookup in Hc' as [i Hi].
      assert (Ho : map original_pos
                     (fold_left step (take k (map match_of anns)) []) !! i
                   = Some (original_pos c))
        by (by rewrite list_lookup_fmap, Hi).
      rewrite fold_step_positions in Ho. cbn [map app] in Ho.
      rewrite firstn_map, map_map in Ho.
      rewrite list_lookup_fmap in Ho.
      destruct (take k anns !! i) as [a'|] eqn:Ha'; [|done].
      injection Ho as <-. change (m_start (match_of a')) with (raw_offset a').
      apply lookup_take_Some in Ha' as [Ha' Hik].
      destruct (Hearlier i a' Hik Ha') as [Hlt _].
      rewrite markup_length in Hlt. lia. }
  rewrite Hadj. split; [done|]. lia.
Qed.
End WithRuntime.

End Chord_scan_facts.

(** ** The document parser *)

Module Parser_facts.
Import Re Parser Parser_spec.

Lemma startswith_second s a b b' p q :
  b <> b' -> startswith s (a :: b :: p) = true ->
  startswith s (a :: b' :: q) = false.
Proof.
  intros Hb. destruct s as [|x [|y s]]; simpl; try done.
  - by rewrite andb_false_r.
  - destruct (N.eqb_spec a x); simpl; [|done].
    destruct (N.eqb_spec b y); simpl; [|done].
    destruct (N.eqb_spec b' y); simpl; [congruence|done].
Qed.

Lemma start_not_comment s : is_start s = true -> is_comment s = false.
Proof. apply startswith_second. done. Qed.

Lemma end_not_comment s : is_end s = true -> is_comment s = false.
Proof. apply startswith_second. done. Qed.

Lemma end_not_start s : is_end s = true -> is_start s = false.
Proof. apply startswith_second. done. Qed.

Section WithRuntime.
Context `{PyRuntime}.

Lemma step_start st line :
  start_marker line = true ->
  step st line
  = State (metadata st)
      (if in_section st then emit st else sections st)
      (match current_section_label st with
       | Some (_ :: _) => None
       | other => other
       end)
      []
      (Some (open_info (current_section_label st) (block_type_of line)))
      true.
Proof.
  unfold start_marker. intros Hs. unfold step.
  by rewrite (start_not_comment _ Hs), Hs.
Qed.

Lemma step_end st line :
  end_marker line = true ->
  step st line
  = if in_section st
    then State (metadata st) (emit st) (current_section_label st) [] None false
    else st.
Proof.
  unfold end_marker. intros Hs. unfold step.
  by rewrite (end_not_comment _ Hs), (end_not_start _ Hs), Hs.
Qed.

(** A line that is no boundary marker leaves the sections alone and
    is appended, as it is, to an open section. *)
Lemma step_body st line :
  boundary line = false ->
  sections (step st line) = sections st /\
  in_section (step st line) = in_section st /\
  current_section_info (step st line) = current_section_info st /\
  current_section_content (step st line)
  = if in_section st then current_section_content st ++ [line]
    else current_section_content st.
Proof.
  unfold boundary, start_marker, end_marker. intros Hb.
  apply orb_false_iff in Hb as [Hs He]. unfold step. rewrite Hs, He.
  destruct (is_comment (strip line)); [done|].
  destruct (startswith (strip line) (lit "{")); [done|].
  destruct (in_section st) eqn:Hin; simpl; rewrite ?Hin; auto.
Qed.

Lemma run_lines_snoc lines line :
  run_lines (lines ++ [line]) = step (run_lines lines) line.
Proof. unfold run_lines. by rewrite fold_left_app. Qed.

Lemma run_lines_app lines rest :
  run_lines (lines ++ rest) = fold_left step rest (run_lines lines).
Proof. unfold run_lines. by rewrite fold_left_app. Qed.

(** A section is open only with its name, type and number at hand. *)
Lemma open_has_info lines :
  in_section (run_lines lines) = true ->
  is_Some (current_section_info (run_lines lines)).
Proof.
  induction lines as [|line lines IH] using rev_ind; [done|].
  rewrite run_lines_snoc. set (st := run_lines lines) in *.
  destruct (start_marker line) eqn:Hs.
  { rewrite step_start by done. simpl. eauto. }
  destruct (end_marker line) eqn:He.
  { rewrite step_end by done.
    destruct (in_section st) eqn:Hin; simpl; [done|]. by rewrite Hin. }
  destruct (step_body st line) as (_ & -> & -> & _); [|done].
  unfold boundary. by rewrite Hs, He.
Qed.

(** Lines without boundary markers only extend the open section. *)
Lemma fold_body body st :
  Forall (fun l => boundary l = false) body ->
  let st' := fold_left step body st in
  sections st' = sections st /\
  in_section st' = in_section st /\
  current_section_info st' = current_section_info st /\
  current_section_content st'
  = if in_section st then current_section_content st ++ body
    else current_section_content st.
Proof.
  intros Hb. revert st.
  induction Hb as [|line body Hl _ IH]; intros st; simpl.
  - by destruct (in_section st); rewrite ?app_nil_r.
  - destruct (step_body st line Hl) as (Hs & Hi & Hn & Hc).
    destruct (IH (step st line)) as (Hs' & Hi' & Hn' & Hc').
    rewrite Hs', Hi', Hn', Hc', Hs, Hi, Hn, Hc.
    repeat split. destruct (in_section st); [|done].
    by rewrite <- app_assoc.
Qed.

(** The sections already emitted stay, in their order. *)
Lemma sections_grow rest st :
  exists later, sections (fold_left step rest st) = sections st ++ later.
Proof.
  revert st. induction rest as [|line rest IH]; intros st; simpl.
  { exists []. by rewrite app_nil_r. }
  destruct (IH (step st line)) as (later & ->).
  assert (exists one, sections (step st line) = sections st ++ one)
    as (one & ->).
  { destruct (start_marker line) eqn:Hs.
    { rewrite step_start by done. simpl. unfold emit.
      destruct (in_section st), (current_section_info st); eauto;
        exists []; by rewrite app_nil_r. }
    destruct (end_marker line) eqn:He.
    { rewrite step_end by done. unfold emit.
      destruct (in_section st), (current_section_info st); simpl; eauto;
        exists []; by rewrite app_nil_r. }
    destruct (step_body st line) as (-> & _).
    { unfold boundary. by rewrite Hs, He. }
    exists []. by rewrite app_nil_r. }
  exists (one ++ later). by rewrite app_assoc.
Qed.

Lemma lookup_type_in table type_part value :
  lookup_type table type_part = Some value -> In value (map snd table).
Proof.
  induction table as [|[k v] table IH]; simpl; [done|].
  destruct (contains k type_part); [|by right; apply IH].
  intros [= ->]. by left.
Qed.

Lemma open_info_type label line :
  type_from line (info_type (open_info label (block_type_of line))).
Proof.
  unfold type_from, open_info.
  destruct label as [[|c l]|]; [by left| |by left].
  cbn [info_type].
  destruct (lookup_type label_to_type_map _) eqn:E; [|by left].
  right. by apply lookup_type_in in E.
Qed.

Lemma type_from_nonempty start ty :
  type_from start ty -> block_type_of start <> [] -> ty <> [].
Proof.
  intros [->|Hin] Hne; [done|].
  simpl in Hin. intros ->.
  repeat (destruct Hin as [Hin|Hin]; [discriminate Hin|]). done.
Qed.

Lemma block_of_snoc lines line sec :
  block_of lines sec -> block_of (lines ++ [line]) sec.
Proof.
  intros (pre & start & body & stop & post & -> & Hrest).
  exists pre, start, body, stop, (post ++ [line]).
  split; [|done]. by list_norm.
Qed.

Lemma emit_block lines line st sec :
  open_block lines st -> in_section st = true -> boundary line = true ->
  (forall x, In x (sections st) -> block_of lines x) ->
  In sec (emit st) -> block_of (lines ++ [line]) sec.
Proof.
  intros Hopen Hin Hb Hold Hsec.
  destruct (Hopen Hin) as (pre & start & info & Hl & Hs & Hbody & Hinfo & Hty).
  unfold emit in Hsec. rewrite Hinfo in Hsec.
  apply in_app_or in Hsec as [Hsec|[<-|[]]].
  - by apply block_of_snoc, Hold.
  - exists pre, start, (current_section_content st), line, [].
    split; [rewrite Hl; by list_norm|done].
Qed.

Lemma blocks_invariant lines :
  (forall sec, In sec (sections (run_lines lines)) -> block_of lines sec) /\
  open_block lines (run_lines lines).
Proof.
  induction lines as [|line lines [IHs IHo]] using rev_ind; [done|].
  rewrite run_lines_snoc. set (st := run_lines lines) in *.
  destruct (start_marker line) eqn:Hs.
  { rewrite step_start by done. simpl. split.
    - intros sec Hsec. destruct (in_section st) eqn:Hin.
      + eapply emit_block; eauto. unfold boundary. by rewrite Hs.
      + by apply block_of_snoc, IHs.
    - intros _. eexists lines, line, _. simpl.
      split; [done|]. split; [done|]. split; [constructor|].
      split; [done|]. apply open_info_type. }
  destruct (end_marker line) eqn:He.
  { rewrite step_end by done. destruct (in_section st) eqn:Hin; simpl.
    - split; [|done]. intros sec Hsec.
      eapply emit_block; eauto. unfold boundary. by rewrite Hs, He.
    - split; [intros sec Hsec; by apply block_of_snoc, IHs|].
      intros Hin'. fold st in Hin'. congruence. }
  assert (Hb : boundary line = false) by (unfold boundary; by rewrite Hs, He).
  destruct (step_body st line Hb) as (Hsec & Hin & Hinfo & Hcont).
  split.
  - rewrite Hsec. intros sec Hx. by apply block_of_snoc, IHs.
  - intros Hopen. rewrite Hin in Hopen.
    destruct (IHo Hopen) as (pre & start & info & Hl & Hst & Hbody & Hi & Hty).
    exists pre, start, info. rewrite Hcont, Hopen, Hinfo.
    split; [rewrite Hl; by list_norm|].
    split; [done|]. split; [|done].
    apply Forall_app. split; [done|]. by constructor.
Qed.

(** The state right after a start marker. *)
Lemma after_start pre start :
  start_marker start = true ->
  let st := run_lines (pre ++ [start]) in
  in_section st = true /\ current_section_content st = [] /\
  exists info, current_section_info st = Some info.
Proof.
  intros Hs. cbv zeta. rewrite run_lines_snoc, step_start by done.
  simpl. eauto.
Qed.

Lemma unterminated_dropped pre start tail :
  start_marker start = true ->
  Forall (fun l => boundary l = false) tail ->
  let st := run_lines (pre ++ start :: tail) in
  sections st = sections (run_lines (pre ++ [start])) /\
  in_section st = true /\
  current_section_content st = tail.
Proof.
  intros Hs Ht. cbv zeta.
  destruct (after_start pre start Hs) as (Hin & Hc & _).
  change (pre ++ start :: tail) with (pre ++ [start] ++ tail).
  rewrite app_assoc, run_lines_app.
  destruct (fold_body tail (run_lines (pre ++ [start])) Ht) as (-> & -> & _ & ->).
  by rewrite Hin, Hc.
Qed.

Lemma closed_at_next_start pre start body start2 rest :
  start_marker start = true ->
  Forall (fun l => boundary l = false) body ->
  start_marker start2 = true ->
  exists sec later,
    sections (run_lines (pre ++ start :: body ++ start2 :: rest))
    = sections (run_lines (pre ++ [start])) ++ sec :: later /\
    ChordProSection.content sec = body /\
    ChordProSection.raw_content sec = join [NL] body.
Proof.
  intros Hs Hb Hs2.
  destruct (unterminated_dropped pre start body Hs Hb) as (Hsec & Hin & Hc).
  pose proof (open_has_info _ Hin) as [info Hinfo].
  replace (pre ++ start :: body ++ start2 :: rest)
    with (((pre ++ start :: body) ++ [start2]) ++ rest)
    by (by list_norm).
  rewrite run_lines_app.
  destruct (sections_grow rest (run_lines ((pre ++ start :: body) ++ [start2])))
    as (later & ->).
  rewrite run_lines_snoc, step_start by done. simpl.
  rewrite Hin. unfold emit. rewrite Hinfo, Hsec, Hc.
  eexists _, later. rewrite <- app_assoc. simpl. done.
Qed.
End WithRuntime.
End Parser_facts.

(** ** The section deduplicator *)

Module Dedup_facts.
Import Dedup Dedup_spec.

Section WithRuntime.
Context `{PyRuntime}.

Lemma run_sections_snoc secs s :
  run_sections (secs ++ [s]) = step (run_sections secs) s.
Proof. unfold run_sections. by rewrite fold_left_app. Qed.

Lemma run_sections_consistent secs : consistent secs (run_sections secs).
Proof.
  induction secs as [|s secs IH] using rev_ind.
  { split; simpl; try done. }
  rewrite run_sections_snoc. set (st := run_sections secs) in *.
  destruct IH as [Hlen Hsound Hcomplete Hindex Hfrom].
  unfold step. destruct (section_map st !! content_hash s) as [i|] eqn:Hlook.
  - split; simpl.
    + rewrite !length_app. simpl. lia.
    + exact Hsound.
    + exact Hcomplete.
    + intros k x Hk. destruct (decide (k < length secs)) as [Hlt|Hge].
      * rewrite lookup_app_l in Hk by done.
        rewrite lookup_app_l by lia. by apply Hindex.
      * rewrite lookup_app_r in Hk by lia.
        destruct (k - length secs) as [|n] eqn:Hn; [|by destruct n].
        injection Hk as <-. exists i. split; [|done].
        rewrite lookup_app_r by lia.
        by replace (k - length (index_map st)) with 0 by lia.
    + intros u Hu. apply in_or_app. left. by apply Hfrom.
  - split; simpl.
    + rewrite !length_app. simpl. lia.
    + intros h i Hi. destruct (decide (content_hash s = h)) as [<-|Hne].
      * rewrite lookup_insert_eq in Hi. injection Hi as <-.
        exists s. split; [|done].
        rewrite lookup_app_r by lia. by rewrite Nat.sub_diag.
      * rewrite lookup_insert_ne in Hi by done.
        destruct (Hsound h i Hi) as (u & Hu & Hh).
        exists u. split; [|done]. rewrite lookup_app_l; [done|].
        by eapply lookup_lt_Some.
    + intros i u Hu.
      destruct (decide (i < length (unique_sections st))) as [Hlt|Hge].
      * rewrite lookup_app_l in Hu by done.
        pose proof (Hcomplete i u Hu) as Hc.
        rewrite lookup_insert_ne; [done|]. intros Heq.
        rewrite <- Heq in Hc. congruence.
      * rewrite lookup_app_r in Hu by lia.
        destruct (i - length (unique_sections st)) as [|n] eqn:Hn;
          [|by destruct n].
        injection Hu as <-.
        assert (i = length (unique_sections st)) as -> by lia.
        by rewrite lookup_insert_eq.
    + intros k x Hk. destruct (decide (k < length secs)) as [Hlt|Hge].
      * rewrite lookup_app_l in Hk by done.
        destruct (Hindex k x Hk) as (i & Hi & Hm).
        exists i. rewrite lookup_app_l by lia. split; [done|].
        rewrite lookup_insert_ne; [done|]. intros Heq.
        rewrite <- Heq in Hm. congruence.
      * rewrite lookup_app_r in Hk by lia.
        destruct (k - length secs) as [|n] eqn:Hn; [|by destruct n].
        injection Hk as <-. exists (length (unique_sections st)).
        split; [|by rewrite lookup_insert_eq].
        rewrite lookup_app_r by lia.
        by replace (k - length (index_map st)) with 0 by lia.
    + intros u Hu. apply in_app_or in Hu as [Hu|[<-|[]]].
      * apply in_or_app. left. by apply Hfrom.
      * apply in_or_app. right. by left.
Qed.

Lemma index_valid secs k v :
  snd (deduplicate_sections secs) !! k = Some v ->
  v < length (fst (deduplicate_sections secs)).
Proof.
  unfold deduplicate_sections. simpl. intros Hv.
  destruct (run_sections_consistent secs) as [Hlen Hsound _ Hindex _].
  assert (Hk : k < length secs).
  { rewrite <- Hlen. by eapply lookup_lt_Some. }
  destruct (lookup_lt_is_Some_2 secs k Hk) as [s Hs].
  destruct (Hindex k s Hs) as (i & Hi & Hm).
  assert (i = v) as -> by congruence.
  destruct (Hsound _ _ Hm) as (u & Hu & _). by eapply lookup_lt_Some.
Qed.

Lemma same_index_iff_hash secs i j si sj vi vj :
  secs !! i = Some si -> secs !! j = Some sj ->
  snd (deduplicate_sections secs) !! i = Some vi ->
  snd (deduplicate_sections secs) !! j = Some vj ->
  vi = vj <-> content_hash si = content_hash sj.
Proof.
  unfold deduplicate_sections. simpl. intros Hi Hj Hvi Hvj.
  destruct (run_sections_consistent secs) as [_ Hsound _ Hindex _].
  destruct (Hindex i si Hi) as (i' & Hi' & Hmi).
  destruct (Hindex j sj Hj) as (j' & Hj' & Hmj).
  assert (i' = vi) as -> by congruence.
  assert (j' = vj) as -> by congruence.
  split.
  - intros ->. destruct (Hsound _ _ Hmi) as (u & Hu & <-).
    destruct (Hsound _ _ Hmj) as (u' & Hu' & <-). congruence.
  - intros Heq. rewrite Heq in Hmi. congruence.
Qed.

(** The canonical section that an index selects has the content hash
    of the original. *)
Lemma canonical_hash secs k s v :
  secs !! k = Some s ->
  snd (deduplicate_sections secs) !! k = Some v ->
  exists u, fst (deduplicate_sections secs) !! v = Some u /\
            content_hash u = content_hash s /\ In u secs.
Proof.
  unfold deduplicate_sections. simpl. intros Hs Hv.
  destruct (run_sections_consistent secs) as [_ Hsound _ Hindex Hfrom].
  destruct (Hindex k s Hs) as (i & Hi & Hm).
  assert (i = v) as -> by congruence.
  destruct (Hsound _ _ Hm) as (u & Hu & Hh). exists u.
  split; [done|]. split; [done|]. apply Hfrom.
  apply list_elem_of_In. by eapply list_elem_of_lookup_2.
Qed.
End WithRuntime.
End Dedup_facts.

(** ** The show synthesizer *)

Module FreeShow_facts.
Import FreeShow Dedup Dedup_facts.

Section WithRuntime.
Context `{PyRuntime}.

(** The identifiers collected by the loop over the unique sections. *)
Lemma build_slides_ids us :
  forall i acc j u,
    us !! j = Some u ->
    snd (build_slides i us acc) !! (length (snd acc) + j)
    = Some (slide_id_of (i + j) u).
Proof.
  induction us as [|x us IH]; intros i acc j u Hu; [done|].
  simpl. destruct j as [|j]; simpl in Hu.
  - injection Hu as ->. rewrite !Nat.add_0_r.
    assert (Hpre : forall l k a x0,
      snd a !! length (snd acc) = Some x0 ->
      snd (build_slides k l a) !! length (snd acc) = Some x0).
    { induction l as [|y l IHl]; intros k a x0 Hx; simpl; [done|].
      apply IHl. simpl. rewrite lookup_app_l; [done|].
      by eapply lookup_lt_Some. }
    apply Hpre. simpl. rewrite lookup_app_r by lia.
    by rewrite Nat.sub_diag.
  - specialize (IH (S i)
      (<[slide_id_of i x := create_freeshow_slide x (slide_id_of i x)
           [(lit "verse", lit ""); (lit "chorus", lit "#f525d2");
            (lit "bridge", lit "#f52598")]]> acc.1,
       acc.2 ++ [slide_id_of i x]) j u Hu).
    simpl in IH. rewrite length_app in IH. simpl in IH.
    replace (length acc.2 + S j) with (length acc.2 + 1 + j) by lia.
    rewrite IH. f_equal. f_equal. lia.
Qed.

Lemma build_slides_length us :
  forall i acc,
    length (snd (build_slides i us acc)) = length (snd acc) + length us.
Proof.
  induction us as [|x us IH]; intros i acc; simpl; [lia|].
  rewrite IH. simpl. rewrite length_app. simpl. lia.
Qed.

Lemma build_layout_some ids im :
  Forall (fun v => v < length ids) im ->
  exists refs,
    build_layout ids im = Some refs /\
    length refs = length im /\
    forall k v, im !! k = Some v ->
      exists id, ids !! v = Some id /\ refs !! k = Some (Ref id).
Proof.
  unfold build_layout.
  induction 1 as [|v im Hv _ (refs & Hrefs & Hlen & Hk)].
  { exists []. by repeat split. }
  destruct (lookup_lt_is_Some_2 ids v Hv) as [id Hid].
  exists (Ref id :: refs). simpl. rewrite Hid. simpl. rewrite Hrefs. simpl.
  split; [done|]. split; [by rewrite Hlen|].
  intros [|k] w Hw; simpl in *; [|by apply Hk].
  injection Hw as <-. eauto.
Qed.
End WithRuntime.
End FreeShow_facts.

(** * The claims *)

Section Typography_claims.
Import FrenchPunctuationHandler Typography_spec Typography_facts.

(** The example of the specification: the space before the colon becomes
    a non-breaking space. *)
Example normalize_il_dit_bonjour :
  fix_french_punctuation (lit "Il dit : Bonjour")
  = lit "Il dit" ++ [NBSP] ++ lit ": Bonjour".
Proof. vm_compute. reflexivity. Qed.

(** C4, as stated, fails: a text in which no whitespace adjoins one of
    the six characters is not always returned unchanged. In ["a:b"] a
    non-breaking space is inserted before the colon. *)
Lemma normalizer_inserts_space_counterexample :
  ~ (forall s : str, no_space_adjoins s = true -> fix_french_punctuation s = s).
Proof.
  intros Hclaim. specialize (Hclaim (lit "a:b") eq_refl).
  vm_compute in Hclaim. discriminate Hclaim.
Qed.

(** C4, amended. For every string, the normalizer is [normalize_spec]:
    each maximal run of whitespace, the empty run included, that
    precedes one of [; : ! ? »] or follows [«] is replaced by exactly
    one non-breaking space, and every other character is copied. So in
    the result each of [; : ! ? »] stands right after a non-breaking
    space and each [«] right before one; the characters that are not
    whitespace are kept, in order; a string
    without any of the six characters is returned unchanged; the empty
    string and an argument that is not a string are returned unchanged. *)
Theorem fix_french_punctuation_normalizes (s : str) :
  fix_french_punctuation s = normalize_spec s
  /\ (forall i c, fix_french_punctuation s !! i = Some c ->
        double_punct c = true ->
        exists j, i = S j /\ fix_french_punctuation s !! j = Some NBSP)
  /\ (forall i, fix_french_punctuation s !! i = Some LAQUO ->
        fix_french_punctuation s !! S i = Some NBSP)
  /\ List.filter visible (fix_french_punctuation s) = List.filter visible s
  /\ (Forall (fun c => special c = false) s -> fix_french_punctuation s = s)
  /\ fix_french_punctuation [] = []
  /\ (forall o, (forall t, o <> PyStr t) -> fix_french_punctuation_obj o = o).
Proof.
  split; [apply fix_is_normalize|].
  destruct (normalize_from_spaced s false [] ltac:(constructor)) as [Hp Hl].
  rewrite fix_is_normalize. unfold normalize_spec.
  split; [exact Hp|]. split; [exact Hl|].
  rewrite <- fix_is_normalize.
  split.
  { rewrite fix_is_normalize. apply normalize_from_visible. constructor. }
  split.
  { intros Hs. rewrite fix_is_normalize. by apply (normalize_from_plain []). }
  split; [reflexivity|].
  intros o Ho. destruct o as [t| | |]; try reflexivity. by destruct (Ho t).
Qed.

(** A text without any of the six characters, and [None], come back as they are. *)
Lemma fix_french_punctuation_normalizes_witness :
  fix_french_punctuation (lit "Dieu est amour") = lit "Dieu est amour"
  /\ fix_french_punctuation_obj PyNone = PyNone.
Proof.
  destruct (fix_french_punctuation_normalizes (lit "Dieu est amour"))
    as (_ & _ & _ & _ & Hplain & _ & Hobj).
  split.
  - apply Hplain. vm_compute. repeat constructor.
  - apply Hobj. intros t. discriminate.
Defined.

(** C8. The normalizer is idempotent: applying it twice gives what
    applying it once gives. *)
Theorem fix_french_punctuation_idempotent (s : str) :
  fix_french_punctuation (fix_french_punctuation s) = fix_french_punctuation s.
Proof.
  rewrite !fix_is_normalize. unfold normalize_spec.
  by apply (normalize_from_idem (length s)).
Qed.

End Typography_claims.

Section Chord_claims.
Import Chords Chord_spec Chord_facts Chord_scan_spec Chord_scan_facts.
Context `{PyRuntime}.

(** C6. Every line has a scan: its chord annotations, read from left
    to right, and the line with exactly their markup left out. The
    text returned for the line is that text, and the chords returned
    are the annotations, one for each and in their order; so the
    length of the text returned is the length of the line minus the
    sum, over the annotations, of the lengths of the markup
    ["[" + chord + "]"]. *)
Theorem parse_chord_line_strips_markup (line : str) :
  (exists anns clean, scan 0 0 line anns clean)
  /\ forall anns clean,
       scan 0 0 line anns clean ->
       snd (parse_chord_line line) = clean
       /\ length (fst (parse_chord_line line)) = length anns
       /\ map chord (fst (parse_chord_line line)) = map symbol anns
       /\ map original_pos (fst (parse_chord_line line)) = map raw_offset anns
       /\ Z.of_nat (length (snd (parse_chord_line line)))
          = (Z.of_nat (length line) - markup_total anns)%Z.
Proof.
  split; [by apply (scan_total (length line))|].
  intros anns clean Hscan.
  destruct (chords_of_scan line anns clean Hscan) as (Hclean & Hlen & Hk).
  destruct (scan_offsets _ _ _ _ _ Hscan) as [Hl _].
  assert (Hmap : forall (A : Type) (f : chord_t -> A) (g : annotation -> A),
    (forall k a, anns !! k = Some a ->
       exists c, fst (parse_chord_line line) !! k = Some c /\ f c = g a) ->
    map f (fst (parse_chord_line line)) = map g anns).
  { intros A f g Hfg. apply list_eq. intros k. rewrite !list_lookup_fmap.
    destruct (anns !! k) as [a|] eqn:Ha.
    - destruct (Hfg k a Ha) as (c & -> & Hc). simpl. by rewrite Hc.
    - rewrite lookup_ge_None_2; [done|]. rewrite Hlen.
      by apply lookup_ge_None_1. }
  split; [done|]. split; [done|]. split.
  { apply Hmap. intros k a Ha.
    destruct (Hk k a Ha) as (c & Hc & Hch & _). eauto. }
  split.
  { apply Hmap. intros k a Ha.
    destruct (Hk k a Ha) as (c & Hc & _ & _ & Ho & _). eauto. }
  rewrite Hclean. unfold char in *.
  assert (0 <= markup_total anns)%Z.
  { clear. induction anns as [|x l IHl]; [done|].
    change (markup_total (x :: l))
      with (Z.of_nat (length (markup (symbol x))) + markup_total l)%Z.
    lia. }
  lia.
Qed.

(** C7. Every line has a scan into its chord annotations, and for
    every annotation of the scan there is a chord returned, at the same
    rank: its offset is the bracket offset of the annotation minus the
    lengths of the markup of the annotations found earlier, with zero
    as a floor. The bracket offset is where the markup of the
    annotation stands in the line, and the annotations found earlier
    stand to its left. There are no other chords, and no offset
    returned is negative. *)
Theorem parse_chord_line_offsets (line : str) :
  (exists anns clean, scan 0 0 line anns clean)
  /\ forall (anns : list annotation) (clean : str) (k : nat) (a : annotation),
       scan 0 0 line anns clean ->
       anns !! k = Some a ->
       (exists c,
          fst (parse_chord_line line) !! k = Some c
          /\ chord c = symbol a
          /\ original_pos c = raw_offset a
          /\ pos c
             = Z.max 0 (Z.of_nat (raw_offset a) - markup_total (take k anns)))
       /\ take (length (markup (symbol a))) (drop (raw_offset a) line)
          = markup (symbol a)
       /\ Forall (fun a' => raw_offset a' < raw_offset a) (take k anns)
       /\ length (fst (parse_chord_line line)) = length anns
       /\ Forall (fun c => (0 <= pos c)%Z) (fst (parse_chord_line line)).
Proof.
  split; [by apply (scan_total (length line))|].
  intros anns clean k a Hscan Ha.
  destruct (chords_of_scan line anns clean Hscan) as (_ & Hlen & Hk).
  destruct (scan_offsets _ _ _ _ _ Hscan) as [_ Hoff].
  destruct (Hk k a Ha) as (c & Hc & Hch & _ & Ho & Hpos & _).
  destruct (Hoff k a Ha) as (_ & _ & _ & _ & (rest & Hrest) & _ & _ & Hearlier).
  split; [by exists c|]. split.
  { rewrite Nat.sub_0_r in Hrest. rewrite Hrest. apply take_app_length. }
  split.
  { apply Forall_forall. intros a' Ha'.
    apply list_elem_of_lookup in Ha' as [i Hi].
    apply lookup_take_Some in Hi as [Hi Hlt].
    destruct (Hearlier i a' Hlt Hi) as [Hle _].
    rewrite markup_length in Hle. lia. }
  split; [done|].
  apply Forall_forall. intros c' Hc'.
  apply list_elem_of_lookup in Hc' as [i Hi].
  assert (Hlt : i < length anns).
  { rewrite <- Hlen. by eapply lookup_lt_Some. }
  destruct (lookup_lt_is_Some_2 anns i Hlt) as [a' Ha'].
  destruct (Hk i a' Ha') as (c'' & Hc'' & _ & _ & _ & Hp & _).
  assert (c'' = c') as -> by congruence. rewrite Hp. lia.
Qed.

End Chord_claims.

(** The scan of ["Dieu [C]est [G]amour"]. *)
Lemma scan_dieu_est_amour :
  Chord_scan_spec.scan 0 0 (lit "Dieu [C]est [G]amour")
    [ Chord_scan_spec.Annotation 5 5 (lit "C");
      Chord_scan_spec.Annotation 12 9 (lit "G") ]
    (lit "Dieu est amour").
Proof.
  do 5 (apply Chord_scan_spec.scan_text;
        [apply Chord_scan_facts.not_annotated_other; discriminate|]).
  apply (Chord_scan_spec.scan_chord _ _ _ (lit "C") (lit "est [G]amour"));
    [reflexivity | discriminate
    | apply (bool_decide_unpack _); vm_compute; exact I |].
  do 4 (apply Chord_scan_spec.scan_text;
        [apply Chord_scan_facts.not_annotated_other; discriminate|]).
  apply (Chord_scan_spec.scan_chord _ _ _ (lit "G") (lit "amour"));
    [reflexivity | discriminate
    | apply (bool_decide_unpack _); vm_compute; exact I |].
  do 5 (apply Chord_scan_spec.scan_text;
        [apply Chord_scan_facts.not_annotated_other; discriminate|]).
  apply Chord_scan_spec.scan_end.
Defined.

(** ["Dieu [C]est [G]amour"]: two annotations, six characters of markup. *)
Lemma parse_chord_line_strips_markup_witness :
  let line := lit "Dieu [C]est [G]amour" in
  snd (@Chords.parse_chord_line Ascii_runtime.runtime line)
  = lit "Dieu est amour"
  /\ length (fst (@Chords.parse_chord_line Ascii_runtime.runtime line)) = 2
  /\ Z.of_nat (length (snd (@Chords.parse_chord_line Ascii_runtime.runtime line)))
     = (20 - 6)%Z.
Proof.
  intros line.
  destruct (@parse_chord_line_strips_markup Ascii_runtime.runtime line)
    as [_ Hall].
  destruct (Hall _ _ scan_dieu_est_amour) as (Hclean & Hlen & _ & _ & Hsize).
  split; [exact Hclean|]. split; [exact Hlen | exact Hsize].
Defined.

(** The second annotation of the same line: bracket offset 12, three characters of markup before it. *)
Lemma parse_chord_line_offsets_witness :
  let line := lit "Dieu [C]est [G]amour" in
  exists c,
    fst (@Chords.parse_chord_line Ascii_runtime.runtime line) !! 1 = Some c
    /\ Chords.chord c = lit "G"
    /\ Chords.original_pos c = 12
    /\ Chords.pos c = Z.max 0 (12 - 3).
Proof.
  intros line.
  destruct (@parse_chord_line_offsets Ascii_runtime.runtime line)
    as [_ Hall].
  destruct (Hall _ _ 1 (Chord_scan_spec.Annotation 12 9 (lit "G"))
              scan_dieu_est_amour eq_refl)
    as (Hchord & _).
  exact Hchord.
Defined.

Section Parser_claims.
Import Parser Parser_spec Parser_facts.
Context `{PyRuntime}.

(** C3. When the lines after a start marker hold no further start or
    end marker, the section they belong to is still open when the input
    ends and is not emitted: the sections returned are those emitted by
    the lines up to that marker, whatever follows it. When instead a
    start marker comes next, the open section is closed and emitted at
    that marker, with the lines in between as its content. *)
Theorem unterminated_section_not_emitted
    (content : str) (pre : list str) (start : str) (body : list str) :
  start_marker start = true ->
  Forall (fun l => boundary l = false) body ->
  (split_lines content = pre ++ start :: body ->
     snd (parse_chordpro_file content) = sections (run_lines (pre ++ [start]))
     /\ in_section (run_lines (split_lines content)) = true
     /\ current_section_content (run_lines (split_lines content)) = body)
  /\ (forall start2 rest,
        start_marker start2 = true ->
        split_lines content = pre ++ start :: body ++ start2 :: rest ->
        exists sec later,
          snd (parse_chordpro_file content)
          = sections (run_lines (pre ++ [start])) ++ sec :: later
          /\ ChordProSection.content sec = body
          /\ ChordProSection.raw_content sec = join [NL] body).
Proof.
  intros Hs Hb. split.
  - intros Hl. unfold parse_chordpro_file. simpl. rewrite Hl.
    by apply unterminated_dropped.
  - intros start2 rest Hs2 Hl. unfold parse_chordpro_file. simpl. rewrite Hl.
    by apply closed_at_next_start.
Qed.

(** C5, amended. Every section emitted is a block of the input: its
    content is the list of the lines between its start marker and the
    next start or end marker, in their order and as they are, and its
    raw content joins them. Its type is a value of the synonym table or
    the block-type token of its start marker, so it is not empty when
    that token is not empty. *)
Theorem emitted_section_is_block (content : str) (sec : ChordProSection.t) :
  In sec (snd (parse_chordpro_file content)) ->
  exists pre start body stop post,
    split_lines content = pre ++ start :: body ++ stop :: post
    /\ start_marker start = true
    /\ Forall (fun l => boundary l = false) body
    /\ boundary stop = true
    /\ ChordProSection.content sec = body
    /\ ChordProSection.raw_content sec = join [NL] body
    /\ type_from start (ChordProSection.type sec)
    /\ (block_type_of start <> [] -> ChordProSection.type sec <> []).
Proof.
  intros Hsec. unfold parse_chordpro_file in Hsec. simpl in Hsec.
  destruct (blocks_invariant (split_lines content)) as [Hblocks _].
  destruct (Hblocks sec Hsec)
    as (pre & start & body & stop & post & Hl & Hs & Hb & Hstop & Hc & Hr & Hty).
  exists pre, start, body, stop, post. repeat (split; [done|]).
  by apply type_from_nonempty.
Qed.

End Parser_claims.

(** C5, as stated, fails: a start marker without block type and without
    a pending label opens a section of empty type, whatever the Python
    runtime is. *)
Lemma untyped_section_counterexample :
  ~ exists rt : PyRuntime,
      forall sec,
        In sec (snd (@Parser.parse_chordpro_file rt Parser_spec.untyped_document)) ->
        ChordProSection.type sec <> [].
Proof.
  intros [rt Hclaim].
  apply (Hclaim (ChordProSection.Make (@str_title rt []) [] None
                   [lit "Alleluia"] (lit "Alleluia"))); [|reflexivity].
  vm_compute. left. reflexivity.
Qed.

(** A chorus closed by the start of a verse that is itself never closed: only the chorus is returned. *)
Lemma unterminated_section_not_emitted_witness :
  snd (@Parser.parse_chordpro_file Ascii_runtime.runtime Parser_spec.open_document)
  = [ ChordProSection.Make (lit "Chorus") (lit "chorus") None
        [lit "Alleluia"] (lit "Alleluia") ]
  /\ Parser.current_section_content
       (@Parser.run_lines Ascii_runtime.runtime
          (split_lines Parser_spec.open_document))
     = [lit "Dieu est amour"].
Proof.
  destruct (@unterminated_section_not_emitted Ascii_runtime.runtime
              Parser_spec.open_document
              [lit "{start_of_chorus}"; lit "Alleluia"]
              (lit "{start_of_verse}") [lit "Dieu est amour"])
    as [Hdrop _].
  - reflexivity.
  - repeat constructor.
  - destruct (Hdrop eq_refl) as (Hsec & _ & Hcontent).
    split; [exact Hsec | exact Hcontent].
Defined.

(** The chorus of the same document is the block between its start marker and the next one. *)
Lemma emitted_section_is_block_witness :
  exists pre start body stop post,
    split_lines Parser_spec.open_document = pre ++ start :: body ++ stop :: post
    /\ body = [lit "Alleluia"]
    /\ Parser_spec.type_from start (lit "chorus").
Proof.
  destruct (@emitted_section_is_block Ascii_runtime.runtime
              Parser_spec.open_document
              (ChordProSection.Make (lit "Chorus") (lit "chorus") None
                 [lit "Alleluia"] (lit "Alleluia")))
    as (pre & start & body & stop & post & Hl & _ & _ & _ & Hc & _ & Hty & _).
  - left. reflexivity.
  - exists pre, start, body, stop, post. simpl in Hc, Hty. subst body.
    split; [exact Hl|]. split; [reflexivity | exact Hty].
Defined.

Section Dedup_claims.
Import Dedup Dedup_spec Dedup_facts.
Context `{PyRuntime}.

(** C1, amended. The index map has one entry for each original section
    and each of its values is an index into the canonical sequence,
    where it selects an original section with the same digest. Two
    original sections get the same canonical index exactly when the
    md5 digests of their content lines, comment lines left out and the
    rest joined by newlines, are equal. So sections with the same lines
    without comments always share an index, and, when the two digests
    do not collide, the sections share an index exactly when those
    joined texts are equal. *)
Theorem deduplicate_index_map
    (sections : list ChordProSection.t) (i j : nat)
    (si sj : ChordProSection.t) (vi vj : nat) :
  sections !! i = Some si -> sections !! j = Some sj ->
  snd (deduplicate_sections sections) !! i = Some vi ->
  snd (deduplicate_sections sections) !! j = Some vj ->
  length (snd (deduplicate_sections sections)) = length sections
  /\ vi < length (fst (deduplicate_sections sections))
  /\ (exists u, fst (deduplicate_sections sections) !! vi = Some u
                /\ content_hash u = content_hash si /\ In u sections)
  /\ (vi = vj <-> content_hash si = content_hash sj)
  /\ (content_lines si = content_lines sj -> vi = vj)
  /\ ((content_hash si = content_hash sj -> content_text si = content_text sj) ->
      (vi = vj <-> content_text si = content_text sj)).
Proof.
  intros Hi Hj Hvi Hvj.
  pose proof (same_index_iff_hash sections i j si sj vi vj Hi Hj Hvi Hvj) as Hiff.
  split.
  { unfold deduplicate_sections. simpl.
    apply (index_length _ _ (run_sections_consistent sections)). }
  split; [by eapply index_valid|].
  split; [by eapply canonical_hash|].
  split; [exact Hiff|].
  split.
  { intros Hlines. apply Hiff. unfold content_hash, content_text.
    by rewrite Hlines. }
  intros Hfree. rewrite Hiff. split; [exact Hfree|].
  intros Htext. unfold content_hash. by rewrite Htext.
Qed.

(** Two sections in a row with the same digest. *)
Lemma deduplicate_pair (s1 s2 : ChordProSection.t) :
  content_hash s1 = content_hash s2 ->
  deduplicate_sections [s1; s2] = ([s1], [0; 0]).
Proof.
  intros Heq. unfold deduplicate_sections, run_sections. cbn [fold_left].
  assert (H1 : step initial s1 = State [s1] (<[content_hash s1 := 0]> ∅) [0]).
  { unfold step, initial. simpl. by rewrite lookup_empty. }
  rewrite H1. unfold step. simpl.
  by rewrite <- Heq, lookup_insert_eq.
Qed.

End Dedup_claims.

(** C1, as stated, fails: an empty verse and a verse of one empty line
    get the same canonical index, whatever the digest is, although
    their lines are not the same. *)
Lemma blank_line_counterexample :
  ~ exists rt : PyRuntime,
      @Dedup_spec.index_iff_lines rt
        (snd (@Parser.parse_chordpro_file rt Dedup_spec.blank_document)).
Proof.
  intros [rt Hclaim].
  assert (Hparse :
    snd (@Parser.parse_chordpro_file rt Dedup_spec.blank_document)
    = [ ChordProSection.Make (@str_title rt (lit "verse")) (lit "verse") None [] [];
        ChordProSection.Make (@str_title rt (lit "verse")) (lit "verse") None [[]] [] ])
    by (vm_compute; reflexivity).
  rewrite Hparse in Hclaim.
  specialize (Hclaim 0 1 _ _ 0 0 eq_refl eq_refl).
  rewrite deduplicate_pair in Hclaim by reflexivity.
  destruct (Hclaim eq_refl eq_refl) as [Hlines _].
  discriminate (Hlines eq_refl).
Qed.

(** The first and the third section of chorus, verse, chorus. *)
Lemma deduplicate_index_map_witness :
  let sections :=
    snd (@Parser.parse_chordpro_file Ascii_runtime.runtime
           Dedup_spec.chorus_verse_chorus) in
  length (snd (@Dedup.deduplicate_sections Ascii_runtime.runtime sections)) = 3
  /\ 0 < length (fst (@Dedup.deduplicate_sections Ascii_runtime.runtime sections)).
Proof.
  intros sections.
  destruct (@deduplicate_index_map Ascii_runtime.runtime sections 0 2
              (ChordProSection.Make (lit "Chorus") (lit "chorus") None
                 [lit "[C]Alle[G]luia"] (lit "[C]Alle[G]luia"))
              (ChordProSection.Make (lit "Chorus") (lit "chorus") None
                 [lit "[C]Alle[G]luia"] (lit "[C]Alle[G]luia"))
              0 0 eq_refl eq_refl eq_refl eq_refl)
    as (Hlen & Hvalid & _).
  split; [exact Hlen | exact Hvalid].
Defined.

Section FreeShow_claims.
Import FreeShow Dedup Dedup_spec Dedup_facts FreeShow_facts.
Context `{PyRuntime}.

(** A section, another one, and a section with the digest of the first. *)
Lemma deduplicate_three (c1 v c2 : ChordProSection.t) :
  content_hash c1 = content_hash c2 ->
  content_hash c1 <> content_hash v ->
  deduplicate_sections [c1; v; c2] = ([c1; v], [0; 1; 0]).
Proof.
  intros Heq Hne. unfold deduplicate_sections, run_sections. cbn [fold_left].
  assert (H1 : step initial c1 = State [c1] (<[content_hash c1 := 0]> ∅) [0]).
  { unfold step, initial. simpl. by rewrite lookup_empty. }
  rewrite H1.
  assert (H2 : step (State [c1] (<[content_hash c1 := 0]> ∅) [0]) v
    = State [c1; v] (<[content_hash v := 1]> (<[content_hash c1 := 0]> ∅)) [0; 1]).
  { unfold step. simpl. rewrite lookup_insert_ne by done.
    by rewrite lookup_empty. }
  rewrite H2. unfold step. simpl. rewrite <- Heq.
  rewrite lookup_insert_ne by congruence. by rewrite lookup_insert_eq.
Qed.

(** C2. The show is produced, and its layout has one slide reference
    for each original section: position [k] refers to the slide
    identifier of the canonical section of index [index_map[k]], so
    positions with the same index refer to the same slide. For a chorus,
    a verse with another digest and the same chorus again, there are
    two canonical sections and the layout is [[A, B, A]]. *)
Theorem layout_mirrors_sections (content filename : str) :
  let sections := snd (Parser.parse_chordpro_file content) in
  let unique := fst (deduplicate_sections sections) in
  let index_map := snd (deduplicate_sections sections) in
  let layout_id := take 11 (md5_hexdigest (lit "layout" ++ filename)) in
  exists show refs,
    generate_freeshow_file content filename = Some show
    /\ layouts show
       = {[ layout_id := Layout (lit "Default") (lit "1 voix") refs ]}
    /\ length refs = length sections
    /\ (forall k v, index_map !! k = Some v ->
          exists u, unique !! v = Some u
                    /\ refs !! k = Some (Ref (slide_id_of v u)))
    /\ (forall k k' v, index_map !! k = Some v -> index_map !! k' = Some v ->
          refs !! k = refs !! k')
    /\ (forall c1 v c2,
          sections = [c1; v; c2] ->
          content_lines c1 = content_lines c2 ->
          content_hash c1 <> content_hash v ->
          unique = [c1; v]
          /\ refs = [ Ref (slide_id_of 0 c1); Ref (slide_id_of 1 v);
                      Ref (slide_id_of 0 c1) ]).
Proof.
  cbv zeta. unfold generate_freeshow_file.
  destruct (Parser.parse_chordpro_file content) as [md secs]. cbn [fst snd].
  pose proof (index_valid secs) as Hvalid.
  pose proof (index_length _ _ (run_sections_consistent secs)) as Hlen.
  change (length (snd (deduplicate_sections secs)) = length secs) in Hlen.
  pose proof (deduplicate_three) as Hthree.
  destruct (deduplicate_sections secs) as [us im] eqn:Hd. cbn [fst snd] in *.
  pose proof (build_slides_length us 0 (∅, [])) as Hids.
  pose proof (build_slides_ids us 0 (∅, [])) as Hid.
  destruct (build_slides 0 us (∅, [])) as [slides ids]. cbn [fst snd] in *.
  destruct (build_layout_some ids im) as (refs & Hrefs & Hl & Hk).
  { apply List.Forall_forall. intros v Hv. rewrite <- list_elem_of_In in Hv.
    apply list_elem_of_lookup in Hv as [k Hv]. rewrite Hids. by eapply Hvalid. }
  rewrite Hrefs. cbn [mbind option_bind]. eexists _, refs.
  split; [reflexivity|]. cbn [layouts].
  split; [done|]. split; [lia|].
  assert (Hpos : forall k v, im !! k = Some v ->
    exists u, us !! v = Some u /\ refs !! k = Some (Ref (slide_id_of v u))).
  { intros k v Hv. destruct (Hk k v Hv) as (id & Hidv & Hr).
    assert (Hlt : v < length us) by (by eapply Hvalid).
    destruct (lookup_lt_is_Some_2 us v Hlt) as [u Hu].
    exists u. split; [done|]. rewrite Hr. do 2 f_equal.
    specialize (Hid v u Hu). simpl in Hid. congruence. }
  split; [exact Hpos|]. split.
  { intros k k' v Hv Hv'. destruct (Hpos k v Hv) as (u & Hu & ->).
    destruct (Hpos k' v Hv') as (u' & Hu' & ->). congruence. }
  intros c1 v c2 -> Hlines Hne.
  assert (Heq : content_hash c1 = content_hash c2).
  { unfold content_hash, content_text. by rewrite Hlines. }
  rewrite (Hthree c1 v c2 Heq Hne) in Hd. injection Hd as <- <-.
  split; [done|].
  destruct (Hpos 0 0 eq_refl) as (u0 & Hu0 & Hr0).
  destruct (Hpos 1 1 eq_refl) as (u1 & Hu1 & Hr1).
  destruct (Hpos 2 0 eq_refl) as (u2 & Hu2 & Hr2).
  injection Hu0 as <-. injection Hu1 as <-. injection Hu2 as <-.
  destruct refs as [|r0 [|r1 [|r2 [|r3 refs]]]]; simpl in Hl; try lia.
  simpl in Hr0, Hr1, Hr2. congruence.
Qed.

End FreeShow_claims.

(** Chorus, verse, chorus, with the text itself as digest: the layout is [A, B, A]. *)
Lemma layout_mirrors_sections_witness :
  exists show,
    @FreeShow.generate_freeshow_file Ascii_runtime.runtime
      Dedup_spec.chorus_verse_chorus (lit "jem001") = Some show
    /\ FreeShow.layouts show
       = {[ lit "layoutjem00" :=
              FreeShow.Layout (lit "Default") (lit "1 voix")
                [ FreeShow.Ref (lit "chorus0[C]A");
                  FreeShow.Ref (lit "verse1Dieu ");
                  FreeShow.Ref (lit "chorus0[C]A") ] ]}.
Proof.
  destruct (@layout_mirrors_sections Ascii_runtime.runtime
              Dedup_spec.chorus_verse_chorus (lit "jem001"))
    as (show & refs & Hshow & Hlayout & _ & _ & _ & Hexample).
  destruct (Hexample
              (ChordProSection.Make (lit "Chorus") (lit "chorus") None
                 [lit "[C]Alle[G]luia"] (lit "[C]Alle[G]luia"))
              (ChordProSection.Make (lit "Verse") (lit "verse") None
                 [lit "Dieu [C]est [G]amour"] (lit "Dieu [C]est [G]amour"))
              (ChordProSection.Make (lit "Chorus") (lit "chorus") None
                 [lit "[C]Alle[G]luia"] (lit "[C]Alle[G]luia")))
    as [_ Hrefs].
  - reflexivity.
  - reflexivity.
  - vm_compute. discriminate.
  - exists show. split; [exact Hshow|]. rewrite Hlayout, Hrefs. reflexivity.
Defined.

Section Enhance_claims.
Import Enhance Enhance_spec.
Context `{PyRuntime}.

Lemma directive_name (name value name' value' : str) (a b : char) (r r' : str) :
  name = a :: r -> name' = b :: r' -> a <> b ->
  directive name value <> directive name' value'.
Proof.
  intros -> -> Hab Heq. unfold directive in Heq.
  change (lit "{") with [123%N] in Heq. simpl in Heq. congruence.
Qed.

(** C9. When the lowercased stem of the file name is not a key of the
    metadata table, the enhanced document is still produced, and its
    header block, the lines before the blank separator, holds the key
    directive of the source when the source has one and nothing else:
    no number, title, lyricist, composer, copyright or year line. *)
Theorem enhance_without_metadata
    (table : gmap str SongMetadata.t) (content filename : str) :
  table !! str_lower filename = None ->
  let file_metadata := fst (Parser.parse_chordpro_file content) in
  let sections := snd (Parser.parse_chordpro_file content) in
  header_lines table file_metadata filename
  = match file_metadata !! lit "key" with
    | Some k => [ directive (lit "key") k ]
    | None => []
    end
  /\ output_lines table content filename
     = header_lines table file_metadata filename
       ++ [[]] ++ concat (map section_lines sections)
  /\ enhance_chordpro table content filename
     = join [NL] (output_lines table content filename)
  /\ (forall l name value,
        In l (header_lines table file_metadata filename) ->
        In name enrichment_names -> l <> directive name value).
Proof.
  intros Hmiss. cbv zeta.
  assert (Hh : header_lines table (fst (Parser.parse_chordpro_file content)) filename
    = match fst (Parser.parse_chordpro_file content) !! lit "key" with
      | Some k => [ directive (lit "key") k ]
      | None => []
      end).
  { unfold header_lines. by rewrite Hmiss. }
  split; [exact Hh|]. split.
  { unfold output_lines. by destruct (Parser.parse_chordpro_file content). }
  split; [reflexivity|].
  intros l name value Hl Hname. rewrite Hh in Hl.
  destruct (fst (Parser.parse_chordpro_file content) !! lit "key") as [k|];
    [|destruct Hl].
  destruct Hl as [<-|[]].
  unfold enrichment_names in Hname.
  repeat (destruct Hname as [<-|Hname];
          [eapply directive_name; [reflexivity|reflexivity|discriminate]|]).
  destruct Hname.
Qed.

End Enhance_claims.

(** A song with a key and an empty metadata table: the header is the key directive alone. *)
Lemma enhance_without_metadata_witness :
  @Enhance.output_lines Ascii_runtime.runtime ∅
    Enhance_spec.keyed_document (lit "jem001")
  = [ lit "{key: G}"; []; lit "{start_of_verse}"; lit "Dieu est amour";
      lit "{end_of_verse}"; [] ].
Proof.
  destruct (@enhance_without_metadata Ascii_runtime.runtime ∅
              Enhance_spec.keyed_document (lit "jem001"))
    as (Hheader & Hlines & _).
  - reflexivity.
  - rewrite Hlines, Hheader. vm_compute. reflexivity.
Defined.

Section Comment_claims.
Import Dedup FreeShow.
Context `{PyRuntime}.

Lemma line_step_append (lines_data : list line_data) (line : str) :
  line_step lines_data line = lines_data ++ line_step [] line.
Proof.
  unfold line_step. destruct (startswith line (lit "{c:")); [by rewrite app_nil_r|].
  destruct (strip line); [by rewrite app_nil_r|done].
Qed.

Lemma fold_line_step (content : list str) (acc : list line_data) :
  fold_left line_step content acc = acc ++ slide_lines content.
Proof.
  unfold slide_lines. revert acc.
  induction content as [|line content IH]; intros acc; simpl.
  - by rewrite app_nil_r.
  - rewrite (IH (line_step acc line)), (IH (line_step [] line)).
    rewrite (line_step_append acc). by rewrite app_assoc.
Qed.

Lemma slide_lines_app (pre post : list str) :
  slide_lines (pre ++ post) = slide_lines pre ++ slide_lines post.
Proof.
  unfold slide_lines at 1. rewrite fold_left_app. apply fold_line_step.
Qed.


End Comment_claims.


(** * Further properties of the program *)

(** ** Stripping and greedy repetition *)

Section Strip_facts.

Lemma lstrip_visible (c : char) (s : str) :
  isspace c = false -> lstrip (c :: s) = c :: s.
Proof. intros Hc. unfold lstrip. simpl. by rewrite Hc. Qed.

Lemma rstrip_visible (s : str) (c : char) :
  isspace c = false -> rstrip (s ++ [c]) = s ++ [c].
Proof.
  intros Hc. unfold rstrip. rewrite rev_app_distr. simpl. rewrite Hc.
  simpl. by rewrite rev_involutive.
Qed.

(** A text between two visible characters is its own stripped form. *)
Lemma strip_visible (a : char) (s : str) (b : char) :
  isspace a = false -> isspace b = false ->
  strip (a :: s ++ [b]) = a :: s ++ [b].
Proof.
  intros Ha Hb. unfold strip. rewrite lstrip_visible by done.
  apply (rstrip_visible (a :: s) b Hb).
Qed.

End Strip_facts.

Section Star_facts.
Import Re Re_facts.
Context {A : Type}.
Implicit Types k : str -> nat -> option A.

(** Greedy [p*] on a run of [p] that ends the text, when what follows
    the star fails at the end of the text and succeeds one character
    before it: the star gives that character back. *)
Lemma star_loop_give_back p k w c pos x :
  all_of p w -> p c = true ->
  (forall q, k [] q = None) ->
  k [c] (pos + length w) = Some x ->
  star_loop p k (w ++ [c]) pos = Some x.
Proof.
  intros Hw Hc Hend. revert pos.
  induction Hw as [|a w Ha _ IH]; simpl; intros pos Hk.
  - rewrite Hc, Hend. by rewrite Nat.add_0_r in Hk.
  - rewrite Ha. rewrite (IH (S pos)); [done|].
    by replace (S pos + length w) with (pos + S (length w)) by lia.
Qed.

End Star_facts.

(** ** Lines of a text and sections of a file *)

Section Lines_facts.

Lemma split_lines_cons (s : str) : exists l ls, split_lines s = l :: ls.
Proof.
  induction s as [|c s (l & ls & IH)]; simpl; [eauto|].
  destruct (c =? NL)%N; [eauto|]. rewrite IH. eauto.
Qed.

Lemma join_cons (l : str) (ls : list str) :
  join [NL] (l :: ls) = match ls with [] => l | _ => l ++ [NL] ++ join [NL] ls end.
Proof. by destruct ls. Qed.

Lemma split_lines_nl_free (s : str) : Forall nl_free (split_lines s).
Proof.
  induction s as [|c s IH]; simpl; [by repeat constructor|].
  destruct (N.eqb_spec c NL) as [->|Hc]; [constructor; [constructor|done]|].
  destruct (split_lines s) as [|l ls]; [by repeat constructor|].
  inversion IH; subst. constructor; [by constructor|done].
Qed.

Lemma split_lines_nl_free_app (l : str) (s : str) :
  nl_free l ->
  split_lines (l ++ NL :: s) = l :: split_lines s.
Proof.
  induction 1 as [|c l Hc _ IH]; simpl; [done|].
  destruct (N.eqb_spec c NL); [done|]. by rewrite IH.
Qed.

Lemma split_lines_one (l : str) : nl_free l -> split_lines l = [l].
Proof.
  induction 1 as [|c l Hc _ IH]; simpl; [done|].
  destruct (N.eqb_spec c NL); [done|]. by rewrite IH.
Qed.

(** Splitting joined lines gives the lines back, when there is a line
    and no line holds a newline. *)
Lemma split_lines_join (ls : list str) :
  ls <> [] -> Forall nl_free ls -> split_lines (join [NL] ls) = ls.
Proof.
  intros Hne Hls. induction Hls as [|l ls Hl Hls IH]; [done|].
  rewrite join_cons. destruct ls as [|l' ls]; [by apply split_lines_one|].
  change (l ++ [NL] ++ join [NL] (l' :: ls)) with (l ++ NL :: join [NL] (l' :: ls)).
  rewrite split_lines_nl_free_app by done. f_equal. by apply IH.
Qed.

End Lines_facts.

Section Parser_extras.
Import Parser Parser_spec Parser_facts.
Context `{PyRuntime}.

(** The raw content of an emitted section splits back into its content
    lines, which hold no newline; a section without line has an empty
    raw content. *)
Theorem raw_content_splits_back (content : str) (sec : ChordProSection.t) :
  In sec (snd (parse_chordpro_file content)) ->
  Forall nl_free (ChordProSection.content sec)
  /\ ChordProSection.raw_content sec = join [NL] (ChordProSection.content sec)
  /\ (ChordProSection.content sec <> [] ->
      split_lines (ChordProSection.raw_content sec) = ChordProSection.content sec)
  /\ (ChordProSection.content sec = [] -> ChordProSection.raw_content sec = []).
Proof.
  intros Hsec. unfold parse_chordpro_file in Hsec. simpl in Hsec.
  destruct (blocks_invariant (split_lines content)) as [Hblocks _].
  destruct (Hblocks sec Hsec)
    as (pre & start & body & stop & post & Hl & _ & _ & _ & Hc & Hr & _).
  assert (Hfree : Forall nl_free body).
  { pose proof (split_lines_nl_free content) as Hall. rewrite Hl in Hall.
    apply Forall_app in Hall as [_ Hall]. inversion Hall as [|? ? _ Hall']; subst.
    by apply Forall_app in Hall' as [Hb _]. }
  rewrite Hc, Hr. split; [done|]. split; [done|].
  split; [intros Hne; by apply split_lines_join|]. by intros ->.
Qed.

(** Each start marker opens one section, and every section opened is
    emitted but the one still open when the input ends. *)
Lemma section_count_lines (lines : list str) :
  length (sections (run_lines lines))
  + (if in_section (run_lines lines) then 1 else 0)
  = length (start_markers lines).
Proof.
  induction lines as [|line lines IH] using rev_ind; [done|].
  rewrite run_lines_snoc. unfold start_markers in *.
  rewrite List.filter_app, length_app. simpl.
  pose proof (open_has_info lines) as Hinfo.
  set (st := run_lines lines) in *.
  destruct (start_marker line) eqn:Hs.
  { rewrite step_start by done. simpl. unfold emit.
    destruct (in_section st); [|lia].
    destruct (Hinfo eq_refl) as [info ->]. rewrite length_app. simpl. lia. }
  destruct (end_marker line) eqn:He.
  { rewrite step_end by done. unfold emit.
    destruct (in_section st) eqn:Hin; simpl; [|rewrite Hin; lia].
    destruct (Hinfo eq_refl) as [info ->]. rewrite length_app. simpl. lia. }
  destruct (step_body st line) as (-> & -> & _).
  { unfold boundary. by rewrite Hs, He. }
  simpl. lia.
Qed.

Theorem section_count (content : str) :
  length (snd (parse_chordpro_file content))
  + (if in_section (run_lines (split_lines content)) then 1 else 0)
  = length (start_markers (split_lines content))
  /\ length (snd (parse_chordpro_file content))
     <= length (start_markers (split_lines content)).
Proof.
  pose proof (section_count_lines (split_lines content)) as Hc.
  unfold parse_chordpro_file. simpl. split; [exact Hc|lia].
Qed.

End Parser_extras.

(** The chorus of a document whose last verse is left open. *)
Lemma raw_content_splits_back_witness :
  split_lines (lit "Alleluia") = [lit "Alleluia"].
Proof.
  destruct (@raw_content_splits_back Ascii_runtime.runtime
              Parser_spec.open_document
              (ChordProSection.Make (lit "Chorus") (lit "chorus") None
                 [lit "Alleluia"] (lit "Alleluia")))
    as (_ & _ & Hsplit & _).
  - left. reflexivity.
  - apply Hsplit. discriminate.
Defined.

(** ** The canonical sections *)

Section Dedup_extras.
Import Dedup Dedup_spec Dedup_facts.
Context `{PyRuntime}.

(** The canonical sections after the sections [secs]: their digests
    differ, they are met in this order in [secs], and each one is the
    first section of [secs] with its digest, where the index map holds
    its index. *)
Lemma run_sections_canonical (secs : list ChordProSection.t) :
  let st := run_sections secs in
  NoDup (map content_hash (unique_sections st))
  /\ sublist (unique_sections st) secs
  /\ (forall v u, unique_sections st !! v = Some u ->
        exists k0, secs !! k0 = Some u /\ index_map st !! k0 = Some v
                   /\ v <= k0
                   /\ forall j s, j < k0 -> secs !! j = Some s ->
                        content_hash s <> content_hash u).
Proof.
  cbv zeta. induction secs as [|s secs (IHn & IHs & IHf)] using rev_ind.
  { split; [constructor|]. split; [constructor|]. intros v u Hu. done. }
  rewrite run_sections_snoc.
  pose proof (run_sections_consistent secs) as [Hlen Hsound Hcomplete Hindex Hfrom].
  set (st := run_sections secs) in *.
  assert (Hul : length (unique_sections st) <= length secs)
    by (by apply sublist_length).
  assert (Hkeep : forall v u,
    unique_sections st !! v = Some u ->
    exists k0, (secs ++ [s]) !! k0 = Some u
               /\ (index_map st ++ [length (unique_sections st)]) !! k0 = Some v
               /\ v <= k0
               /\ forall j s0, j < k0 -> (secs ++ [s]) !! j = Some s0 ->
                    content_hash s0 <> content_hash u).
  { intros v u Hu. destruct (IHf v u Hu) as (k0 & Hk0 & Hi0 & Hv & Hfirst).
    assert (k0 < length secs) by (by eapply lookup_lt_Some).
    exists k0. rewrite !lookup_app_l by lia.
    split; [done|]. split; [done|]. split; [done|].
    intros j s0 Hj Hs0. rewrite lookup_app_l in Hs0 by lia. by eapply Hfirst. }
  unfold step. destruct (section_map st !! content_hash s) as [i|] eqn:Hlook;
    simpl.
  - split; [done|]. split; [by apply sublist_inserts_r|].
    intros v u Hu. destruct (IHf v u Hu) as (k0 & Hk0 & Hi0 & Hv & Hfirst).
    assert (k0 < length secs) by (by eapply lookup_lt_Some).
    exists k0. rewrite !lookup_app_l by lia.
    split; [done|]. split; [done|]. split; [done|].
    intros j s0 Hj Hs0. rewrite lookup_app_l in Hs0 by lia. by eapply Hfirst.
  - split.
    { rewrite map_app. simpl. apply NoDup_app. split; [done|].
      split; [|by apply NoDup_singleton].
      intros h Hh Hh'. apply list_elem_of_singleton in Hh' as ->.
      apply list_elem_of_fmap in Hh as (u & Hu & Hin).
      apply list_elem_of_lookup in Hin as [v Hv].
      apply Hcomplete in Hv. congruence. }
    split; [by apply sublist_app|].
    intros v u Hu.
    destruct (decide (v < length (unique_sections st))) as [Hlt|Hge].
    + rewrite lookup_app_l in Hu by done. by apply Hkeep.
    + rewrite lookup_app_r in Hu by lia.
      destruct (v - length (unique_sections st)) as [|n] eqn:Hn; [|by destruct n].
      injection Hu as <-. exists (length secs).
      rewrite lookup_app_r by lia. rewrite Nat.sub_diag.
      split; [done|]. rewrite lookup_app_r by lia.
      replace (length secs - length (index_map st)) with 0 by lia.
      split; [simpl; f_equal; lia|]. split; [lia|].
      intros j s0 Hj Hs0 Heq. rewrite lookup_app_l in Hs0 by lia.
      destruct (Hindex j s0 Hs0) as (i & _ & Hm). rewrite Heq in Hm. congruence.
Qed.

(** No two canonical sections have the same digest, and there are no
    more of them than sections. *)
Theorem canonical_digests_distinct (sections : list ChordProSection.t) :
  NoDup (map content_hash (fst (deduplicate_sections sections)))
  /\ length (fst (deduplicate_sections sections)) <= length sections.
Proof.
  destruct (run_sections_canonical sections) as (Hn & Hs & _).
  split; [exact Hn|]. by apply sublist_length.
Qed.

(** The canonical sequence keeps the order of the input: it is a
    subsequence of it, and the section of canonical index [v] is the
    first section of the input with its digest; the index map holds [v]
    there, and nowhere before. *)
Theorem canonical_first_occurrence
    (sections : list ChordProSection.t) (v : nat) (u : ChordProSection.t) :
  fst (deduplicate_sections sections) !! v = Some u ->
  sublist (fst (deduplicate_sections sections)) sections
  /\ exists k0,
       sections !! k0 = Some u
       /\ snd (deduplicate_sections sections) !! k0 = Some v
       /\ (forall j s, j < k0 -> sections !! j = Some s ->
             content_hash s <> content_hash u)
       /\ (forall k, snd (deduplicate_sections sections) !! k = Some v ->
             k0 <= k /\ v <= k).
Proof.
  intros Hu. destruct (run_sections_canonical sections) as (_ & Hs & Hf).
  split; [exact Hs|].
  destruct (Hf v u Hu) as (k0 & Hk0 & Hi0 & Hv & Hfirst).
  exists k0. split; [done|]. split; [done|]. split; [done|].
  intros k Hk.
  assert (Hlt : k < length sections).
  { rewrite <- (index_length _ _ (run_sections_consistent sections)).
    by eapply lookup_lt_Some. }
  destruct (lookup_lt_is_Some_2 sections k Hlt) as [s Hsk].
  destruct (canonical_hash sections k s v Hsk Hk) as (u' & Hu' & Hh & _).
  assert (u' = u) as -> by congruence.
  destruct (decide (k0 <= k)) as [Hle|Hgt]; [lia|].
  exfalso. apply (Hfirst k s); [lia|done|by symmetry].
Qed.

(** When the digests of the sections differ, nothing is folded: the
    canonical sequence is the input and the index map counts from 0. *)
Lemma deduplicate_distinct (secs : list ChordProSection.t) :
  NoDup (map content_hash secs) ->
  run_sections secs
  = State secs (section_map (run_sections secs)) (seq 0 (length secs)).
Proof.
  induction secs as [|s secs IH] using rev_ind; intros Hnd; [done|].
  rewrite map_app in Hnd. apply NoDup_app in Hnd as (Hnd & Hfresh & _).
  rewrite run_sections_snoc.
  pose proof (run_sections_consistent secs) as [_ Hsound _ _ _].
  specialize (IH Hnd). set (st := run_sections secs) in *.
  unfold step. destruct (section_map st !! content_hash s) as [i|] eqn:Hlook.
  - exfalso. destruct (Hsound _ _ Hlook) as (u & Hu & Hh).
    rewrite IH in Hu. simpl in Hu.
    apply (Hfresh (content_hash s)); [|simpl; by left].
    rewrite <- Hh. apply list_elem_of_fmap. exists u. split; [done|].
    by eapply list_elem_of_lookup_2.
  - rewrite IH. simpl. rewrite length_app. simpl.
    rewrite Nat.add_1_r, seq_S. simpl. reflexivity.
Qed.

(** Deduplication is idempotent: the canonical sequence is its own
    canonical sequence, with the index map [0, 1, ..., n-1]. *)
Theorem deduplicate_idempotent (sections : list ChordProSection.t) :
  let unique := fst (deduplicate_sections sections) in
  deduplicate_sections unique = (unique, seq 0 (length unique)).
Proof.
  cbv zeta. destruct (run_sections_canonical sections) as (Hnd & _).
  change (unique_sections (run_sections sections))
    with (fst (deduplicate_sections sections)) in Hnd.
  unfold deduplicate_sections at 1.
  by rewrite (deduplicate_distinct _ Hnd).
Qed.

End Dedup_extras.

(** Chorus, verse, chorus: the chorus is the canonical section 0, first met at position 0. *)
Lemma canonical_first_occurrence_witness :
  let sections :=
    snd (@Parser.parse_chordpro_file Ascii_runtime.runtime
           Dedup_spec.chorus_verse_chorus) in
  exists k0,
    snd (@Dedup.deduplicate_sections Ascii_runtime.runtime sections) !! k0
    = Some 0
    /\ forall k,
         snd (@Dedup.deduplicate_sections Ascii_runtime.runtime sections) !! k
         = Some 0 -> k0 <= k.
Proof.
  intros sections.
  destruct (@canonical_first_occurrence Ascii_runtime.runtime sections 0
              (ChordProSection.Make (lit "Chorus") (lit "chorus") None
                 [lit "[C]Alle[G]luia"] (lit "[C]Alle[G]luia")) eq_refl)
    as (_ & k0 & _ & Hk0 & _ & Hmin).
  exists k0. split; [exact Hk0|]. intros k Hk. exact (proj1 (Hmin k Hk)).
Defined.

(** ** Directive lines *)

Section Directive_extras.
Import Re Re_facts Parser Parser_spec Parser_facts.
Context `{PyRuntime}.

Lemma directive_cons (name value : str) :
  Enhance.directive name value
  = 123%N :: name ++ 58%N :: 32%N :: value ++ [125%N].
Proof.
  unfold Enhance.directive. change (lit "{") with [123%N].
  change (lit ": ") with [58%N; 32%N]. change (lit "}") with [125%N].
  simpl. done.
Qed.

Lemma match_directive (n0 : char) (name value : str) :
  n0 <> 58%N -> Forall (fun c => c <> 58%N) name -> nl_free value ->
  exists e,
    re_match DIRECTIVE_PATTERN
      (123%N :: (n0 :: name) ++ 58%N :: 32%N :: value ++ [125%N])
    = Some (Match 0 e (<[2 := 32%N :: value]> (<[1 := n0 :: name]> ∅))).
Proof.
  intros Hn0 Hname Hvalue. eexists.
  unfold re_match, match_at, DIRECTIVE_PATTERN, Chr, Plus, Opt.
  cbn [run app]. rewrite N.eqb_refl.
  apply N.eqb_neq in Hn0. rewrite Hn0. cbn [negb].
  assert (Hp : all_of (fun c => negb (c =? 58)%N) name).
  { eapply Forall_impl; [exact Hname|]. simpl. intros c Hc.
    apply N.eqb_neq in Hc. by rewrite Hc. }
  apply star_loop_longest; [exact Hp|done|].
  cbv beta iota. rewrite N.eqb_refl.
  assert (Hq : all_of (fun c => negb (c =? NL)%N) (32%N :: value)).
  { constructor; [done|]. eapply Forall_impl; [exact Hvalue|]. simpl.
    intros c Hc. apply N.eqb_neq in Hc. by rewrite Hc. }
  change (32%N :: value ++ [125%N]) with ((32%N :: value) ++ [125%N]).
  erewrite star_loop_give_back; cycle 1.
  { exact Hq. }
  { done. }
  { done. }
  { cbv beta iota. rewrite N.eqb_refl. reflexivity. }
  do 2 f_equal.
  assert (H2 : take (S (2 + length name) + length (32%N :: value)
                     - S (2 + length name)) ((32%N :: value) ++ [125%N])
               = 32%N :: value).
  { replace (S (2 + length name) + length (32%N :: value) - S (2 + length name))
      with (length (32%N :: value)) by lia.
    apply (take_app_length (32%N :: value)). }
  assert (H1 : take (2 + length name - 1)
                 (n0 :: name ++ 58%N :: (32%N :: value) ++ [125%N])
               = n0 :: name).
  { replace (2 + length name - 1) with (length (n0 :: name)) by (simpl; lia).
    apply (take_app_length (n0 :: name)). }
  rewrite H1. f_equal. exact H2.
Qed.

(** A header line [{name: value}] is read back by the parser as the
    entry that maps the stripped name to the stripped value, whatever
    the value holds but a newline; in an open section the line is also
    kept as content. The name is any text without colon that does not
    turn the line into a comment or a section marker. *)
Theorem directive_read_back (st : state) (name value : str) :
  name <> [] -> Forall (fun c => c <> 58%N) name -> nl_free value ->
  let line := Enhance.directive name value in
  is_comment line = false -> boundary line = false ->
  step st line
  = State (<[strip name := strip value]> (metadata st))
      (sections st) (current_section_label st)
      (if in_section st then current_section_content st ++ [line]
       else current_section_content st)
      (current_section_info st) (in_section st).
Proof.
  intros Hne Hname Hvalue line Hc Hb.
  assert (Hstrip : strip line = line).
  { assert (Hshape : line = 123%N :: (name ++ 58%N :: 32%N :: value) ++ [125%N]).
    { unfold line. rewrite directive_cons. by rewrite <- app_assoc. }
    rewrite Hshape. by apply strip_visible. }
  unfold boundary, start_marker, end_marker in Hb.
  apply orb_false_iff in Hb as [Hs He]. rewrite Hstrip in Hs, He.
  unfold step. rewrite Hstrip, Hc, Hs, He.
  destruct name as [|n0 name]; [done|]. inversion Hname as [|? ? Hn0 Hname']; subst.
  destruct (match_directive n0 name value Hn0 Hname' Hvalue) as [e Hm].
  unfold line at 1 2. rewrite directive_cons. cbn [startswith].
  change (lit "{") with [123%N]. cbv iota. rewrite N.eqb_refl.
  rewrite Hm. cbn [andb startswith app]. unfold group_text, group. cbn [m_groups].
  rewrite lookup_insert_eq, lookup_insert_ne, lookup_insert_eq by done.
  cbn [default from_option id]. reflexivity.
Qed.

End Directive_extras.

(** The title line of a header, read outside a section. *)
Lemma directive_read_back_witness :
  Parser.metadata
    (@Parser.step Ascii_runtime.runtime Parser.initial
       (lit "{title: Dieu est amour}"))
  = {[ lit "title" := lit "Dieu est amour" ]}.
Proof.
  change (lit "{title: Dieu est amour}")
    with (Enhance.directive (lit "title") (lit "Dieu est amour")).
  rewrite (@directive_read_back Ascii_runtime.runtime Parser.initial
             (lit "title") (lit "Dieu est amour")).
  - reflexivity.
  - discriminate.
  - repeat constructor; discriminate.
  - repeat constructor; discriminate.
  - reflexivity.
  - reflexivity.
Defined.

(** ** Section labels *)

Section Label_extras.
Import Re Re_facts Parser Parser_spec Parser_facts.
Context `{PyRuntime}.

Lemma letter_not_space (c : char) : ascii_letter c = true -> isspace c = false.
Proof.
  unfold ascii_letter, isspace. intros Hl.
  assert (Hr : (65 <= c <= 122)%N).
  { apply orb_true_iff in Hl as [Hl|Hl]; apply andb_true_iff in Hl as [H1 H2];
      apply N.leb_le in H1, H2; lia. }
  clear Hl.
  repeat (apply orb_false_iff; split);
    try (apply N.eqb_neq; lia);
    apply andb_false_iff; rewrite !N.leb_gt; lia.
Qed.

Lemma match_numbered_label (w0 : char) (w : str) (d0 : char) (d : str) :
  all_of (fun c => ascii_letter c || isspace c) (w0 :: w) ->
  all_of isdecimal (d0 :: d) ->
  ascii_letter d0 || isspace d0 = false ->
  exists e,
    re_match LABEL_PATTERN ((w0 :: w) ++ d0 :: d)
    = Some (Match 0 e (<[2 := d0 :: d]> (<[1 := w0 :: w]> ∅))).
Proof.
  intros Hw Hd Hd0. inversion Hw as [|? ? Hw0 Hw']; subst.
  inversion Hd as [|? ? Hd0' Hd']; subst.
  pose proof Hd0 as Hstop. apply orb_false_iff in Hd0 as [_ Hsp]. eexists.
  unfold re_match, match_at, LABEL_PATTERN, Plus.
  cbn [run app]. rewrite Hw0.
  erewrite star_loop_longest; cycle 1.
  { exact Hw'. }
  { exact Hstop. }
  { cbv beta. cbn [star_loop]. rewrite Hsp, Hd0'.
    rewrite <- (app_nil_r d) at 1.
    erewrite star_loop_longest; cycle 1.
    { exact Hd'. }
    { done. }
    { cbv beta iota. reflexivity. }
    reflexivity. }
  do 2 f_equal.
  assert (H1 : take (1 + length w - 0) (w0 :: w ++ d0 :: d) = w0 :: w).
  { replace (1 + length w - 0) with (length (w0 :: w)) by (simpl; lia).
    apply (take_app_length (w0 :: w)). }
  assert (H2 : take (S (1 + length w) + length d - (1 + length w)) (d0 :: d)
               = d0 :: d).
  { apply take_ge. simpl. lia. }
  rewrite H1. f_equal. exact H2.
Qed.

Lemma match_bare_label (w0 : char) (w : str) (c : char) :
  all_of (fun c => ascii_letter c || isspace c) (w0 :: w) ->
  ascii_letter c = true -> isdecimal c = false ->
  exists e,
    re_match LABEL_PATTERN ((w0 :: w) ++ [c])
    = Some (Match 0 e (<[2 := [c]]> (<[1 := w0 :: w]> ∅))).
Proof.
  intros Hw Hc Hd. inversion Hw as [|? ? Hw0 Hw']; subst.
  pose proof (letter_not_space c Hc) as Hsp. eexists.
  unfold re_match, match_at, LABEL_PATTERN, Plus.
  cbn [run app]. rewrite Hw0.
  erewrite star_loop_give_back; cycle 1.
  { exact Hw'. }
  { by rewrite Hc. }
  { intros q. reflexivity. }
  { cbv beta. cbn [star_loop]. rewrite Hsp, Hd, Hc. reflexivity. }
  do 2 f_equal.
  assert (H1 : take (1 + length w - 0) (w0 :: w ++ [c]) = w0 :: w).
  { replace (1 + length w - 0) with (length (w0 :: w)) by (simpl; lia).
    apply (take_app_length (w0 :: w)). }
  rewrite H1. f_equal. apply take_ge. simpl. lia.
Qed.

Lemma open_info_match (label block_type : str) (e : nat) (w n : str) :
  label <> [] ->
  re_match LABEL_PATTERN (str_lower label)
  = Some (Match 0 e (<[2 := n]> (<[1 := w]> ∅))) ->
  open_info (Some label) block_type
  = Info label
      (default block_type (lookup_type label_to_type_map (strip w)))
      (Some n).
Proof.
  intros Hne Hm. destruct label as [|l0 label]; [done|].
  unfold open_info. rewrite Hm. unfold group_text, group. cbn [m_groups].
  rewrite lookup_insert_eq, lookup_insert_ne, lookup_insert_eq by done.
  cbn [default from_option id].
  by destruct (lookup_type label_to_type_map (strip w)).
Qed.

(** A label made of a word, or words, followed by a number: the number
    is the ordinal of the section and the stripped words are looked up
    in the synonym table. *)
Theorem numbered_label (label block_type w d : str) :
  label <> [] ->
  str_lower label = w ++ d ->
  w <> [] -> all_of (fun c => ascii_letter c || isspace c) w ->
  d <> [] -> all_of isdecimal d ->
  stops (fun c => ascii_letter c || isspace c) d ->
  open_info (Some label) block_type
  = Info label
      (default block_type (lookup_type label_to_type_map (strip w)))
      (Some d).
Proof.
  intros Hne Hl Hw Hall Hd Hdec Hstop.
  destruct w as [|w0 w]; [done|]. destruct d as [|d0 d]; [done|].
  destruct (match_numbered_label w0 w d0 d Hall Hdec Hstop) as [e Hm].
  rewrite <- Hl in Hm. by eapply open_info_match.
Qed.

(** A label made of letters and spaces only: its last letter is taken
    as the ordinal of the section, and the words looked up in the
    synonym table are the label without that letter. *)
Theorem letters_only_label (label block_type w : str) (c : char) :
  label <> [] ->
  str_lower label = w ++ [c] ->
  w <> [] -> all_of (fun c => ascii_letter c || isspace c) w ->
  ascii_letter c = true -> isdecimal c = false ->
  open_info (Some label) block_type
  = Info label
      (default block_type (lookup_type label_to_type_map (strip w)))
      (Some [c]).
Proof.
  intros Hne Hl Hw Hall Hc Hdec.
  destruct w as [|w0 w]; [done|].
  destruct (match_bare_label w0 w c Hall Hc Hdec) as [e Hm].
  rewrite <- Hl in Hm. by eapply open_info_match.
Qed.

End Label_extras.

(** The label [Strophe 2] before a chorus block: a verse of number 2. *)
Lemma numbered_label_witness :
  @Parser.open_info Ascii_runtime.runtime (Some (lit "Strophe 2")) (lit "chorus")
  = Parser.Info (lit "Strophe 2") (lit "verse") (Some (lit "2")).
Proof.
  rewrite (@numbered_label Ascii_runtime.runtime (lit "Strophe 2")
             (lit "chorus") (lit "strophe ") (lit "2")).
  - reflexivity.
  - discriminate.
  - reflexivity.
  - discriminate.
  - repeat constructor.
  - discriminate.
  - repeat constructor.
  - reflexivity.
Defined.

(** The label [Refrain] before a verse block: the word looked up is
    [refrai], which is no key of the table, and the section stays a
    verse, of number [n]. *)
Lemma letters_only_label_witness :
  @Parser.open_info Ascii_runtime.runtime (Some (lit "Refrain")) (lit "verse")
  = Parser.Info (lit "Refrain") (lit "verse") (Some (lit "n")).
Proof.
  rewrite (@letters_only_label Ascii_runtime.runtime (lit "Refrain")
             (lit "verse") (lit "refrai") 110%N).
  - reflexivity.
  - discriminate.
  - reflexivity.
  - discriminate.
  - repeat constructor.
  - reflexivity.
  - reflexivity.
Defined.

(** ** Chords of a line *)

Section Chord_extras.
Import Re Re_facts Chords Chord_spec Chord_facts Chord_scan_spec Chord_scan_facts.
Context `{PyRuntime}.

Lemma elem_of_weave (x : char) (pieces : list (str * str)) (tail : str) :
  pieces <> [] -> (x = 91%N \/ x = 93%N) -> x ∈ weave pieces tail.
Proof.
  destruct pieces as [|[t ch] ps]; [done|]. intros _ Hx.
  cbn [weave]. rewrite markup_cons. apply elem_of_app. right.
  destruct Hx as [-> | ->].
  - by left.
  - right. apply elem_of_app. left. apply elem_of_app. right. by left.
Qed.

(** A line without an opening bracket, or without a closing one, has
    no chord and is returned as it is. *)
Theorem parse_chord_line_without_brackets (line : str) :
  (91%N ∉ line) \/ (93%N ∉ line) ->
  parse_chord_line line = ([], line).
Proof.
  intros Hno.
  destruct (parse_chord_line_scan line) as (pieces & tail & Hl & Hs & Hf).
  destruct pieces as [|p ps].
  - cbn [weave plain matches_of fold_left] in *.
    destruct (parse_chord_line line) as [cs clean].
    cbn [fst snd] in *. congruence.
  - exfalso. destruct Hno as [Hno|Hno]; apply Hno; rewrite Hl;
      apply elem_of_weave; auto.
Qed.

(** The offset returned for a chord is exact. Take the scan of the
    line: its annotations from left to right and the line without
    their markup. There is one chord for each annotation, in their
    order; the offset of the chord is the offset of the bracket minus
    the markup of the annotations before it, with no floor at zero; it
    is the length of the clean text of what precedes the bracket, which
    is the start of the text returned; it is a position of the text
    returned; and the offsets do not decrease from one chord to the
    next. *)
Theorem parse_chord_line_offset_exact (line : str) :
  (exists anns clean, scan 0 0 line anns clean)
  /\ forall anns clean,
       scan 0 0 line anns clean ->
       let chords := fst (parse_chord_line line) in
       let text := snd (parse_chord_line line) in
       length chords = length anns
       /\ (forall k a,
             anns !! k = Some a ->
             exists c,
               chords !! k = Some c
               /\ chord c = symbol a
               /\ original_pos c = raw_offset a
               /\ pos c
                  = (Z.of_nat (raw_offset a) - markup_total (take k anns))%Z
               /\ (0 <= pos c <= Z.of_nat (length text))%Z
               /\ scan 0 0 (take (raw_offset a) line) (take k anns)
                    (take (Z.to_nat (pos c)) text)
               /\ length (take (Z.to_nat (pos c)) text) = Z.to_nat (pos c))
       /\ (forall k k' c c',
             k <= k' ->
             chords !! k = Some c -> chords !! k' = Some c' ->
             (pos c <= pos c')%Z).
Proof.
  split; [by apply (scan_total (length line))|].
  intros anns clean Hscan chords text.
  destruct (chords_of_scan line anns clean Hscan) as (Htext & Hlen & Hlook).
  destruct (scan_offsets _ _ _ _ _ Hscan) as [_ Hoff].
  fold chords in Hlen, Hlook. fold text in Htext.
  split; [exact Hlen|]. split.
  - intros k a Hk.
    destruct (Hlook k a Hk) as (c & Hc & Hch & _ & Ho & _ & Hp).
    destruct (Hoff k a Hk) as (_ & _ & Hz & Hle & _).
    pose proof (scan_prefix _ _ _ _ _ Hscan k a Hk) as Hpre.
    rewrite !Nat.sub_0_r in Hpre.
    exists c. split; [exact Hc|]. split; [exact Hch|]. split; [exact Ho|].
    split; [rewrite Hp; lia|].
    rewrite Htext, Hp, Nat2Z.id.
    split; [simpl in Hle; lia|]. split; [exact Hpre|].
    rewrite length_take. simpl in Hle. lia.
  - intros k k' c c' Hle Hk Hk'.
    assert (Hka : is_Some (anns !! k)).
    { apply lookup_lt_is_Some. rewrite <- Hlen. by eapply lookup_lt_Some. }
    assert (Hka' : is_Some (anns !! k')).
    { apply lookup_lt_is_Some. rewrite <- Hlen. by eapply lookup_lt_Some. }
    destruct Hka as [a Ha], Hka' as [a' Ha'].
    destruct (Hlook k a Ha) as (c0 & Hc0 & _ & _ & _ & _ & Hp).
    destruct (Hlook k' a' Ha') as (c0' & Hc0' & _ & _ & _ & _ & Hp').
    assert (c0 = c) as -> by congruence.
    assert (c0' = c') as -> by congruence.
    rewrite Hp, Hp'. apply inj_le.
    destruct (decide (k = k')) as [->|Hne]; [by assert (a = a') as -> by congruence|].
    destruct (Hoff k' a' Ha') as (_ & _ & _ & _ & _ & _ & _ & Hbefore).
    apply (Hbefore k a); [lia|done].
Qed.

Lemma match_chord_symbol (s : str) (pos : nat) (m : rmatch) :
  match_at chord_pattern s pos = Some m ->
  group_text m 1 <> [] /\ (93%N ∉ group_text m 1) /\ m_start m = pos.
Proof.
  unfold match_at, chord_pattern. cbn [run Chr Plus].
  destruct s as [|c s1]; [done|].
  destruct (N.eqb_spec 91 c) as [<-|]; [|done].
  destruct s1 as [|c1 s1]; [done|].
  destruct (negb (c1 =? 93)%N) eqn:Hc1; [|done].
  intros Hm. apply star_loop_some in Hm as (n & Hn & Hk).
  destruct (drop n s1) as [|c3 s4] eqn:Hd; [done|].
  destruct (N.eqb_spec 93 c3) as [<-|]; [|done].
  injection Hk as <-. unfold group_text, group. cbn [m_groups m_start].
  rewrite lookup_insert_eq. cbn [default].
  replace (S (pos + n) - pos) with (S n) by lia. cbn [take].
  split; [done|]. split; [|done].
  intros Hin. apply elem_of_cons in Hin as [<-|Hin]; [done|].
  pose proof (take_while_all (fun c => negb (c =? 93)%N) s1) as Hall.
  assert (Hsub : take n s1 = take n (take_while (fun c => negb (c =? 93)%N) s1)).
  { rewrite <- (take_drop_while (fun c => negb (c =? 93)%N) s1) at 1.
    by rewrite take_app_le. }
  rewrite Hsub in Hin. apply elem_of_take in Hin as (i & Hi & _).
  unfold all_of in Hall. rewrite Forall_lookup in Hall.
  specialize (Hall i _ Hi). simpl in Hall. done.
Qed.

Lemma finditer_from_matches (r : regex) (s : str) :
  forall pos skip m,
    m ∈ finditer_from r s pos skip ->
    exists s' pos', match_at r s' pos' = Some m.
Proof.
  induction s as [|c s IH]; intros pos skip m Hm; [by apply elem_of_nil in Hm|].
  cbn [finditer_from] in Hm. destruct skip as [|n]; [|by eapply IH].
  destruct (match_at r (c :: s) pos) as [m0|] eqn:E; [|by eapply IH].
  apply elem_of_cons in Hm as [->|Hm]; [eauto | by eapply IH].
Qed.

Lemma fold_step_elem (ms : list rmatch) (acc : list chord_t) (c : chord_t) :
  c ∈ fold_left step ms acc ->
  c ∈ acc
  \/ exists m, m ∈ ms /\ chord c = group_text m 1 /\ key c = group_text m 1
               /\ original_pos c = m_start m
               /\ id c = take 5 (md5_hexdigest
                                   (group_text m 1 ++ str_of_nat (m_start m))).
Proof.
  revert acc. induction ms as [|m ms IH]; intros acc Hc; [by left|].
  cbn [fold_left] in Hc. apply IH in Hc as [Hc|(m' & Hm' & Hrest)].
  - unfold step in Hc. apply elem_of_app in Hc as [Hc|Hc]; [by left|].
    apply list_elem_of_singleton in Hc as ->. right. exists m.
    split; [by left|]. done.
  - right. exists m'. split; [by right|done].
Qed.

(** Every chord returned has a symbol that is not empty and holds no
    closing bracket; its key is its symbol, and its identifier is made
    of the symbol and the bracket offset alone. *)
Theorem parse_chord_line_symbols (line : str) (c : chord_t) :
  c ∈ fst (parse_chord_line line) ->
  chord c <> [] /\ (93%N ∉ chord c) /\ key c = chord c
  /\ id c = take 5 (md5_hexdigest (chord c ++ str_of_nat (original_pos c))).
Proof.
  intros Hc. unfold parse_chord_line in Hc. cbn [fst] in Hc.
  apply fold_step_elem in Hc as [Hc|(m & Hm & Hch & Hkey & Ho & Hid)];
    [by apply elem_of_nil in Hc|].
  apply finditer_from_matches in Hm as (s' & pos' & Hm).
  apply match_chord_symbol in Hm as (Hne & Hno & _).
  rewrite Hch, Hkey, Hid, Ho. done.
Qed.

End Chord_extras.

(** The second chord of ["Dieu [C]est [G]amour"]: its bracket is at
    offset 12, after three characters of markup. *)
Lemma parse_chord_line_offset_exact_witness :
  let line := lit "Dieu [C]est [G]amour" in
  exists c,
    fst (@Chords.parse_chord_line Ascii_runtime.runtime line) !! 1 = Some c
    /\ Chords.pos c = (12 - 3)%Z.
Proof.
  intros line.
  destruct (@parse_chord_line_offset_exact Ascii_runtime.runtime line)
    as [_ Hall].
  destruct (Hall _ _ scan_dieu_est_amour) as (_ & Hlook & _).
  destruct (Hlook 1 (Chord_scan_spec.Annotation 12 9 (lit "G")) eq_refl)
    as (c & Hc & _ & _ & Hp & _).
  exists c. split; [exact Hc | exact Hp].
Defined.

(** A line of lyrics without chords. *)
Lemma parse_chord_line_without_brackets_witness :
  @Chords.parse_chord_line Ascii_runtime.runtime (lit "Dieu est amour")
  = ([], lit "Dieu est amour").
Proof.
  apply (@parse_chord_line_without_brackets Ascii_runtime.runtime).
  left. apply (bool_decide_unpack _). vm_compute. exact I.
Defined.

(** The first chord of ["[C]Alle[G]luia"]. *)
Lemma parse_chord_line_symbols_witness :
  let c := Chords.Chord (lit "C0") 0 (lit "C") (lit "C") 0 in
  Chords.chord c <> [] /\ Chords.key c = Chords.chord c.
Proof.
  intros c.
  destruct (@parse_chord_line_symbols Ascii_runtime.runtime
              (lit "[C]Alle[G]luia") c)
    as (Hne & _ & Hkey & _).
  - apply list_elem_of_In. left. reflexivity.
  - split; [exact Hne | exact Hkey].
Defined.

(** ** Slides and layout *)

Section Slide_extras.
Import FreeShow FreeShow_spec FreeShow_facts Dedup Dedup_spec Dedup_facts.
Context `{PyRuntime}.

Lemma slide_lines_one (line : str) :
  slide_lines [line] = if shown line then [render_line line] else [].
Proof.
  unfold slide_lines, shown. cbn [fold_left]. unfold line_step.
  destruct (startswith line (lit "{c:")); [done|].
  by destruct (strip line).
Qed.

Lemma slide_lines_shown (content : list str) :
  slide_lines content = map render_line (List.filter shown content).
Proof.
  induction content as [|line content IH]; [done|].
  change (line :: content) with ([line] ++ content).
  rewrite slide_lines_app, slide_lines_one, IH. cbn [app List.filter].
  by destruct (shown line).
Qed.

(** The slide of a section has one text box, and the display lines of
    the box are the renderings of the content lines of the section that
    neither start with [{c:] nor are blank, in their order; so there
    are no more of them than content lines, and none when every content
    line is blank. *)
Theorem slide_lines_filter (section : ChordProSection.t)
    (slide_id : str) (colors : list (str * str)) :
  let content := ChordProSection.content section in
  let slide := create_freeshow_slide section slide_id colors in
  items slide
  = [ Item (map render_line (List.filter shown content))
        (lit "top:120px;left:50px;height:840px;width:1820px;")
        (lit "") false false ]
  /\ Forall (fun item => length (lines item) <= length content) (items slide)
  /\ (Forall (fun line => strip line = []) content ->
      map lines (items slide) = [ [] ]).
Proof.
  intros content slide.
  assert (Hitems : items slide
    = [ Item (map render_line (List.filter shown content))
          (lit "top:120px;left:50px;height:840px;width:1820px;")
          (lit "") false false ]).
  { unfold slide, create_freeshow_slide. cbn [items].
    by rewrite slide_lines_shown. }
  split; [exact Hitems|]. rewrite Hitems. split.
  - constructor; [|constructor]. cbn [lines]. rewrite length_map.
    apply List.filter_length_le.
  - intros Hblank. cbn [map lines]. do 2 f_equal.
    clear Hitems slide. induction Hblank as [|line rest Hl _ IH]; [done|].
    cbn [List.filter]. unfold shown at 1. rewrite Hl, andb_false_r.
    exact IH.
Qed.

Lemma build_slides_keep (us : list ChordProSection.t) :
  forall i acc id,
    (forall j u, us !! j = Some u -> slide_id_of (i + j) u <> id) ->
    fst (build_slides i us acc) !! id = fst acc !! id.
Proof.
  induction us as [|x us IH]; intros i acc id Hfresh; [done|].
  cbn [build_slides]. rewrite IH.
  - cbn [fst]. apply lookup_insert_ne.
    specialize (Hfresh 0 x eq_refl). by rewrite Nat.add_0_r in Hfresh.
  - intros j u Hu. specialize (Hfresh (S j) u Hu).
    by replace (S i + j) with (i + S j) by lia.
Qed.

(** Every identifier collected is a key of the dictionary of slides,
    where it gives the slide of a section with that identifier. *)
Lemma build_slides_resolve (us : list ChordProSection.t) :
  forall i acc j u,
    us !! j = Some u ->
    exists j' u' c,
      us !! j' = Some u' /\ j <= j'
      /\ slide_id_of (i + j') u' = slide_id_of (i + j) u
      /\ fst (build_slides i us acc) !! slide_id_of (i + j) u
         = Some (create_freeshow_slide u' (slide_id_of (i + j) u) c)
      /\ ((forall k v, us !! k = Some v ->
             slide_id_of (i + k) v = slide_id_of (i + j) u -> k = j) ->
          j' = j).
Proof.
  induction us as [|x us IH]; intros i acc j u Hu; [done|].
  cbn [build_slides].
  set (acc' := (<[slide_id_of i x := _]> (fst acc), snd acc ++ [slide_id_of i x])).
  destruct j as [|j].
  - injection Hu as ->. rewrite Nat.add_0_r.
    destruct (decide (slide_id_of i u
                      ∈ imap (fun k v => slide_id_of (S i + k) v) us))
      as [Hsome|Hnone].
    + apply elem_of_lookup_imap in Hsome as (k & v & Hid & Hk).
      symmetry in Hid.
      destruct (IH (S i) acc' k v Hk) as (j' & u' & c & Hj' & Hle & Hid' & Hlook & _).
      exists (S j'), u', c. split; [done|]. split; [lia|].
      replace (i + S j') with (S i + j') by lia.
      split; [congruence|]. split; [by rewrite <- Hid, Hlook, Hid|].
      intros Hinj. specialize (Hinj (S k) v Hk).
      replace (i + S k) with (S i + k) in Hinj by lia.
      specialize (Hinj Hid). lia.
    + eexists 0, u, _. split; [done|]. split; [lia|].
      rewrite Nat.add_0_r. split; [done|]. split; [|done].
      rewrite build_slides_keep.
      * unfold acc'. cbn [fst]. apply lookup_insert_eq.
      * intros k v Hk Hid. apply Hnone. apply elem_of_lookup_imap. eauto.
  - cbn [lookup list_lookup] in Hu.
    destruct (IH (S i) acc' j u Hu) as (j' & u' & c & Hj' & Hle & Hid' & Hlook & Hinj').
    exists (S j'), u', c. split; [done|]. split; [lia|].
    replace (i + S j') with (S i + j') by lia.
    replace (i + S j) with (S i + j) by lia.
    split; [done|]. split; [done|].
    intros Hinj. f_equal. apply Hinj'. intros k v Hk Hid.
    specialize (Hinj (S k) v Hk).
    replace (i + S k) with (S i + k) in Hinj by lia.
    replace (i + S j) with (S i + j) in Hinj by lia.
    specialize (Hinj Hid). lia.
Qed.

(** The show made from a text: its layout and what its references
    give in the dictionary of slides. *)
Lemma show_of_text (content filename : str) :
  let sections := snd (Parser.parse_chordpro_file content) in
  let unique := fst (deduplicate_sections sections) in
  let index_map := snd (deduplicate_sections sections) in
  exists show lid refs,
    generate_freeshow_file content filename = Some show
    /\ layouts show !! lid = Some (Layout (lit "Default") (lit "1 voix") refs)
    /\ activeLayout show = lid
    /\ length refs = length sections
    /\ (forall k r, refs !! k = Some r ->
          exists v u j' u' c,
            index_map !! k = Some v /\ unique !! v = Some u
            /\ ref_id r = slide_id_of v u
            /\ unique !! j' = Some u'
            /\ slide_id_of j' u' = ref_id r
            /\ slides show !! ref_id r
               = Some (create_freeshow_slide u' (ref_id r) c)
            /\ ((forall i w, unique !! i = Some w ->
                   slide_id_of i w = slide_id_of v u -> i = v) ->
                u' = u)).
Proof.
  cbv zeta. unfold generate_freeshow_file.
  destruct (Parser.parse_chordpro_file content) as [md secs]. cbn [fst snd].
  pose proof (index_valid secs) as Hvalid.
  pose proof (index_length _ _ (run_sections_consistent secs)) as Hlen.
  change (length (snd (deduplicate_sections secs)) = length secs) in Hlen.
  destruct (deduplicate_sections secs) as [us im] eqn:Hd. cbn [fst snd] in *.
  pose proof (build_slides_length us 0 (∅, [])) as Hids.
  pose proof (build_slides_ids us 0 (∅, [])) as Hid.
  pose proof (build_slides_resolve us 0 (∅, [])) as Hres.
  destruct (build_slides 0 us (∅, [])) as [slides ids]. cbn [fst snd] in *.
  destruct (build_layout_some ids im) as (refs & Hrefs & Hl & Hk).
  { apply List.Forall_forall. intros v Hv. rewrite <- list_elem_of_In in Hv.
    apply list_elem_of_lookup in Hv as [k Hv]. rewrite Hids. by eapply Hvalid. }
  rewrite Hrefs. cbn [mbind option_bind]. eexists _, _, refs.
  split; [reflexivity|]. cbn [layouts activeLayout FreeShow.slides].
  split; [apply lookup_singleton_eq|]. split; [done|]. split; [lia|].
  intros k r Hr.
  assert (Hkl : k < length im) by (rewrite <- Hl; by eapply lookup_lt_Some).
  destruct (lookup_lt_is_Some_2 im k Hkl) as [v Hv].
  destruct (Hk k v Hv) as (id & Hidv & Hr').
  assert (r = Ref id) as -> by congruence. cbn [ref_id].
  assert (Hlt : v < length us) by (by eapply Hvalid).
  destruct (lookup_lt_is_Some_2 us v Hlt) as [u Hu].
  specialize (Hid v u Hu). simpl in Hid.
  assert (id = slide_id_of v u) as -> by congruence.
  destruct (Hres v u Hu) as (j' & u' & c & Hj' & _ & Hid' & Hlook & Hinj).
  simpl in Hid', Hlook, Hinj.
  exists v, u, j', u', c. repeat (split; [done|]).
  intros Hone. assert (j' = v) as -> by (apply Hinj; exact Hone). congruence.
Qed.

(** Every identifier collected is a key of the dictionary of slides,
    where it gives the slide of the last section with that
    identifier. *)
Lemma build_slides_last (us : list ChordProSection.t) :
  forall i acc j u,
    us !! j = Some u ->
    exists j' u' c,
      us !! j' = Some u'
      /\ slide_id_of (i + j') u' = slide_id_of (i + j) u
      /\ (forall m w, us !! m = Some w ->
            slide_id_of (i + m) w = slide_id_of (i + j) u -> m <= j')
      /\ fst (build_slides i us acc) !! slide_id_of (i + j) u
         = Some (create_freeshow_slide u' (slide_id_of (i + j) u) c).
Proof.
  induction us as [|x us IH]; intros i acc j u Hu; [done|].
  cbn [build_slides].
  set (acc' := (<[slide_id_of i x := _]> (fst acc), snd acc ++ [slide_id_of i x])).
  assert (Hlater : forall k v,
    us !! k = Some v -> slide_id_of (S i + k) v = slide_id_of (i + j) u ->
    exists j' u' c,
      (x :: us) !! j' = Some u'
      /\ slide_id_of (i + j') u' = slide_id_of (i + j) u
      /\ (forall m w, (x :: us) !! m = Some w ->
            slide_id_of (i + m) w = slide_id_of (i + j) u -> m <= j')
      /\ fst (build_slides (S i) us acc') !! slide_id_of (i + j) u
         = Some (create_freeshow_slide u' (slide_id_of (i + j) u) c)).
  { intros k v Hk Hid.
    destruct (IH (S i) acc' k v Hk) as (j' & u' & c & Hj' & Hid' & Hmax & Hlook).
    rewrite Hid in Hid', Hmax, Hlook.
    exists (S j'), u', c. split; [done|].
    replace (i + S j') with (S i + j') by lia. split; [done|].
    split; [|done].
    intros [|m] w Hw Hidw; [lia|]. cbn [lookup list_lookup] in Hw.
    replace (i + S m) with (S i + m) in Hidw by lia.
    specialize (Hmax m w Hw Hidw). lia. }
  destruct j as [|j].
  - injection Hu as ->.
    destruct (decide (slide_id_of (i + 0) u
                      ∈ imap (fun k v => slide_id_of (S i + k) v) us))
      as [Hsome|Hnone].
    + apply elem_of_lookup_imap in Hsome as (k & v & Hid & Hk).
      by apply (Hlater k v).
    + eexists 0, u, _. split; [done|]. split; [done|]. split.
      * intros [|m] w Hw Hidw; [lia|]. cbn [lookup list_lookup] in Hw.
        exfalso. apply Hnone. apply elem_of_lookup_imap. exists m, w.
        replace (i + S m) with (S i + m) in Hidw by lia. by split.
      * rewrite build_slides_keep.
        -- unfold acc'. cbn [fst]. rewrite Nat.add_0_r. apply lookup_insert_eq.
        -- intros k v Hk Hid. apply Hnone. apply elem_of_lookup_imap. eauto.
  - cbn [lookup list_lookup] in Hu. apply (Hlater j u Hu). f_equal. lia.
Qed.

(** No reference of the layout dangles. The show is produced; it has a
    single layout, under the key that is its active layout, with one
    reference for each section of the text. The reference of position
    [k] is the identifier of the canonical section of index
    [index_map[k]]; it is a key of the dictionary of slides, where it
    gives the slide built from the last canonical section that gets
    that identifier; and when no two canonical sections get the same
    identifier, that is the canonical section of index
    [index_map[k]]. *)
Theorem layout_references_resolve (content filename : str) :
  let sections := snd (Parser.parse_chordpro_file content) in
  let unique := fst (deduplicate_sections sections) in
  let index_map := snd (deduplicate_sections sections) in
  exists show lid refs,
    generate_freeshow_file content filename = Some show
    /\ layouts show = {[ lid := Layout (lit "Default") (lit "1 voix") refs ]}
    /\ activeLayout show = lid
    /\ length refs = length sections
    /\ (forall k r, refs !! k = Some r ->
          exists v u j' u' c,
            index_map !! k = Some v /\ unique !! v = Some u
            /\ ref_id r = slide_id_of v u
            /\ unique !! j' = Some u'
            /\ slide_id_of j' u' = ref_id r
            /\ (forall i w, unique !! i = Some w ->
                  slide_id_of i w = ref_id r -> i <= j')
            /\ slides show !! ref_id r
               = Some (create_freeshow_slide u' (ref_id r) c)
            /\ ((forall i w, unique !! i = Some w ->
                   slide_id_of i w = slide_id_of v u -> i = v) ->
                j' = v /\ u' = u)).
Proof.
  cbv zeta. unfold generate_freeshow_file.
  destruct (Parser.parse_chordpro_file content) as [md secs]. cbn [fst snd].
  pose proof (index_valid secs) as Hvalid.
  pose proof (index_length _ _ (run_sections_consistent secs)) as Hlen.
  change (length (snd (deduplicate_sections secs)) = length secs) in Hlen.
  destruct (deduplicate_sections secs) as [us im] eqn:Hd. cbn [fst snd] in *.
  pose proof (build_slides_length us 0 (∅, [])) as Hids.
  pose proof (build_slides_ids us 0 (∅, [])) as Hid.
  pose proof (build_slides_last us 0 (∅, [])) as Hres.
  destruct (build_slides 0 us (∅, [])) as [slides ids]. cbn [fst snd] in *.
  destruct (build_layout_some ids im) as (refs & Hrefs & Hl & Hk).
  { apply List.Forall_forall. intros v Hv. rewrite <- list_elem_of_In in Hv.
    apply list_elem_of_lookup in Hv as [k Hv]. rewrite Hids. by eapply Hvalid. }
  rewrite Hrefs. cbn [mbind option_bind]. eexists _, _, refs.
  split; [reflexivity|]. cbn [layouts activeLayout FreeShow.slides].
  split; [done|]. split; [done|]. split; [lia|].
  intros k r Hr.
  assert (Hkl : k < length im) by (rewrite <- Hl; by eapply lookup_lt_Some).
  destruct (lookup_lt_is_Some_2 im k Hkl) as [v Hv].
  destruct (Hk k v Hv) as (id & Hidv & Hr').
  assert (r = Ref id) as -> by congruence. cbn [ref_id].
  assert (Hlt : v < length us) by (by eapply Hvalid).
  destruct (lookup_lt_is_Some_2 us v Hlt) as [u Hu].
  specialize (Hid v u Hu). simpl in Hid.
  assert (id = slide_id_of v u) as -> by congruence.
  destruct (Hres v u Hu) as (j' & u' & c & Hj' & Hid' & Hmax & Hlook).
  simpl in Hid', Hmax, Hlook.
  exists v, u, j', u', c. repeat (split; [done|]).
  intros Hone. assert (j' = v) as -> by (by apply (Hone j' u')).
  split; [done|congruence].
Qed.

End Slide_extras.

(** A verse of a lyric line, a blank line and a comment: its slide has
    one display line. *)
Lemma slide_lines_filter_witness :
  let section :=
    ChordProSection.Make (lit "Verse") (lit "verse") None
      [lit "Alleluia"; lit "  "; lit "{c: twice}"] (lit "Alleluia") in
  map FreeShow.lines
    (FreeShow.items
       (@FreeShow.create_freeshow_slide Ascii_runtime.runtime section
          (lit "id") []))
  = [ [ @FreeShow.render_line Ascii_runtime.runtime (lit "Alleluia") ] ].
Proof.
  intros section.
  destruct (@slide_lines_filter Ascii_runtime.runtime section (lit "id") [])
    as (Hitems & _).
  rewrite Hitems. reflexivity.
Defined.

(** ** Enumerations and the year of the copyright *)

Section Enumeration_extras.
Import Re Re_facts FrenchPunctuationHandler FreeShow.
Context `{PyRuntime}.

Lemma sub_enum_later (repl : rmatch -> str) (s : str) :
  forall pos, sub_from ENUM_PATTERN repl s (S pos) 0 = s.
Proof.
  induction s as [|c s IH]; intros pos; [done|].
  rewrite sub_from_miss by done. by rewrite IH.
Qed.

Lemma sub_enum_miss (repl : rmatch -> str) (s : str) :
  match_at ENUM_PATTERN s 0 = None -> sub ENUM_PATTERN repl s = s.
Proof.
  intros Hm. unfold sub. destruct s as [|c s]; [done|].
  rewrite sub_from_miss by done. by rewrite sub_enum_later.
Qed.

Lemma match_enum_hit (d0 : char) (d rest : str) :
  isdecimal 46%N = false -> all_of isdecimal (d0 :: d) ->
  match_at ENUM_PATTERN ((d0 :: d) ++ 46%N :: rest) 0
  = Some (Match 0 (S (1 + length d) + length (take_while isspace rest)) ∅).
Proof.
  intros Hdot Hd. inversion Hd as [|? ? Hd0 Hd']; subst.
  unfold match_at, ENUM_PATTERN, Plus, Chr. cbn [run app]. rewrite Hd0.
  erewrite star_loop_longest; cycle 1.
  { exact Hd'. }
  { exact Hdot. }
  { cbv beta iota. rewrite N.eqb_refl.
    rewrite <- (take_drop_while isspace rest) at 1.
    apply star_loop_longest;
      [apply take_while_all | apply drop_while_stops | reflexivity]. }
  reflexivity.
Qed.

Lemma sub_enum_hit (digits rest : str) :
  isdecimal 46%N = false -> digits <> [] -> all_of isdecimal digits ->
  sub ENUM_PATTERN (fun _ => []) (digits ++ 46%N :: rest) = lstrip rest.
Proof.
  intros Hdot Hne Hd. destruct digits as [|d0 d]; [done|].
  pose proof (match_enum_hit d0 d rest Hdot Hd) as Hm.
  unfold sub.
  assert (Hshape : (d0 :: d) ++ 46%N :: rest
                   = ((d0 :: d) ++ 46%N :: take_while isspace rest)
                     ++ drop_while isspace rest).
  { rewrite <- app_assoc. cbn [app]. by rewrite take_drop_while. }
  rewrite Hshape in Hm |- *.
  erewrite sub_from_hit; cycle 1.
  { done. }
  { exact Hm. }
  { cbn [m_end]. simpl. rewrite length_app. simpl. lia. }
  cbn [app length Nat.add]. by rewrite sub_enum_later.
Qed.

Lemma match_enum_no_dot (digits rest : str) :
  isdecimal 46%N = false -> all_of isdecimal digits ->
  stops isdecimal rest -> stops (N.eqb 46) rest ->
  match_at ENUM_PATTERN (digits ++ rest) 0 = None.
Proof.
  intros Hdot Hd Hstop Hnodot.
  assert (Hk : forall (s : str) (q : nat),
    stops (N.eqb 46) s ->
    run (Cat (Chr 46%N) (Star isspace)) s q ∅
      (fun _ e g => Some (Match 0 e g)) = None).
  { intros s q Hs. unfold Chr. cbn [run]. destruct s as [|c s]; [done|].
    unfold stops in Hs. by rewrite Hs. }
  unfold match_at, ENUM_PATTERN, Plus. cbn [run].
  destruct digits as [|d0 d].
  - cbn [app]. destruct rest as [|c rest]; [done|]. unfold stops in Hstop.
    by rewrite Hstop.
  - inversion Hd as [|? ? Hd0 Hd']; subst. cbn [app]. rewrite Hd0.
    rewrite star_loop_only_longest; [|exact Hd'|exact Hstop|].
    + by apply Hk.
    + intros c s q Hc. apply Hk. unfold stops.
      destruct (N.eqb_spec 46 c) as [<-|]; [congruence|done].
Qed.

(** The text of a display line is made from the line without its
    chord markup: an enumeration at its start, digits then a dot then
    whitespace, is removed before the typography is applied, and a
    text that does not start so is only normalized. The chords keep
    the offsets they have in the text before the removal. *)
Theorem enumeration_removed (line : str) :
  isdecimal 46%N = false ->
  let clean := snd (Chords.parse_chord_line line) in
  (forall digits rest,
     digits <> [] -> all_of isdecimal digits ->
     clean = digits ++ 46%N :: rest ->
     text (render_line line)
     = [ TextItem (fix_french_punctuation (lstrip rest))
           (lit "font-size: 100px;") ])
  /\ (forall digits rest,
        all_of isdecimal digits -> stops isdecimal rest ->
        stops (N.eqb 46) rest -> clean = digits ++ rest ->
        text (render_line line)
        = [ TextItem (fix_french_punctuation clean)
              (lit "font-size: 100px;") ])
  /\ chords (render_line line) = fst (Chords.parse_chord_line line).
Proof.
  intros Hdot clean. unfold render_line. subst clean.
  destruct (Chords.parse_chord_line line) as [cs clean]. cbn [fst snd text chords].
  split; [|split; [|done]].
  - intros digits rest Hne Hd ->. by rewrite sub_enum_hit.
  - intros digits rest Hd Hstop Hnodot ->.
    by rewrite sub_enum_miss by (by apply match_enum_no_dot).
Qed.

End Enumeration_extras.

(** A numbered line with a chord: the number goes, the chord stays. *)
Lemma enumeration_removed_witness :
  FreeShow.text
    (@FreeShow.render_line Ascii_runtime.runtime (lit "1. [C]Dieu est amour"))
  = [ FreeShow.TextItem (lit "Dieu est amour") (lit "font-size: 100px;") ].
Proof.
  destruct (@enumeration_removed Ascii_runtime.runtime
              (lit "1. [C]Dieu est amour") eq_refl)
    as (Hnum & _).
  rewrite (Hnum (lit "1") (lit " Dieu est amour")).
  - reflexivity.
  - discriminate.
  - repeat constructor.
  - reflexivity.
Defined.

Section Year_extras.
Import Re Re_facts FrenchPunctuationHandler Enhance.
Context `{PyRuntime}.

Lemma search_year_skip (pre s : str) :
  Forall (fun c => isdecimal c = false) pre ->
  forall pos,
    search_from YEAR_PATTERN (pre ++ s) pos
    = search_from YEAR_PATTERN s (pos + length pre).
Proof.
  induction 1 as [|c pre Hc _ IH]; intros pos; cbn [app length].
  - by rewrite Nat.add_0_r.
  - cbn [search_from]. unfold match_at at 1, YEAR_PATTERN at 1. cbn [run].
    rewrite Hc. rewrite IH. f_equal. lia.
Qed.

Lemma search_year_none (s : str) :
  Forall (fun c => isdecimal c = false) s ->
  forall pos, search_from YEAR_PATTERN s pos = None.
Proof.
  induction 1 as [|c s Hc _ IH]; intros pos; [done|].
  cbn [search_from]. unfold match_at at 1, YEAR_PATTERN at 1. cbn [run].
  by rewrite Hc.
Qed.

Lemma search_year_hit (d1 d2 d3 d4 : char) (post : str) (pos : nat) :
  all_of isdecimal [d1; d2; d3; d4] ->
  exists e,
    search_from YEAR_PATTERN (d1 :: d2 :: d3 :: d4 :: post) pos
    = Some (Match pos e {[ 1 := [d1; d2; d3; d4] ]}).
Proof.
  intros Hd. unfold all_of in Hd. rewrite !Forall_cons in Hd.
  destruct Hd as (H1 & H2 & H3 & H4 & _). eexists.
  cbn [search_from]. unfold match_at, YEAR_PATTERN. cbn [run].
  rewrite H1, H2, H3, H4.
  replace (S (S (S (S pos))) - pos) with 4 by lia. cbn [take].
  by rewrite insert_empty.
Qed.

Lemma last_two {A : Type} (l : list A) (a b : A) : last (l ++ [a; b]) = Some b.
Proof.
  change [a; b] with ([a] ++ [b]). rewrite app_assoc. apply last_snoc.
Qed.

(** The year line of the header holds the first four decimal digits of
    the copyright, when no digit comes before them; a copyright without
    any decimal digit gives no year line. *)
Theorem year_from_copyright (csv_metadata : SongMetadata.t) :
  (forall pre d1 d2 d3 d4 post,
     SongMetadata.copyright csv_metadata = pre ++ d1 :: d2 :: d3 :: d4 :: post ->
     Forall (fun c => isdecimal c = false) pre ->
     all_of isdecimal [d1; d2; d3; d4] ->
     last (csv_header csv_metadata)
     = Some (directive (lit "year") [d1; d2; d3; d4]))
  /\ (Forall (fun c => isdecimal c = false)
        (SongMetadata.copyright csv_metadata) ->
      forall y, ~ In (directive (lit "year") y) (csv_header csv_metadata)).
Proof.
  split.
  - intros pre d1 d2 d3 d4 post Hc Hpre Hd. unfold csv_header. rewrite Hc.
    unfold re_search. rewrite search_year_skip by done.
    destruct (search_year_hit d1 d2 d3 d4 post (0 + length pre) Hd) as [e ->].
    unfold group_text, group. cbn [m_groups].
    rewrite lookup_singleton_eq. cbn [default from_option id].
    destruct (pre ++ d1 :: d2 :: d3 :: d4 :: post) eqn:E;
      [by destruct pre|].
    rewrite !app_assoc. apply last_two.
  - intros Hnone y Hin.
    assert (Hnames : forall l,
      In l (csv_header csv_metadata) ->
      exists name value a r, l = directive name value /\ name = a :: r
                             /\ a <> 121%N).
    { intros l Hl. unfold csv_header in Hl.
      unfold re_search in Hl. rewrite search_year_none in Hl by done.
      repeat (apply in_app_or in Hl as [Hl|Hl]).
      - destruct Hl as [<-|[<-|[]]]; eexists _, _, _, _;
          (split; [reflexivity|split; [reflexivity|done]]).
      - destruct (SongMetadata.author csv_metadata); [done|].
        destruct Hl as [<-|[]]. eexists _, _, _, _;
          (split; [reflexivity|split; [reflexivity|done]]).
      - destruct (SongMetadata.composer csv_metadata); [done|].
        destruct Hl as [<-|[]]. eexists _, _, _, _;
          (split; [reflexivity|split; [reflexivity|done]]).
      - destruct (SongMetadata.copyright csv_metadata); [done|].
        destruct Hl as [<-|[]]. eexists _, _, _, _;
          (split; [reflexivity|split; [reflexivity|done]]). }
    destruct (Hnames _ Hin) as (name & value & a & r & Heq & -> & Ha).
    unfold directive in Heq. change (lit "{") with [123%N] in Heq.
    change (lit "year") with (121%N :: lit "ear") in Heq.
    simpl in Heq. congruence.
Qed.

End Year_extras.

(** A copyright notice with its year. *)
Lemma year_from_copyright_witness :
  let csv_metadata :=
    SongMetadata.Make (lit "JEM001") (lit "Dieu est amour") [] [] [] [] [] []
      (lit "(c) 1998 JEM") [] [] [] [] [] [] [] in
  last (@Enhance.csv_header Ascii_runtime.runtime csv_metadata)
  = Some (lit "{year: 1998}").
Proof.
  intros csv_metadata.
  destruct (@year_from_copyright Ascii_runtime.runtime csv_metadata)
    as [Hyear _].
  apply (Hyear (lit "(c) ") 49%N 57%N 57%N 56%N (lit " JEM")).
  - reflexivity.
  - repeat constructor.
  - repeat constructor.
Defined.

(** ** File names *)

Section Filename_extras.
Import Re Re_facts OnlineResourceManager.
Context `{PyRuntime}.

Lemma run_literal {A : Type} (w : str) :
  forall (s : str) (pos : nat) (g : gmap nat str)
         (k : str -> nat -> gmap nat str -> option A),
    run (literal w) s pos g k
    = if startswith s w then k (drop (length w) s) (pos + length w) g
      else None.
Proof.
  induction w as [|a w IH]; intros s pos g k; cbn [literal run].
  - destruct s; cbn [startswith length drop]; by rewrite Nat.add_0_r.
  - unfold Chr. cbn [run]. destruct s as [|c s]; [done|].
    cbn [startswith]. destruct (a =? c)%N; [|done]. cbn [andb].
    rewrite IH. cbn [length drop]. by rewrite Nat.add_succ_r.
Qed.

Lemma match_suffix_other (c : char) (s : str) (pos : nat) :
  c <> 95%N -> match_at SUFFIX_PATTERN (c :: s) pos = None.
Proof.
  intros Hc. unfold match_at, SUFFIX_PATTERN. cbn [run]. rewrite run_literal.
  change (lit "_0.chordpro") with (95%N :: lit "0.chordpro").
  cbn [startswith]. destruct (N.eqb_spec 95 c) as [<-|]; done.
Qed.

(** The suffix substitution copies a text without underscore. *)
Lemma sub_suffix_skip (repl : rmatch -> str) (w s : str) :
  Forall (fun c => c <> 95%N) w ->
  forall pos,
    sub_from SUFFIX_PATTERN repl (w ++ s) pos 0
    = w ++ sub_from SUFFIX_PATTERN repl s (pos + length w) 0.
Proof.
  induction 1 as [|c w Hc _ IH]; intros pos; cbn [app length].
  - by rewrite Nat.add_0_r.
  - rewrite sub_from_miss by (by apply match_suffix_other).
    rewrite IH. rewrite Nat.add_succ_r. reflexivity.
Qed.

Lemma sub_suffix_plain (repl : rmatch -> str) (w : str) :
  Forall (fun c => c <> 95%N) w ->
  sub SUFFIX_PATTERN repl w = w.
Proof.
  intros Hw. unfold sub. rewrite <- (app_nil_r w) at 1.
  rewrite sub_suffix_skip by done. cbn [sub_from]. by rewrite app_nil_r.
Qed.

Lemma sub_suffix_hit (pos : nat) :
  sub_from SUFFIX_PATTERN (fun _ => lit ".chordpro") (lit "_0.chordpro") pos 0
  = lit ".chordpro".
Proof.
  assert (Hm : match_at SUFFIX_PATTERN (lit "_0.chordpro" ++ []) pos
               = Some (Match pos (pos + 11) ∅)).
  { unfold match_at, SUFFIX_PATTERN. cbn [run]. rewrite run_literal.
    reflexivity. }
  rewrite <- (app_nil_r (lit "_0.chordpro")).
  erewrite sub_from_hit; cycle 1.
  { done. }
  { exact Hm. }
  { reflexivity. }
  cbn [sub_from]. by rewrite app_nil_r.
Qed.

Lemma sub_suffix_stops (p : char -> bool) (s : str) (pos : nat) :
  p 46%N = false -> stops p s ->
  stops p (sub_from SUFFIX_PATTERN (fun _ => lit ".chordpro") s pos 0).
Proof.
  intros Hdot Hs. destruct s as [|c s]; [done|]. cbn [sub_from].
  destruct (match_at SUFFIX_PATTERN (c :: s) pos); [exact Hdot | exact Hs].
Qed.

Lemma match_jem (d0 : char) (d rest : str) :
  all_of isdecimal (d0 :: d) -> stops isdecimal rest ->
  exists e,
    re_match JEM_PATTERN (lit "jem" ++ (d0 :: d) ++ rest)
    = Some (Match 0 e {[ 1 := d0 :: d ]}).
Proof.
  intros Hd Hstop. inversion Hd as [|? ? Hd0 Hd']; subst. eexists.
  unfold re_match, match_at, JEM_PATTERN, Plus. cbn [run]. rewrite run_literal.
  change (startswith (lit "jem" ++ (d0 :: d) ++ rest) (lit "jem")) with true.
  cbv iota. change (drop (length (lit "jem")) (lit "jem" ++ (d0 :: d) ++ rest))
    with (d0 :: d ++ rest).
  cbn [run]. rewrite Hd0.
  erewrite star_loop_longest; cycle 1.
  { exact Hd'. }
  { exact Hstop. }
  { reflexivity. }
  do 2 f_equal. rewrite insert_empty. f_equal.
  change (0 + length (lit "jem")) with 3.
  replace (S 3 + length d - 3) with (length (d0 :: d)) by (simpl; lia).
  apply (take_app_length (d0 :: d)).
Qed.

Lemma star_loop_total {A : Type} (p : char -> bool)
    (k : str -> nat -> option A) (s : str) :
  (forall s' q, is_Some (k s' q)) ->
  forall pos, is_Some (star_loop p k s pos).
Proof.
  intros Hk. induction s as [|c s IH]; intros pos; cbn [star_loop]; [done|].
  destruct (p c); [|done]. destruct (IH (S pos)) as [x ->]. eauto.
Qed.

(** A name that fails the test [jem(\d+)] still fails it once
    [.chordpro] is put after it. *)
Lemma no_match_jem_suffix (base x : str) :
  isdecimal 46%N = false ->
  re_match JEM_PATTERN base = None ->
  re_match JEM_PATTERN (base ++ 46%N :: x) = None.
Proof.
  intros Hdot. unfold re_match, match_at, JEM_PATTERN, Plus. cbn [run].
  rewrite !run_literal. change (lit "jem") with [106%N; 101%N; 109%N].
  destruct base as [|a [|b [|c [|d base]]]]; cbn [startswith app length drop];
    try (destruct (106 =? a)%N; cbn [andb]; [|done]);
    try (destruct (101 =? b)%N; cbn [andb]; [|done]);
    try (destruct (109 =? c)%N; cbn [andb]; [|done]);
    try done.
  - cbn [run]. by rewrite Hdot.
  - cbn [run]. destruct (isdecimal d); [|done]. intros Hnone.
    destruct (star_loop_total isdecimal
                (fun s1 p1 =>
                   Some (Match 0 p1 (<[1 := take (p1 - (0 + 3)) (d :: base)]> ∅)))
                base ltac:(eauto) (S (0 + 3))) as [m Hm].
    rewrite Hm in Hnone. done.
Qed.

Lemma zfill_digits (width : nat) (digits : str) :
  isdecimal 43%N = false -> isdecimal 45%N = false ->
  all_of isdecimal digits ->
  zfill width digits = replicate (width - length digits) 48%N ++ digits.
Proof.
  intros Hplus Hminus Hd. unfold zfill. destruct digits as [|c d].
  - by rewrite app_nil_r.
  - inversion Hd as [|? ? Hc _]; subst.
    destruct (N.eqb_spec c 43) as [->|_]; [congruence|].
    destruct (N.eqb_spec c 45) as [->|_]; [congruence|]. done.
Qed.

Lemma normalize_jem (digits rest : str) :
  isdecimal 46%N = false -> isdecimal 95%N = false ->
  digits <> [] -> all_of isdecimal digits -> stops isdecimal rest ->
  normalize_filename (lit "jem" ++ digits ++ rest)
  = lit "jem" ++ zfill 3 digits ++ lit ".chordpro".
Proof.
  intros Hdot Hunder Hne Hd Hstop. unfold normalize_filename, sub.
  assert (Hw : Forall (fun c => c <> 95%N) (lit "jem" ++ digits)).
  { apply Forall_app. split; [by repeat constructor|].
    eapply Forall_impl; [exact Hd|]. simpl. intros c Hc ->. congruence. }
  rewrite app_assoc, sub_suffix_skip by done. rewrite <- app_assoc.
  destruct digits as [|d0 d]; [done|].
  destruct (match_jem d0 d
              (sub_from SUFFIX_PATTERN (fun _ => lit ".chordpro") rest
                 (0 + length (lit "jem" ++ d0 :: d)) 0) Hd)
    as [e Hm]; [by apply sub_suffix_stops|].
  rewrite Hm. unfold group_text, group. cbn [m_groups].
  by rewrite lookup_singleton_eq.
Qed.

(** A name made of [jem], a number and anything that does not go on
    with a digit is turned into [jem], the number filled with zeros on
    the left up to three digits, and [.chordpro]: what follows the
    number is dropped, whatever it is. *)
Theorem normalize_numbered_name (digits rest : str) :
  Forall (fun c => isdecimal c = false) (lit "+-._") ->
  digits <> [] -> all_of isdecimal digits -> stops isdecimal rest ->
  normalize_filename (lit "jem" ++ digits ++ rest)
  = lit "jem" ++ replicate (3 - length digits) 48%N ++ digits
    ++ lit ".chordpro"
  /\ 3 <= length (replicate (3 - length digits) 48%N ++ digits).
Proof.
  intros Hclass Hne Hd Hstop.
  change (lit "+-._") with [43%N; 45%N; 46%N; 95%N] in Hclass.
  rewrite !Forall_cons in Hclass.
  destruct Hclass as (Hplus & Hminus & Hdot & Hunder & _).
  rewrite normalize_jem by done. rewrite zfill_digits by done.
  split; [by rewrite <- app_assoc|].
  rewrite length_app, length_replicate. unfold char. lia.
Qed.

(** On a name made of [jem] and a number, normalizing twice gives what
    normalizing once gives. *)
Theorem normalize_numbered_idempotent (digits rest : str) :
  isdecimal 48%N = true ->
  Forall (fun c => isdecimal c = false) (lit "+-._") ->
  digits <> [] -> all_of isdecimal digits -> stops isdecimal rest ->
  normalize_filename (normalize_filename (lit "jem" ++ digits ++ rest))
  = normalize_filename (lit "jem" ++ digits ++ rest).
Proof.
  intros Hzero Hclass Hne Hd Hstop.
  change (lit "+-._") with [43%N; 45%N; 46%N; 95%N] in Hclass.
  rewrite !Forall_cons in Hclass.
  destruct Hclass as (Hplus & Hminus & Hdot & Hunder & _).
  rewrite (normalize_jem digits rest) by done.
  rewrite zfill_digits by done.
  set (padded := replicate (3 - length digits) 48%N ++ digits).
  assert (Hp : all_of isdecimal padded).
  { apply Forall_app. split; [|done]. by apply Forall_replicate. }
  assert (Hlen : 3 <= length padded).
  { unfold padded. rewrite length_app, length_replicate. unfold char. lia. }
  rewrite normalize_jem; [|done|done| |done|exact Hdot].
  - rewrite zfill_digits by done.
    match goal with
    | |- context [replicate ?n 48%N ++ padded] =>
        replace n with 0 by (unfold char in *; lia)
    end.
    done.
  - intros ->. simpl in Hlen. lia.
Qed.

(** A name without underscore that fails the test [jem(\d+)]: the
    suffix [_0.chordpro] becomes [.chordpro] and nothing else changes;
    without that suffix the name is returned as it is. *)
Theorem normalize_other_name (base : str) :
  isdecimal 46%N = false ->
  Forall (fun c => c <> 95%N) base ->
  re_match JEM_PATTERN base = None ->
  normalize_filename (base ++ lit "_0.chordpro") = base ++ lit ".chordpro"
  /\ normalize_filename (base ++ lit ".chordpro") = base ++ lit ".chordpro".
Proof.
  intros Hdot Hbase Hjem.
  pose proof (no_match_jem_suffix base (lit "chordpro") Hdot Hjem) as Hnone.
  change (46%N :: lit "chordpro") with (lit ".chordpro") in Hnone.
  split; unfold normalize_filename.
  - unfold sub. rewrite sub_suffix_skip by done. rewrite sub_suffix_hit.
    by rewrite Hnone.
  - rewrite sub_suffix_plain.
    + by rewrite Hnone.
    + apply Forall_app. split; [done|]. by repeat constructor.
Qed.

End Filename_extras.

(** The file [jem917_0.chordpro] of the repository. *)
Lemma normalize_numbered_name_witness :
  @OnlineResourceManager.normalize_filename Ascii_runtime.runtime
    (lit "jem917_0.chordpro")
  = lit "jem917.chordpro".
Proof.
  destruct (@normalize_numbered_name Ascii_runtime.runtime
              (lit "917") (lit "_0.chordpro"))
    as [Hname _].
  - repeat constructor.
  - discriminate.
  - repeat constructor.
  - reflexivity.
  - exact Hname.
Defined.

(** A short number: [jem5.chordpro] becomes [jem005.chordpro] and stays so. *)
Lemma normalize_numbered_idempotent_witness :
  @OnlineResourceManager.normalize_filename Ascii_runtime.runtime
    (@OnlineResourceManager.normalize_filename Ascii_runtime.runtime
       (lit "jem5.chordpro"))
  = @OnlineResourceManager.normalize_filename Ascii_runtime.runtime
      (lit "jem5.chordpro").
Proof.
  apply (@normalize_numbered_idempotent Ascii_runtime.runtime
           (lit "5") (lit ".chordpro")).
  - reflexivity.
  - repeat constructor.
  - discriminate.
  - repeat constructor.
  - reflexivity.
Defined.

(** A name of the other series: [jemk012_0.chordpro]. *)
Lemma normalize_other_name_witness :
  @OnlineResourceManager.normalize_filename Ascii_runtime.runtime
    (lit "jemk012_0.chordpro")
  = lit "jemk012.chordpro".
Proof.
  destruct (@normalize_other_name Ascii_runtime.runtime (lit "jemk012"))
    as [Hname _].
  - reflexivity.
  - repeat constructor; discriminate.
  - reflexivity.
  - exact Hname.
Defined.

(** ** What stripping and the normalizer keep *)

Section Forall_facts.
Import Re Re_facts FrenchPunctuationHandler Typography_spec Typography_facts.
Variable Q : char -> Prop.

Lemma Forall_drop_while (p : char -> bool) (s : str) :
  Forall Q s -> Forall Q (drop_while p s).
Proof.
  induction 1 as [|c s Hc Hs IH]; simpl; [constructor|].
  destruct (p c); [done | by constructor].
Qed.

Lemma Forall_strip (s : str) : Forall Q s -> Forall Q (strip s).
Proof.
  intros Hs. unfold strip, rstrip, lstrip.
  apply Forall_rev, Forall_drop_while, Forall_rev. by apply Forall_drop_while.
Qed.

Lemma Forall_removelast (s : str) : Forall Q s -> Forall Q (removelast s).
Proof.
  induction 1 as [|c s Hc Hs IH]; simpl; [constructor|].
  destruct s; [constructor | by constructor].
Qed.

Lemma Forall_slice_to_last (a : nat) (s : str) :
  Forall Q s -> Forall Q (slice_to_last a s).
Proof. intros Hs. apply Forall_removelast. by apply Forall_drop. Qed.

Lemma Forall_normalize_from (s : str) :
  Q NBSP -> Forall Q s ->
  forall b u, Forall Q u -> Forall Q (normalize_from b u s).
Proof.
  intros Hn. induction 1 as [|c s Hc Hs IH]; intros b u Hu; simpl.
  - destruct b; [by repeat constructor | done].
  - destruct (isspace c).
    + apply IH. apply Forall_app. split; [done | by repeat constructor].
    + apply Forall_app. split.
      * destruct (b || double_punct c); [by repeat constructor | done].
      * constructor; [done|]. apply IH. constructor.
Qed.

Lemma Forall_fix (s : str) :
  Q NBSP -> Forall Q s -> Forall Q (fix_french_punctuation s).
Proof.
  intros Hn Hs. rewrite fix_is_normalize. unfold normalize_spec.
  apply Forall_normalize_from; [done|done|constructor].
Qed.

(** The groups of a match are pieces of the text. *)
Lemma run_forall {A : Type} (r : regex) :
  forall (s : str) (pos : nat) (g : gmap nat str)
         (k : str -> nat -> gmap nat str -> option A) (x : A),
    Forall Q s -> map_Forall (fun _ v => Forall Q v) g ->
    run r s pos g k = Some x ->
    exists s1 p1 g1,
      Forall Q s1 /\ map_Forall (fun _ v => Forall Q v) g1
      /\ k s1 p1 g1 = Some x.
Proof.
  induction r as [|p|p|r1 IH1 r2 IH2|r1 IH1 r2 IH2|i r1 IH1| |];
    intros s pos g k x Hs Hg Hx; simpl in Hx.
  - eauto 10.
  - destruct s as [|c s]; [done|]. destruct (p c); [|done].
    inversion Hs; subst. eauto 10.
  - apply star_loop_some in Hx as (n & _ & Hk).
    exists (drop n s), (pos + n), g. split; [by apply Forall_drop|done].
  - apply IH1 in Hx as (s1 & p1 & g1 & Hs1 & Hg1 & Hx); [|done|done].
    by apply IH2 in Hx.
  - destruct (run r1 s pos g k) as [y|] eqn:E.
    + injection Hx as ->. by apply IH1 in E.
    + by apply IH2 in Hx.
  - apply IH1 in Hx as (s1 & p1 & g1 & Hs1 & Hg1 & Hx); [|done|done].
    exists s1, p1, (<[i := take (p1 - pos) s]> g1). split; [done|].
    split; [|done]. apply map_Forall_insert_2; [|done]. by apply Forall_take.
  - destruct pos; [eauto 10|done].
  - destruct s as [|c [|d s]]; [eauto 10| |done].
    destruct (c =? NL)%N; [eauto 10|done].
Qed.

Lemma match_at_forall (r : regex) (s : str) (pos : nat) (m : rmatch) (i : nat) :
  Forall Q s -> match_at r s pos = Some m -> Forall Q (group_text m i).
Proof.
  intros Hs Hm. unfold match_at in Hm.
  apply run_forall in Hm as (s1 & p1 & g1 & _ & Hg & Hm);
    [|done|apply map_Forall_empty].
  injection Hm as <-. unfold group_text, group. cbn [m_groups].
  destruct (g1 !! i) as [v|] eqn:E; [|constructor]. by apply (Hg i v).
Qed.

Lemma search_from_forall (r : regex) (s : str) :
  Forall Q s ->
  forall pos m i, search_from r s pos = Some m -> Forall Q (group_text m i).
Proof.
  induction 1 as [|c s Hc Hs IH]; intros pos m i Hm; cbn [search_from] in Hm.
  - destruct (match_at r [] pos) eqn:E; [|done]. injection Hm as <-.
    by eapply match_at_forall; [|exact E].
  - destruct (match_at r (c :: s) pos) eqn:E.
    + injection Hm as <-. eapply match_at_forall; [|exact E]. by constructor.
    + by eapply IH.
Qed.

End Forall_facts.

Section Head_facts.
Import Re Re_facts FrenchPunctuationHandler Typography_spec Typography_facts.

Lemma drop_while_snoc (p : char -> bool) (l : str) (c : char) :
  p c = false -> drop_while p (l ++ [c]) = drop_while p l ++ [c].
Proof.
  intros Hc. induction l as [|a l IH]; simpl; [by rewrite Hc|].
  by destruct (p a).
Qed.

(** Stripping on the right keeps a first character that is visible. *)
Lemma rstrip_stops (t : str) : stops isspace t -> head (rstrip t) = head t.
Proof.
  destruct t as [|c t]; [done|]. unfold stops. intros Hc.
  unfold rstrip. cbn [rev]. rewrite drop_while_snoc by done.
  by rewrite rev_app_distr.
Qed.

Lemma head_strip (s : str) : head (strip s) = head (lstrip s).
Proof. unfold strip. apply rstrip_stops, drop_while_stops. Qed.

Lemma rstrip_stops_end (t : str) : stops isspace (rev (rstrip t)).
Proof. unfold rstrip. rewrite rev_involutive. apply drop_while_stops. Qed.

Lemma drop_while_id (p : char -> bool) (s : str) :
  stops p s -> drop_while p s = s.
Proof. destruct s as [|c s]; [done|]. unfold stops. simpl. by intros ->. Qed.

Lemma rstrip_keeps_stop (t : str) : stops isspace t -> stops isspace (rstrip t).
Proof.
  intros Ht. pose proof (rstrip_stops t Ht) as Hh.
  destruct t as [|c t]; [done|]. destruct (rstrip (c :: t)); [done|].
  simpl in Hh. injection Hh as ->. exact Ht.
Qed.

(** Stripping twice is stripping once. *)
Lemma strip_strip (s : str) : strip (strip s) = strip s.
Proof.
  assert (Hl : lstrip (strip s) = strip s).
  { apply drop_while_id. unfold strip. apply rstrip_keeps_stop, drop_while_stops. }
  unfold strip at 1. rewrite Hl. unfold rstrip at 1.
  rewrite drop_while_id; [apply rev_involutive|].
  unfold strip. apply rstrip_stops_end.
Qed.

Lemma head_lstrip_normalize (s : str) :
  forall u, all_of isspace u ->
    head (lstrip (normalize_from false u s)) = head (lstrip s).
Proof.
  induction s as [|c s IH]; intros u Hu; cbn [normalize_from].
  - unfold lstrip. rewrite <- (app_nil_r u).
    by rewrite (drop_while_app isspace u []).
  - destruct (isspace c) eqn:Hc.
    + rewrite IH.
      * unfold lstrip. simpl. by rewrite Hc.
      * apply Forall_app. split; [done | by repeat constructor].
    + cbn [orb]. unfold lstrip.
      assert (Hw : all_of isspace (if double_punct c then [NBSP] else u)).
      { destruct (double_punct c); [by repeat constructor | done]. }
      rewrite (drop_while_app isspace _ (c :: _) Hw) by exact Hc.
      simpl. by rewrite Hc.
Qed.

(** The normalizer keeps the first visible character of a text. *)
Lemma head_strip_fix (s : str) :
  head (strip (fix_french_punctuation s)) = head (strip s).
Proof.
  rewrite !head_strip, fix_is_normalize. unfold normalize_spec.
  apply head_lstrip_normalize. constructor.
Qed.

Lemma startswith_one (t : str) (a : char) :
  startswith t [a] = match head t with Some c => (a =? c)%N | None => false end.
Proof.
  destruct t as [|c t]; [done|]. cbn [startswith head].
  destruct t; by rewrite andb_true_r.
Qed.

Lemma not_brace (t : str) (p : str) :
  startswith t (lit "{") = false -> startswith t (123%N :: p) = false.
Proof.
  change (lit "{") with [123%N]. rewrite startswith_one.
  destruct t as [|c t]; [done|]. cbn [head startswith]. by intros ->.
Qed.

End Head_facts.

(** ** The enhanced text, parsed again *)

Section Pipeline_extras.
Import Re Re_facts FrenchPunctuationHandler Parser Parser_spec Parser_facts.
Import Enhance Pipeline_spec.
Context `{PyRuntime}.

Lemma step_label (st : state) (line : str) :
  plain_line line ->
  current_section_label (step st line) = current_section_label st.
Proof.
  intros [Hb Hc]. unfold boundary, start_marker, end_marker in Hb.
  apply orb_false_iff in Hb as [Hs He]. unfold step. rewrite Hc, Hs, He.
  destruct (startswith (strip line) (lit "{")); [done|].
  by destruct (in_section st).
Qed.

Lemma fold_plain (body : list str) :
  Forall plain_line body ->
  forall st,
    let st' := fold_left step body st in
    sections st' = sections st /\
    in_section st' = in_section st /\
    current_section_info st' = current_section_info st /\
    current_section_label st' = current_section_label st /\
    current_section_content st'
    = if in_section st then current_section_content st ++ body
      else current_section_content st.
Proof.
  intros Hbody st. cbv zeta.
  assert (Hb : Forall (fun l => boundary l = false) body).
  { eapply Forall_impl; [exact Hbody|]. by intros l [Hl _]. }
  destruct (fold_body body st Hb) as (Hs & Hi & Hn & Hc).
  repeat (split; [done|]). split; [|done]. clear Hs Hi Hn Hc Hb.
  revert st. induction Hbody as [|line body Hl _ IH]; intros st; [done|].
  cbn [fold_left]. rewrite IH. by apply step_label.
Qed.

Lemma startswith_app (p s : str) : startswith (p ++ s) p = true.
Proof.
  induction p as [|a p IH]; [by destruct s|].
  cbn [app startswith]. by rewrite N.eqb_refl, IH.
Qed.

Lemma start_line_strip (ty : str) :
  strip (lit "{start_of_" ++ ty ++ lit "}") = lit "{start_of_" ++ ty ++ lit "}".
Proof.
  change (lit "{start_of_" ++ ty ++ lit "}")
    with (123%N :: (lit "start_of_" ++ ty) ++ [125%N]) at 1.
  rewrite strip_visible by done. by rewrite <- app_assoc.
Qed.

Lemma end_line_strip (ty : str) :
  strip (lit "{end_of_" ++ ty ++ lit "}") = lit "{end_of_" ++ ty ++ lit "}".
Proof.
  change (lit "{end_of_" ++ ty ++ lit "}")
    with (123%N :: (lit "end_of_" ++ ty) ++ [125%N]) at 1.
  rewrite strip_visible by done. by rewrite <- app_assoc.
Qed.

Lemma start_line_marker (ty : str) :
  start_marker (lit "{start_of_" ++ ty ++ lit "}") = true
  /\ block_type_of (lit "{start_of_" ++ ty ++ lit "}") = strip ty.
Proof.
  unfold start_marker, block_type_of. rewrite start_line_strip.
  split; [apply startswith_app|]. f_equal. unfold slice_to_last.
  change (drop 10 (lit "{start_of_" ++ ty ++ lit "}")) with (ty ++ [125%N]).
  apply removelast_last.
Qed.

Lemma end_line_marker (ty : str) :
  end_marker (lit "{end_of_" ++ ty ++ lit "}") = true
  /\ start_marker (lit "{end_of_" ++ ty ++ lit "}") = false.
Proof.
  unfold end_marker, start_marker. rewrite end_line_strip.
  split; [apply startswith_app | reflexivity].
Qed.

Lemma step_blank (st : state) : in_section st = false -> step st [] = st.
Proof. intros Hin. unfold step. change (strip []) with (@nil char). simpl. by rewrite Hin. Qed.

(** The lines written for one section, read from outside a section and
    without pending label, add that section as it is read back. *)
Lemma run_section_lines (sec : ChordProSection.t) (st : state) :
  in_section st = false -> current_section_label st = None ->
  strip (ChordProSection.type sec) = ChordProSection.type sec ->
  Forall plain_line (map written (ChordProSection.content sec)) ->
  let st' := fold_left step (section_lines sec) st in
  sections st' = sections st ++ [read_back sec]
  /\ in_section st' = false /\ current_section_label st' = None.
Proof.
  intros Hin Hlabel Hty Hplain. cbv zeta. unfold section_lines.
  fold written.
  set (ty := ChordProSection.type sec) in *.
  set (body := map written (ChordProSection.content sec)) in *.
  destruct (start_line_marker ty) as [Hs Hbt].
  destruct (end_line_marker ty) as [He _].
  cbn [fold_left]. rewrite step_start by done. rewrite Hin, Hlabel, Hbt, Hty.
  rewrite fold_left_app.
  match goal with
  | |- context [fold_left step body ?s0] => set (st1 := s0)
  end.
  destruct (fold_plain body Hplain st1) as (Hsec & Hi & Hinfo & Hlab & Hcont).
  set (st2 := fold_left step body st1) in *.
  cbn [fold_left].
  rewrite (step_end st2 (lit "{end_of_" ++ ty ++ lit "}") He).
  rewrite Hi. cbn [st1 in_section].
  rewrite step_blank by done. cbn [sections in_section current_section_label].
  split; [|split; [done|]].
  - unfold emit. rewrite Hinfo, Hsec, Hcont. cbn [st1 current_section_info
      sections in_section current_section_content info_name info_type
      info_number open_info app].
    reflexivity.
  - rewrite Hlab. reflexivity.
Qed.

Lemma run_sections_lines (secs : list ChordProSection.t) :
  Forall (fun sec =>
            strip (ChordProSection.type sec) = ChordProSection.type sec
            /\ Forall plain_line (map written (ChordProSection.content sec)))
    secs ->
  forall st,
    in_section st = false -> current_section_label st = None ->
    let st' := fold_left step (concat (map section_lines secs)) st in
    sections st' = sections st ++ map read_back secs
    /\ in_section st' = false /\ current_section_label st' = None.
Proof.
  induction 1 as [|sec secs [Hty Hplain] _ IH]; intros st Hin Hlabel; cbv zeta.
  - cbn [map concat fold_left]. by rewrite app_nil_r.
  - cbn [map concat]. rewrite fold_left_app.
    destruct (run_section_lines sec st Hin Hlabel Hty Hplain) as (Hs & Hi & Hl).
    destruct (IH _ Hi Hl) as (Hs' & Hi' & Hl').
    rewrite Hs', Hs, <- app_assoc. by repeat split.
Qed.


Lemma nbsp_not_nl : NBSP <> NL.
Proof. done. Qed.

Lemma written_nl_free (line : str) : nl_free line -> nl_free (written line).
Proof.
  intros Hl. unfold written. destruct (negb _); [|done].
  by apply Forall_fix; [apply nbsp_not_nl|].
Qed.

Lemma written_plain (line : str) : plain_line line -> plain_line (written line).
Proof.
  intros Hl. unfold written.
  destruct (startswith (strip line) (lit "{")) eqn:Hb; [done|]. cbn [negb].
  assert (Hb' : startswith (strip (fix_french_punctuation line)) (lit "{") = false).
  { change (lit "{") with [123%N] in *. rewrite startswith_one in *.
    by rewrite head_strip_fix. }
  unfold plain_line, boundary, start_marker, end_marker, is_start, is_end,
    is_comment.
  change (lit "{start_of_") with (123%N :: lit "start_of_").
  change (lit "{end_of_") with (123%N :: lit "end_of_").
  change (lit "{c:") with (123%N :: lit "c:").
  by rewrite !(not_brace _ _ Hb').
Qed.

Lemma table_types_stripped (ty : str) :
  In ty (map snd label_to_type_map) -> strip ty = ty /\ nl_free ty.
Proof.
  intros Hin. simpl in Hin.
  repeat (destruct Hin as [<-|Hin];
          [split; [reflexivity | by repeat constructor]|]).
  destruct Hin.
Qed.

(** What the first parse gives for each section: its content lines are
    no boundary markers and hold no newline, and its type is a
    stripped text without newline. *)
Lemma parsed_section_shape (content : str) (sec : ChordProSection.t) :
  In sec (snd (parse_chordpro_file content)) ->
  Forall (fun l => boundary l = false) (ChordProSection.content sec)
  /\ Forall nl_free (ChordProSection.content sec)
  /\ strip (ChordProSection.type sec) = ChordProSection.type sec
  /\ nl_free (ChordProSection.type sec).
Proof.
  intros Hsec. unfold parse_chordpro_file in Hsec. simpl in Hsec.
  destruct (blocks_invariant (split_lines content)) as [Hblocks _].
  destruct (Hblocks sec Hsec)
    as (pre & start & body & stop & post & Hl & _ & Hb & _ & Hc & _ & Hty).
  pose proof (split_lines_nl_free content) as Hall. rewrite Hl in Hall.
  apply Forall_app in Hall as [_ Hall].
  apply Forall_cons in Hall as [Hstart Hall'].
  apply Forall_app in Hall' as [Hbody _].
  rewrite Hc. split; [done|]. split; [done|].
  destruct Hty as [->|Hin]; [|by apply table_types_stripped].
  unfold block_type_of. split; [apply strip_strip|].
  by apply Forall_strip, Forall_slice_to_last, Forall_strip.
Qed.

Lemma directive_nl_free (name value : str) :
  nl_free name -> nl_free value -> nl_free (directive name value).
Proof.
  intros Hn Hv. unfold directive.
  repeat (apply Forall_app; split); try done; by repeat constructor.
Qed.

Lemma directive_strip (name value : str) :
  strip (directive name value) = directive name value.
Proof.
  assert (Hshape : directive name value
                   = 123%N :: (name ++ 58%N :: 32%N :: value) ++ [125%N]).
  { rewrite directive_cons. by rewrite <- app_assoc. }
  rewrite Hshape. by apply strip_visible.
Qed.

Lemma header_directive_plain (name value : str) :
  In name [ lit "number"; lit "title"; lit "lyricist"; lit "composer";
            lit "copyright"; lit "year"; lit "key" ] ->
  plain_line (directive name value) /\ nl_free name.
Proof.
  intros Hin. unfold plain_line, boundary, start_marker, end_marker.
  rewrite directive_strip.
  repeat (destruct Hin as [<-|Hin];
          [split; [split; reflexivity | by repeat constructor]|]).
  destruct Hin.
Qed.

Lemma header_line_ok (name value : str) :
  In name [ lit "number"; lit "title"; lit "lyricist"; lit "composer";
            lit "copyright"; lit "year"; lit "key" ] ->
  nl_free value ->
  plain_line (directive name value) /\ nl_free (directive name value).
Proof.
  intros Hin Hv. destruct (header_directive_plain name value Hin) as [Hp Hn].
  split; [done|]. by apply directive_nl_free.
Qed.

Lemma csv_header_ok (m : SongMetadata.t) :
  plain_row m ->
  Forall (fun l => plain_line l /\ nl_free l) (csv_header m).
Proof.
  intros (Hnum & Htitle & Hauthor & Hcomposer & Hcopy). unfold csv_header.
  assert (Hfix : forall v, nl_free v -> nl_free (fix_french_punctuation v)).
  { intros v Hv. by apply Forall_fix; [apply nbsp_not_nl|]. }
  assert (Hline : forall name value,
    In name [ lit "number"; lit "title"; lit "lyricist"; lit "composer";
              lit "copyright"; lit "year"; lit "key" ] ->
    nl_free value ->
    Forall (fun l => plain_line l /\ nl_free l) [directive name value]).
  { intros name value Hin Hv. apply Forall_cons_2; [|constructor].
    by apply header_line_ok. }
  repeat (apply Forall_app; split).
  - apply Forall_cons_2; [apply header_line_ok; simpl; auto 10|].
    apply Hline; simpl; auto 10.
  - destruct (SongMetadata.author m) eqn:E; [constructor|].
    rewrite <- E in Hauthor |- *. apply Hline; simpl; auto 10.
  - destruct (SongMetadata.composer m) eqn:E; [constructor|].
    rewrite <- E in Hcomposer |- *. apply Hline; simpl; auto 10.
  - destruct (SongMetadata.copyright m) eqn:E; [constructor|].
    rewrite <- E in Hcopy |- *.
    apply Forall_cons_2; [apply header_line_ok; simpl; auto 10|].
    destruct (re_search YEAR_PATTERN (SongMetadata.copyright m)) as [ym|] eqn:Ey;
      [|constructor].
    apply Hline; [simpl; auto 10|].
    unfold re_search in Ey. by eapply search_from_forall; [|exact Ey].
Qed.

Lemma step_metadata (P : str -> Prop) (st : state) (line : str) :
  P [] ->
  (forall m : rmatch,
     re_match DIRECTIVE_PATTERN (strip line) = Some m ->
     P (strip (group_text m 2))) ->
  map_Forall (fun _ v => P v) (metadata st) ->
  map_Forall (fun _ v => P v) (metadata (step st line)).
Proof.
  intros Hnil Hgroup Hst. unfold step.
  destruct (is_comment (strip line)); [done|].
  destruct (is_start (strip line)); [done|].
  destruct (is_end (strip line)); [by destruct (in_section st)|].
  destruct (startswith (strip line) (lit "{")); [|by destruct (in_section st)].
  cbn [metadata].
  destruct (re_match DIRECTIVE_PATTERN (strip line)) as [m|] eqn:Em; [|done].
  apply map_Forall_insert_2; [|done].
  specialize (Hgroup m eq_refl). unfold group_text in Hgroup.
  destruct (group m 2) as [[|c v]|]; [done|exact Hgroup|done].
Qed.

Lemma metadata_nl_free (lines : list str) :
  Forall nl_free lines ->
  map_Forall (fun _ v => nl_free v) (metadata (run_lines lines)).
Proof.
  induction lines as [|line lines IH] using rev_ind; intros Hl.
  - apply map_Forall_empty.
  - apply Forall_app in Hl as [Hl Hline]. inversion Hline; subst.
    rewrite run_lines_snoc. apply step_metadata; [constructor| |by apply IH].
    intros m Hm. apply Forall_strip.
    eapply match_at_forall; [|exact Hm]. by apply Forall_strip.
Qed.

Lemma header_lines_ok (table : gmap str SongMetadata.t)
    (content filename : str) :
  (forall m, table !! str_lower filename = Some m -> plain_row m) ->
  Forall (fun l => plain_line l /\ nl_free l)
    (header_lines table (fst (parse_chordpro_file content)) filename).
Proof.
  intros Hrow. unfold header_lines. apply Forall_app. split.
  - destruct (table !! str_lower filename) as [m|]; [|constructor].
    by apply csv_header_ok, Hrow.
  - destruct (fst (parse_chordpro_file content) !! lit "key") as [k|] eqn:Ek;
      [|constructor].
    apply Forall_cons_2; [|constructor].
    apply header_line_ok; [simpl; auto 10|].
    unfold parse_chordpro_file in Ek. simpl in Ek.
    by apply (metadata_nl_free _ (split_lines_nl_free content) _ _ Ek).
Qed.

Lemma blank_plain : plain_line [] /\ nl_free [].
Proof. split; [by split | constructor]. Qed.

Lemma section_lines_nl_free (sec : ChordProSection.t) :
  nl_free (ChordProSection.type sec) ->
  Forall nl_free (ChordProSection.content sec) ->
  Forall nl_free (section_lines sec).
Proof.
  intros Hty Hc. unfold section_lines. fold written. constructor.
  { repeat (apply Forall_app; split); try done; by repeat constructor. }
  apply Forall_app. split.
  - apply Forall_forall. intros l Hl. apply list_elem_of_fmap in Hl as (l0 & -> & Hl0).
    apply written_nl_free. rewrite Forall_forall in Hc. by apply Hc.
  - apply Forall_cons_2; [|by repeat constructor].
    repeat (apply Forall_app; split); try done; by repeat constructor.
Qed.

Lemma enhanced_sections_lemma
    (table : gmap str SongMetadata.t) (content filename : str) :
  (forall m, table !! str_lower filename = Some m -> plain_row m) ->
  Forall comment_free (snd (parse_chordpro_file content)) ->
  let enhanced := enhance_chordpro table content filename in
  snd (parse_chordpro_file enhanced)
  = map read_back (snd (parse_chordpro_file content))
  /\ in_section (run_lines (split_lines enhanced)) = false.
Proof.
  intros Hrow Hfree. cbv zeta.
  pose proof (header_lines_ok table content filename Hrow) as Hheader.
  pose proof (parsed_section_shape content) as Hshape.
  unfold enhance_chordpro, output_lines.
  destruct (parse_chordpro_file content) as [md secs]. cbn [fst snd] in *.
  set (header := header_lines table md filename) in *.
  assert (Hsecs : Forall (fun sec =>
            strip (ChordProSection.type sec) = ChordProSection.type sec
            /\ Forall plain_line (map written (ChordProSection.content sec)))
          secs).
  { apply Forall_forall. intros sec Hsec.
    rewrite Forall_forall in Hfree. specialize (Hfree sec Hsec).
    apply list_elem_of_In in Hsec.
    destruct (Hshape sec Hsec) as (Hb & _ & Hty & _).
    split; [done|]. apply Forall_forall. intros l Hl.
    apply list_elem_of_fmap in Hl as (l0 & -> & Hl0). apply written_plain.
    unfold comment_free in Hfree. rewrite Forall_forall in Hb, Hfree.
    split; [by apply Hb | by apply Hfree]. }
  assert (Hnl : Forall nl_free
                  (header ++ [[]] ++ concat (map section_lines secs))).
  { apply Forall_app. split.
    { eapply Forall_impl; [exact Hheader|]. by intros l [_ Hl]. }
    apply Forall_app. split; [by repeat constructor|].
    apply Forall_concat, Forall_forall. intros ls Hls.
    apply list_elem_of_fmap in Hls as (sec & -> & Hsec).
    apply list_elem_of_In in Hsec.
    destruct (Hshape sec Hsec) as (_ & Hc & _ & Hty).
    by apply section_lines_nl_free. }
  unfold parse_chordpro_file. cbn [snd].
  rewrite split_lines_join; [|by destruct header|exact Hnl].
  rewrite app_assoc, run_lines_app.
  assert (Hplain : Forall plain_line (header ++ [[]])).
  { apply Forall_app. split.
    - eapply Forall_impl; [exact Hheader|]. by intros l [Hl _].
    - apply Forall_cons_2; [apply blank_plain | constructor]. }
  destruct (fold_plain _ Hplain initial) as (Hs0 & Hi0 & _ & Hl0 & _).
  fold (run_lines (header ++ [[]])) in Hs0, Hi0, Hl0.
  destruct (run_sections_lines secs Hsecs (run_lines (header ++ [[]])) Hi0 Hl0)
    as (Hs & Hi & _).
  split; [|exact Hi]. etransitivity; [exact Hs|].
  etransitivity; [apply (f_equal (fun x => x ++ map read_back secs) Hs0)|].
  reflexivity.
Qed.

(** The enhanced text, parsed again: when the fields written from the
    metadata row hold no newline and no content line is a comment
    line, the sections read back are those of the source, in their
    order and with their types, each one with its content lines as
    they were written, a name made from its type and no number; and
    every section of the enhanced text is closed. *)
Theorem enhanced_sections_read_back
    (table : gmap str SongMetadata.t) (content filename : str) :
  (forall m, table !! str_lower filename = Some m -> plain_row m) ->
  Forall comment_free (snd (parse_chordpro_file content)) ->
  let enhanced := enhance_chordpro table content filename in
  snd (parse_chordpro_file enhanced)
  = map read_back (snd (parse_chordpro_file content))
  /\ in_section (run_lines (split_lines enhanced)) = false.
Proof. apply enhanced_sections_lemma. Qed.

End Pipeline_extras.

(** A song with a key, enhanced without metadata row and parsed again. *)
Lemma enhanced_sections_read_back_witness :
  snd (@Parser.parse_chordpro_file Ascii_runtime.runtime
         (@Enhance.enhance_chordpro Ascii_runtime.runtime ∅
            Enhance_spec.keyed_document (lit "jem001")))
  = [ ChordProSection.Make (lit "Verse") (lit "verse") None
        [lit "Dieu est amour"] (lit "Dieu est amour") ].
Proof.
  destruct (@enhanced_sections_read_back Ascii_runtime.runtime ∅
              Enhance_spec.keyed_document (lit "jem001"))
    as [Hsec _].
  - intros m Hm. rewrite lookup_empty in Hm. discriminate Hm.
  - repeat constructor.
  - rewrite Hsec. reflexivity.
Defined.

(** ** From the source to the show *)

Section Show_extras.
Import Parser Dedup Dedup_facts Enhance FreeShow Pipeline_spec.
Context `{PyRuntime}.

(** From the source to the show: when the fields written from the
    metadata row hold no newline and no content line is a comment
    line, the show made from the enhanced text exists, its layout has
    one reference for each section of the source, and each reference
    gives a slide built from a section of the source as it is read
    back, so that the group of the slide is the name made from the
    type of that section. *)
Theorem enhanced_show
    (table : gmap str SongMetadata.t) (content filename name : str) :
  (forall m, table !! str_lower filename = Some m -> plain_row m) ->
  Forall comment_free (snd (parse_chordpro_file content)) ->
  let sections := snd (parse_chordpro_file content) in
  exists show lid refs,
    generate_freeshow_file (enhance_chordpro table content filename) name
    = Some show
    /\ layouts show !! lid = Some (Layout (lit "Default") (lit "1 voix") refs)
    /\ activeLayout show = lid
    /\ length refs = length sections
    /\ (forall k r, refs !! k = Some r ->
          exists u c,
            In u sections
            /\ slides show !! ref_id r
               = Some (create_freeshow_slide (read_back u) (ref_id r) c)
            /\ group (create_freeshow_slide (read_back u) (ref_id r) c)
               = str_title (ChordProSection.type u)).
Proof.
  intros Hrow Hfree. cbv zeta.
  destruct (enhanced_sections_lemma table content filename Hrow Hfree)
    as [Hsec _].
  destruct (show_of_text (enhance_chordpro table content filename) name)
    as (show & lid & refs & Hshow & Hlayout & Hactive & Hlen & Hrefs).
  cbv zeta in Hlen, Hrefs. rewrite Hsec in Hlen, Hrefs.
  exists show, lid, refs. repeat (split; [done|]).
  split; [by rewrite Hlen, length_map|].
  intros k r Hr.
  destruct (Hrefs k r Hr) as (v & u0 & j' & u' & c & _ & _ & _ & Hu' & _ & Hslide & _).
  destruct (run_sections_canonical
              (map read_back (snd (parse_chordpro_file content))))
    as (_ & Hsub & _).
  assert (Hin : u' ∈ map read_back (snd (parse_chordpro_file content))).
  { eapply elem_of_sublist; [|exact Hsub]. by eapply list_elem_of_lookup_2. }
  apply list_elem_of_fmap in Hin as (u & -> & Hu).
  exists u, c. split; [by apply list_elem_of_In|]. by split.
Qed.

End Show_extras.

(** A song with a key, without metadata row: one verse, one reference. *)
Lemma enhanced_show_witness :
  exists show lid refs,
    @FreeShow.generate_freeshow_file Ascii_runtime.runtime
      (@Enhance.enhance_chordpro Ascii_runtime.runtime ∅
         Enhance_spec.keyed_document (lit "jem001"))
      (lit "jem001-enhanced")
    = Some show
    /\ FreeShow.layouts show !! lid
       = Some (FreeShow.Layout (lit "Default") (lit "1 voix") refs)
    /\ length refs = 1.
Proof.
  destruct (@enhanced_show Ascii_runtime.runtime ∅
              Enhance_spec.keyed_document (lit "jem001")
              (lit "jem001-enhanced"))
    as (show & lid & refs & Hshow & Hlayout & _ & Hlen & _).
  - intros m Hm. rewrite lookup_empty in Hm. discriminate Hm.
  - repeat constructor.
  - exists show, lid, refs. split; [exact Hshow|]. split; [exact Hlayout|].
    exact Hlen.
Defined.

